(** * SMTP e-mail deliverability prober: a shallow embedding

    The development follows the three source modules:
    - [scripts/email-verifier.js]          (class [EmailVerifier]),
    - [scripts/advanced-email-verifier.js] (class [AdvancedEmailVerifier]),
    - [scripts/bulk-email-processor.js]    (class [BulkEmailProcessor]).

    JavaScript strings are sequences of UTF-16 code units, modelled as
    [list N].  Integers ([Date.now()], reply codes, delays) are [Z]; the
    operations used on them are exact on the doubles of JavaScript.
    [async] functions are modelled in a resumption monad ([Task]): a task
    runs atomically between two suspension points, and what the outside
    world (clock, DNS, network, scheduler) does in between is read from an
    abstract [Runtime]. *)

From Stdlib Require Import ZArith NArith Ascii String List Bool Lia.
From Stdlib Require Import Sorted Permutation.
From stdpp Require Import base option list gmap.

Import ListNotations.
Local Open Scope Z_scope.

(** ** JavaScript strings *)

Abbreviation jsstring := (list N).

(** A string literal of the source (ASCII only). *)
Definition lit (s : string) : jsstring :=
  List.map N_of_ascii (list_ascii_of_string s).

(** ECMAScript [WhiteSpace] and [LineTerminator] code units: what [\s],
    [String.prototype.trim] and the prefix skipped by [parseInt] agree on. *)
Definition isWhiteSpace (c : N) : bool :=
  ((9 <=? c) && (c <=? 13) || (c =? 32) || (c =? 160) || (c =? 5760)
   || (8192 <=? c) && (c <=? 8202) || (c =? 8232) || (c =? 8233)
   || (c =? 8239) || (c =? 8287) || (c =? 12288) || (c =? 65279))%N.

Fixpoint dropWhile {A} (p : A -> bool) (l : list A) : list A :=
  match l with
  | [] => []
  | x :: l' => if p x then dropWhile p l' else l
  end.

Definition trimStart (s : jsstring) : jsstring := dropWhile isWhiteSpace s.

(** [s.trim()] *)
Definition trim (s : jsstring) : jsstring :=
  rev (trimStart (rev (trimStart s))).

(** [s.substring(0, n)] *)
Definition substring0 (n : nat) (s : jsstring) : jsstring := firstn n s.

(** ["\r\n"] *)
Definition CRLF : jsstring := [13%N; 10%N].

(** [s.split("\r\n")]: never empty; the pieces between the separators. *)
Definition consFirst (c : N) (pieces : list jsstring) : list jsstring :=
  match pieces with
  | [] => [[c]]
  | l :: ls => (c :: l) :: ls
  end.

Fixpoint splitCRLF (s : jsstring) : list jsstring :=
  match s with
  | [] => [[]]
  | c :: rest =>
      match rest with
      | d :: rest' =>
          if ((c =? 13) && (d =? 10))%N then [] :: splitCRLF rest'
          else consFirst c (splitCRLF rest)
      | [] => [[c]]
      end
  end.

(** [s.split(sep)] for a one-unit separator. *)
Fixpoint splitOn (sep : N) (s : jsstring) : list jsstring :=
  match s with
  | [] => [[]]
  | c :: rest =>
      if (c =? sep)%N then [] :: splitOn sep rest
      else consFirst c (splitOn sep rest)
  end.

(** [email.split("@")[1]]; [None] is [undefined]. *)
Definition domainOf (email : jsstring) : option jsstring :=
  nth_error (splitOn 64%N email) 1.

(** Value of a digit in the given radix (10 or 16). *)
Definition digitValue (radix : Z) (c : N) : option Z :=
  let v := if ((48 <=? c) && (c <=? 57))%N then Some (Z.of_N c - 48)
           else if ((97 <=? c) && (c <=? 102))%N then Some (Z.of_N c - 87)
           else if ((65 <=? c) && (c <=? 70))%N then Some (Z.of_N c - 55)
           else None in
  match v with
  | Some d => if d <? radix then Some d else None
  | None => None
  end.

(** The longest prefix of digits, as a number; [None] when it is empty. *)
Fixpoint parseDigits (radix : Z) (acc : option Z) (s : jsstring) : option Z :=
  match s with
  | [] => acc
  | c :: rest =>
      match digitValue radix c with
      | Some d => parseDigits radix (Some (radix * default 0 acc + d)) rest
      | None => acc
      end
  end.

(** [Number.parseInt(s)] without a radix; [None] is [NaN]. *)
Definition parseInt (s : jsstring) : option Z :=
  let s1 := trimStart s in
  let '(sign, s2) := match s1 with
                     | 45%N :: r => (-1, r)
                     | 43%N :: r => (1, r)
                     | _ => (1, s1)
                     end in
  let '(radix, s3) := match s2 with
                      | 48%N :: 120%N :: r => (16, r)
                      | 48%N :: 88%N :: r => (16, r)
                      | _ => (10, s2)
                      end in
  option_map (Z.mul sign) (parseDigits radix None s3).

(** [code === n], [code >= n], [code <= n] on a possibly-[NaN] code: every
    comparison with [NaN] is false. *)
Definition codeIs (code : option Z) (n : Z) : bool :=
  match code with Some c => c =? n | None => false end.
Definition codeGe (code : option Z) (n : Z) : bool :=
  match code with Some c => n <=? c | None => false end.
Definition codeLe (code : option Z) (n : Z) : bool :=
  match code with Some c => c <=? n | None => false end.

(** ** Regular expressions

    The source validates addresses with a regular-expression literal; its
    [test] is membership in the language of the expression (the literal is
    anchored at both ends and has no flags).  [test] is computed with
    derivatives. *)

Inductive regex : Type :=
| Empty
| Eps
| Class (p : N -> bool)
| Cat (r1 r2 : regex)
| Alt (r1 r2 : regex)
| Star (r : regex).

Definition Plus (r : regex) : regex := Cat r (Star r).

Fixpoint nullable (r : regex) : bool :=
  match r with
  | Empty => false
  | Eps => true
  | Class _ => false
  | Cat r1 r2 => nullable r1 && nullable r2
  | Alt r1 r2 => nullable r1 || nullable r2
  | Star _ => true
  end.

Fixpoint deriv (c : N) (r : regex) : regex :=
  match r with
  | Empty => Empty
  | Eps => Empty
  | Class p => if p c then Eps else Empty
  | Cat r1 r2 =>
      if nullable r1 then Alt (Cat (deriv c r1) r2) (deriv c r2)
      else Cat (deriv c r1) r2
  | Alt r1 r2 => Alt (deriv c r1) (deriv c r2)
  | Star r1 => Cat (deriv c r1) (Star r1)
  end.

(** [r.test(s)] *)
Fixpoint test (r : regex) (s : jsstring) : bool :=
  match s with
  | [] => nullable r
  | c :: rest => test (deriv c r) rest
  end.

(** The language of an expression. *)
Inductive matches : regex -> jsstring -> Prop :=
| m_eps : matches Eps []
| m_class p c : p c = true -> matches (Class p) [c]
| m_cat r1 r2 s1 s2 :
    matches r1 s1 -> matches r2 s2 -> matches (Cat r1 r2) (s1 ++ s2)
| m_alt_l r1 r2 s : matches r1 s -> matches (Alt r1 r2) s
| m_alt_r r1 r2 s : matches r2 s -> matches (Alt r1 r2) s
| m_star_nil r : matches (Star r) []
| m_star_cons r s1 s2 :
    matches r s1 -> matches (Star r) s2 -> matches (Star r) (s1 ++ s2).

(** [[^\s@]] *)
Definition notSpaceNorAt (c : N) : bool :=
  negb (isWhiteSpace c) && negb (c =? 64)%N.

(** [/^[^\s@]+@[^\s@]+\.[^\s@]+$/] *)
Definition emailRegex : regex :=
  Cat (Plus (Class notSpaceNorAt))
      (Cat (Class (N.eqb 64))
           (Cat (Plus (Class notSpaceNorAt))
                (Cat (Class (N.eqb 46))
                     (Plus (Class notSpaceNorAt))))).

(** [isValidEmailFormat(email)] (the same body in [EmailVerifier] and in
    [BulkEmailProcessor]). *)
Definition isValidEmailFormat (email : jsstring) : bool :=
  test emailRegex email.

(** The pattern in the words of the specification: one or more
    non-whitespace-non-[@] characters, [@], one or more such characters, a
    dot, one or more such characters. *)
Definition wellFormedAddress (email : jsstring) : Prop :=
  exists a b c : jsstring,
    email = a ++ [64%N] ++ b ++ [46%N] ++ c /\
    a <> [] /\ b <> [] /\ c <> [] /\
    forallb notSpaceNorAt a = true /\
    forallb notSpaceNorAt b = true /\
    forallb notSpaceNorAt c = true.

(** ** Verification outcomes *)

(** The status strings that the source produces. *)
Inductive Status : Type :=
| st_invalid_format
| st_no_mx_record
| st_connection_failed
| st_connection_rejected
| st_handshake_failed
| st_mail_from_rejected
| st_valid
| st_invalid
| st_temporary_failure
| st_unknown_response
| st_rate_limited
| st_error
| st_batch_error.

#[global] Instance Status_eq_dec : EqDecision Status.
Proof. solve_decision. Defined.

(** The result objects; an absent property is [None]. *)
Record Outcome : Type := mkOutcome {
  email : jsstring;
  isValid : bool;
  status : Status;
  message : jsstring;
  smtpResponse : option jsstring;
  fromCache : option bool
}.

(** [{ ...o, fromCache: true }] *)
Definition withFromCache (o : Outcome) : Outcome :=
  {| email := email o; isValid := isValid o; status := status o;
     message := message o; smtpResponse := smtpResponse o;
     fromCache := Some true |}.

(** A JavaScript [Error]; only its message is ever read. *)
Record Error : Type := mkError { errorMessage : jsstring }.

(** How a call or a promise ends. *)
Inductive Completion (A : Type) : Type :=
| Return (a : A)
| Throw (e : Error).
Arguments Return {A} a.
Arguments Throw {A} e.

(** ** The probe session ([verifyWithMxRecord] and its helpers) *)

Inductive Step : Type :=
| step_connect | step_ehlo | step_helo | step_mail_from | step_rcpt_to
| step_quit.

(** What [handleSmtpResponse] does, in order: it sends commands and calls the
    [resolve] callback it was given. *)
Inductive Action : Type :=
| Send (command : jsstring)
| Resolve (o : Outcome).

(** [getLocalHostname()] *)
Definition getLocalHostname : jsstring := lit "localhost".

Section Protocol.
(** [this.fromEmail] *)
Variable fromEmail : jsstring.

(** [handleSmtpResponse(socket, line, email, step, resolve)] *)
Definition handleSmtpResponse (line email : jsstring) (step : Step)
  : list Action :=
  let code := parseInt (substring0 3 line) in
  match step with
  | step_connect =>
      if codeIs code 220
      then [Send (lit "EHLO " ++ getLocalHostname)]
      else [Resolve {| email := email; isValid := false;
                       status := st_connection_rejected;
                       message := lit "Connection rejected: " ++ line;
                       smtpResponse := Some line; fromCache := None |}]
  | step_ehlo =>
      if codeIs code 250
      then [Send (lit "MAIL FROM:<" ++ fromEmail ++ lit ">")]
      else [Send (lit "HELO " ++ getLocalHostname)]
  | step_helo =>
      if codeIs code 250
      then [Send (lit "MAIL FROM:<" ++ fromEmail ++ lit ">")]
      else [Resolve {| email := email; isValid := false;
                       status := st_handshake_failed;
                       message := lit "Handshake failed: " ++ line;
                       smtpResponse := Some line; fromCache := None |}]
  | step_mail_from =>
      if codeIs code 250
      then [Send (lit "RCPT TO:<" ++ email ++ lit ">")]
      else [Resolve {| email := email; isValid := false;
                       status := st_mail_from_rejected;
                       message := lit "MAIL FROM rejected: " ++ line;
                       smtpResponse := Some line; fromCache := None |}]
  | step_rcpt_to =>
      Send (lit "QUIT") ::
      (if codeIs code 250
       then [Resolve {| email := email; isValid := true;
                        status := st_valid;
                        message := lit "Email address is valid";
                        smtpResponse := Some line; fromCache := None |}]
       else if codeGe code 500 && codeLe code 599
       then [Resolve {| email := email; isValid := false;
                        status := st_invalid;
                        message := lit "Email address rejected: " ++ line;
                        smtpResponse := Some line; fromCache := None |}]
       else if codeGe code 400 && codeLe code 499
       then [Resolve {| email := email; isValid := false;
                        status := st_temporary_failure;
                        message := lit "Temporary failure: " ++ line;
                        smtpResponse := Some line; fromCache := None |}]
       else [Resolve {| email := email; isValid := false;
                        status := st_unknown_response;
                        message := lit "Unknown response: " ++ line;
                        smtpResponse := Some line; fromCache := None |}])
  | step_quit => []
  end.

(** [getNextStep(currentStep, response)] *)
Definition getNextStep (currentStep : Step) (response : jsstring) : Step :=
  let code := parseInt (substring0 3 response) in
  match currentStep with
  | step_connect => step_ehlo
  | step_ehlo => if codeIs code 250 then step_mail_from else step_helo
  | step_helo => step_mail_from
  | step_mail_from => step_rcpt_to
  | step_rcpt_to => step_quit
  | step_quit => currentStep
  end.

(** What a session does to the outside, in order: [socket.write],
    [socket.destroy], and the calls of the promise's own [resolve] and
    [reject]. *)
Inductive SessionEffect : Type :=
| Written (data : jsstring)
| Destroyed
| PromiseResolved (o : Outcome)
| PromiseRejected (e : Error).

(** The variables that the closures of [verifyWithMxRecord] share, the
    socket's [destroyed] flag, whether the timer was cleared, and the
    effects so far. *)
Record Session : Type := mkSession {
  response : jsstring;
  step : Step;
  isResolved : bool;
  socketDestroyed : bool;
  timerCleared : bool;
  effects : list SessionEffect
}.

Definition newSession : Session :=
  {| response := []; step := step_connect; isResolved := false;
     socketDestroyed := false; timerCleared := false; effects := [] |}.

Definition emit (e : SessionEffect) (ss : Session) : Session :=
  {| response := response ss; step := step ss;
     isResolved := isResolved ss; socketDestroyed := socketDestroyed ss;
     timerCleared := timerCleared ss; effects := effects ss ++ [e] |}.

(** [cleanup()] *)
Definition cleanup (ss : Session) : Session :=
  if socketDestroyed ss then ss
  else {| response := response ss; step := step ss;
          isResolved := isResolved ss; socketDestroyed := true;
          timerCleared := timerCleared ss;
          effects := effects ss ++ [Destroyed] |}.

Definition setResolved (ss : Session) : Session :=
  {| response := response ss; step := step ss; isResolved := true;
     socketDestroyed := socketDestroyed ss;
     timerCleared := timerCleared ss; effects := effects ss |}.

(** [resolveOnce(result)] *)
Definition resolveOnce (result : Outcome) (ss : Session) : Session :=
  if isResolved ss then ss
  else emit (PromiseResolved result) (cleanup (setResolved ss)).

(** [rejectOnce(error)] *)
Definition rejectOnce (e : Error) (ss : Session) : Session :=
  if isResolved ss then ss
  else emit (PromiseRejected e) (cleanup (setResolved ss)).

(** [sendCommand(socket, command)] *)
Definition sendCommand (command : jsstring) (ss : Session) : Session :=
  emit (Written (command ++ CRLF)) ss.

Definition perform (a : Action) (ss : Session) : Session :=
  match a with
  | Send command => sendCommand command ss
  | Resolve o => resolveOnce o ss
  end.

Definition setStep (st : Step) (ss : Session) : Session :=
  {| response := response ss; step := st; isResolved := isResolved ss;
     socketDestroyed := socketDestroyed ss;
     timerCleared := timerCleared ss; effects := effects ss |}.

Definition setResponse (r : jsstring) (ss : Session) : Session :=
  {| response := r; step := step ss; isResolved := isResolved ss;
     socketDestroyed := socketDestroyed ss;
     timerCleared := timerCleared ss; effects := effects ss |}.

(** The body of the loop over the complete lines of a read. *)
Definition onLine (email : jsstring) (ss : Session) (line : jsstring)
  : Session :=
  match trim line with
  | [] => ss
  | _ :: _ =>
      let ss1 := fold_left (fun acc a => perform a acc)
                   (handleSmtpResponse line email (step ss)) ss in
      setStep (getNextStep (step ss) line) ss1
  end.
End Protocol.

Section Socket.
Variable fromEmail : jsstring.

(** The events that the runtime delivers to the handlers registered in
    [verifyWithMxRecord]; [EvTimer] is the expiry of the [setTimeout] timer
    and [EvTimeout] the socket's own idle timeout. *)
Inductive SocketEvent : Type :=
| EvConnect
| EvData (chunk : jsstring)
| EvError (e : Error)
| EvTimeout
| EvTimer
| EvClose
| EvEnd.

(** [socket.on("data", ...)] *)
Definition onData (email chunk : jsstring) (ss : Session) : Session :=
  let lines := splitCRLF (response ss ++ chunk) in
  fold_left (onLine fromEmail email) (removelast lines)
    (setResponse (List.last lines []) ss).

Definition clearTimer (ss : Session) : Session :=
  {| response := response ss; step := step ss; isResolved := isResolved ss;
     socketDestroyed := socketDestroyed ss; timerCleared := true;
     effects := effects ss |}.

(** What the runtime has done to the socket by the time it emits ['error'] or
    ['close'] on it: node destroys a socket, which sets [socket.destroyed],
    before it emits either event, and no other handler runs in between.  The
    flag is set by the runtime, so no call of [socket.destroy()] is among the
    effects.  The socket's ['timeout'] event, the [setTimeout] timer and a
    read leave the socket as it is. *)
Definition destroyedByRuntime (ss : Session) : Session :=
  {| response := response ss; step := step ss; isResolved := isResolved ss;
     socketDestroyed := true; timerCleared := timerCleared ss;
     effects := effects ss |}.

(** One handler invocation.  A timer that was cleared does not fire; the
    handlers of ['error'] and ['close'] find the socket destroyed. *)
Definition handleEvent (email : jsstring) (ev : SocketEvent) (ss : Session)
  : Session :=
  match ev with
  | EvConnect => ss
  | EvData chunk => onData email chunk ss
  | EvError e => rejectOnce e (destroyedByRuntime ss)
  | EvTimeout => rejectOnce (mkError (lit "Socket timeout")) ss
  | EvTimer =>
      if timerCleared ss then ss
      else rejectOnce (mkError (lit "Connection timeout")) ss
  | EvClose =>
      let ss1 := destroyedByRuntime ss in
      if isResolved ss1 then ss1
      else rejectOnce (mkError (lit "Connection closed unexpectedly")) ss1
  | EvEnd => clearTimer ss
  end.

Definition handleEvents (email : jsstring) (evs : list SocketEvent)
  (ss : Session) : Session :=
  fold_left (fun acc ev => handleEvent email ev acc) evs ss.

(** The calls of the promise's [resolve] and [reject] among the effects,
    in order. *)
Definition settlementCalls (fx : list SessionEffect)
  : list (Completion Outcome) :=
  omap (fun e => match e with
                 | PromiseResolved o => Some (Return o)
                 | PromiseRejected e => Some (Throw e)
                 | _ => None
                 end) fx.

(** The state of the promise returned by [verifyWithMxRecord]: pending
    ([None]) or settled by the first call of its [resolve] or [reject]. *)
Definition promiseState (ss : Session) : option (Completion Outcome) :=
  head (settlementCalls (effects ss)).
End Socket.

(** *** Predicates on sessions used in the statements *)

Definition isWritten (e : SessionEffect) : Prop :=
  match e with Written _ => True | _ => False end.

Definition settlementEffect (c : Completion Outcome) : SessionEffect :=
  match c with
  | Return o => PromiseResolved o
  | Throw e => PromiseRejected e
  end.

(** A session is either pending, with an intact socket and nothing but
    writes behind it, or it was settled once, by [c], right after its socket
    was destroyed, and has done nothing but writes since. *)
Definition pendingSession (ss : Session) : Prop :=
  isResolved ss = false /\ socketDestroyed ss = false /\
  Forall isWritten (effects ss).

Definition settledSession (c : Completion Outcome) (ss : Session) : Prop :=
  isResolved ss = true /\ socketDestroyed ss = true /\
  exists pre post,
    effects ss = pre ++ [Destroyed; settlementEffect c] ++ post /\
    Forall isWritten pre /\ Forall isWritten post.

(** A session that was rejected once, with [e], by the handler of an event
    that the runtime emits on a socket it has destroyed itself: [cleanup] had
    nothing to do, so the rejection is not preceded by a call of
    [socket.destroy()]. *)
Definition rejectedSession (e : Error) (ss : Session) : Prop :=
  isResolved ss = true /\ socketDestroyed ss = true /\
  exists pre post,
    effects ss = pre ++ [PromiseRejected e] ++ post /\
    Forall isWritten pre /\ Forall isWritten post.

(** The shape that every action and every handler keeps. *)
Definition shaped (ss : Session) : Prop :=
  pendingSession ss \/ (exists c, settledSession c ss) \/
  exists e, rejectedSession e ss.

(** The outcome of the first [resolve] call among some actions. *)
Definition firstResolve (acts : list Action) : option Outcome :=
  head (omap (fun a => match a with Resolve o => Some o | Send _ => None end)
          acts).

(** ** The runtime and the state of a run *)

(** An entry of [dns.resolveMx]. *)
Record MxRecord : Type := mkMx { exchange : jsstring; priority : Z }.

(** The world outside the program.  While a task waits, the world moves on;
    every field that answers a wait also says what the world has become.
    - [now]: [Date.now()];
    - [resolveMx]: the answer to an MX lookup (a list of records or a
      failure);
    - [connect]: the events that a new socket connected to port 25 of a host
      is going to deliver to its handlers, timer expiry included;
    - [delivered]: the world once one such event has been delivered;
    - [timer]: the world once a [setTimeout] of so many milliseconds fired;
    - [writeFile]: the result of [fs.writeFile];
    - [choose]: the event loop's choice between the continuation of the task
      numbered [j] of a group and those of the tasks after it. *)
Class Runtime : Type := {
  World : Type;
  now : World -> Z;
  resolveMx : jsstring -> World -> Completion (list MxRecord) * World;
  connect : jsstring -> World -> list SocketEvent * World;
  delivered : World -> World;
  timer : Z -> World -> World;
  writeFile : World -> Completion unit * World;
  choose : nat -> World -> bool * World
}.

(** The options of the constructors, after their defaults were applied.
    [batchSize] and [concurrency] are positive integers. *)
Class Config : Type := {
  fromEmail : jsstring;
  cacheExpiry : Z;
  maxRequestsPerDomain : Z;
  rateLimitWindow : Z;
  batchSize : positive;
  concurrency : positive;
  delay : Z;
  retryAttempts : Z
}.

(** A value of [this.cache]. *)
Record CacheEntry : Type := mkEntry { result : Outcome; timestamp : Z }.

(** What a run does to the outside, in order. *)
Inductive Effect : Type :=
| DnsQuery (domain : jsstring)
| TcpConnect (host : jsstring)
| Sleep (ms : Z)
| SaveIntermediate (batchNumber : nat).

Section Machine.
Context {RT : Runtime}.

(** The world, the two maps of [AdvancedEmailVerifier] ([rateLimiter] is
    keyed by a domain that may be [undefined]) and the effects so far. *)
Record State : Type := mkState {
  world : World;
  cache : gmap jsstring CacheEntry;
  rateLimiter : gmap (option jsstring) (list Z);
  log : list Effect
}.

Definition setWorld (w : World) (s : State) : State :=
  {| world := w; cache := cache s; rateLimiter := rateLimiter s;
     log := log s |}.
Definition setCache (c : gmap jsstring CacheEntry) (s : State) : State :=
  {| world := world s; cache := c; rateLimiter := rateLimiter s;
     log := log s |}.
Definition setRateLimiter (r : gmap (option jsstring) (list Z)) (s : State)
  : State :=
  {| world := world s; cache := cache s; rateLimiter := r; log := log s |}.
Definition record (e : Effect) (s : State) : State :=
  {| world := world s; cache := cache s; rateLimiter := rateLimiter s;
     log := log s ++ [e] |}.

(** *** Promises

    A promise is settled, or will never be, or is suspended: when the event
    loop resumes it, it runs one atomic piece of code on the state of that
    moment and becomes another promise. *)
#[warnings="-register-all"]
Inductive Task (A : Type) : Type :=
| Settled (c : Completion A)
| Never
| Suspended (resume : State -> State * Task A).
Arguments Settled {A} c.
Arguments Never {A}.
Arguments Suspended {A} resume.

(** A call of an [async] function: it runs up to its first [await] at
    once and returns a promise. *)
Definition Async (A : Type) : Type := State -> State * Task A.

Definition ret {A} (a : A) : Async A := fun s => (s, Settled (Return a)).
Definition throw {A} (e : Error) : Async A := fun s => (s, Settled (Throw e)).
Definition hang {A} : Async A := fun s => (s, Never).

(** Synchronous code on the state. *)
Definition sync {A} (f : State -> A * State) : Async A :=
  fun s => let (a, s') := f s in (s', Settled (Return a)).

(** Once [t] is settled, go on with [k]. *)
Fixpoint andThen {A B} (t : Task A) (k : Completion A -> Async B)
  (s : State) : State * Task B :=
  match t with
  | Settled c => k c s
  | Never => (s, Never)
  | Suspended f =>
      (s, Suspended (fun s' => let (s'', t') := f s' in andThen t' k s''))
  end.

Definition bind {A B} (m : Async A) (k : A -> Async B) : Async B :=
  fun s => let (s1, t) := m s in
           andThen t (fun c => match c with
                               | Return a => k a
                               | Throw e => throw e
                               end) s1.

(** [try { m } catch (e) { h e }] *)
Definition tryCatch {A} (m : Async A) (h : Error -> Async A) : Async A :=
  fun s => let (s1, t) := m s in
           andThen t (fun c => match c with
                               | Return a => ret a
                               | Throw e => h e
                               end) s1.

(** [await m]: the caller is suspended in any case and goes on one turn of
    the event loop after the promise is settled. *)
Definition await {A} (m : Async A) : Async A :=
  fun s => let (s1, t) := m s in
           andThen t (fun c s' => (s', Suspended (fun s'' => (s'', Settled c))))
             s1.

(** [new Promise((resolve) => setTimeout(resolve, ms))] *)
Definition sleep (ms : Z) : Async unit :=
  fun s => (record (Sleep ms) s,
            Suspended (fun s' => (setWorld (timer ms (world s')) s',
                                  Settled (Return tt)))).

(** Running the event loop until a promise is settled, when nothing else
    is going on. *)
Fixpoint finish {A} (t : Task A) (s : State)
  : State * option (Completion A) :=
  match t with
  | Settled c => (s, Some c)
  | Never => (s, None)
  | Suspended f => let (s', t') := f s in finish t' s'
  end.

Definition run {A} (m : Async A) (s : State)
  : State * option (Completion A) :=
  let (s1, t) := m s in finish t s1.

(** *** [Promise.allSettled] *)

(** The promise of the task numbered [j] and the joined promise of the
    tasks after it.  When both can go on, the event loop chooses. *)
Fixpoint joinCons {A} (j : nat) (t : Task A)
  : Task (list (Completion A)) -> Task (list (Completion A)) :=
  fix joinRest (rest : Task (list (Completion A)))
    : Task (list (Completion A)) :=
    match t, rest with
    | Settled c, Settled (Return cs) => Settled (Return (c :: cs))
    | Settled c, Settled (Throw e) => Settled (Throw e)
    | Suspended f, Suspended g =>
        Suspended (fun s =>
          let (first, w) := choose j (world s) in
          if first
          then let (s', t') := f (setWorld w s) in (s', joinCons j t' rest)
          else let (s', r') := g (setWorld w s) in (s', joinRest r'))
    | Suspended f, _ =>
        Suspended (fun s => let (s', t') := f s in (s', joinCons j t' rest))
    | _, Suspended g =>
        Suspended (fun s => let (s', r') := g s in (s', joinRest r'))
    | _, _ => Never
    end.

Fixpoint joinFrom {A} (j : nat) (ts : list (Task A))
  : Task (list (Completion A)) :=
  match ts with
  | [] => Settled (Return [])
  | t :: ts' => joinCons j t (joinFrom (S j) ts')
  end.

(** [calls.map((call) => call())]: every call runs up to its first
    [await], in order. *)
Fixpoint startAll {A} (calls : list (Async A)) (s : State)
  : State * list (Task A) :=
  match calls with
  | [] => (s, [])
  | m :: calls' =>
      let (s1, t) := m s in
      let (s2, ts) := startAll calls' s1 in
      (s2, t :: ts)
  end.

(** [Promise.allSettled(calls.map(...))] *)
Definition allSettled {A} (calls : list (Async A))
  : Async (list (Completion A)) :=
  fun s => let (s', ts) := startAll calls s in (s', joinFrom 0 ts).
End Machine.

Arguments Settled {RT A} c.
Arguments Never {RT A}.
Arguments Suspended {RT A} resume.

Declare Scope async_scope.
Delimit Scope async_scope with async.
Notation "'let!' x ':=' m 'in' k" := (bind m (fun x => k))
  (at level 10, x name, m at level 100, k at level 200) : async_scope.

(** ** The verifier ([EmailVerifier], [AdvancedEmailVerifier]) *)

Section Verifier.
Context {RT : Runtime} {CF : Config}.
Local Open Scope async_scope.

(** The promise made by [verifyWithMxRecord]: every event runs one handler
    on the variables of the session; the promise is settled as soon as a
    handler settled it, and never if the events run out before that. *)
Fixpoint sessionTask (email : jsstring) (evs : list SocketEvent)
  (ss : Session) : Task Outcome :=
  match evs with
  | [] => Never
  | ev :: rest =>
      Suspended (fun s =>
        let ss' := handleEvent fromEmail email ev ss in
        (setWorld (delivered (world s)) s,
         match promiseState ss' with
         | Some c => Settled c
         | None => sessionTask email rest ss'
         end))
  end.

(** [verifyWithMxRecord(email, mxHost)] *)
Definition verifyWithMxRecord (email mxHost : jsstring) : Async Outcome :=
  fun s =>
    let (evs, w) := connect mxHost (world s) in
    (record (TcpConnect mxHost) (setWorld w s),
     sessionTask email evs newSession).

(** [records.sort((a, b) => a.priority - b.priority)]: [sort] is stable. *)
Fixpoint insertByPriority (x : MxRecord) (sorted : list MxRecord)
  : list MxRecord :=
  match sorted with
  | [] => [x]
  | y :: rest =>
      if priority x <=? priority y then x :: sorted
      else y :: insertByPriority x rest
  end.

Definition sortByPriority (records : list MxRecord) : list MxRecord :=
  fold_right insertByPriority [] records.

(** [resolveMx(domain)]; with [undefined] it throws at once. *)
Definition resolveMxCall (domain : option jsstring)
  : Async (list MxRecord) :=
  match domain with
  | None =>
      throw (mkError (lit "The name argument must be of type string"))
  | Some d =>
      fun s =>
        (record (DnsQuery d) s,
         Suspended (fun s' =>
           let (c, w) := resolveMx d (world s') in
           (setWorld w s', Settled c)))
  end.

(** [getMxRecords(domain)]; [None] is [null]. *)
Definition getMxRecords (domain : option jsstring)
  : Async (option (list MxRecord)) :=
  tryCatch
    (let! records := await (resolveMxCall domain) in
     ret (Some (sortByPriority records)))
    (fun error => ret None).

Definition connectionFailed (email : jsstring) : Outcome :=
  {| email := email; isValid := false; status := st_connection_failed;
     message := lit "Could not connect to any mail server";
     smtpResponse := None; fromCache := None |}.

(** The loop [for (const mx of mxRecords)] of [verifyEmail] and the
    [return] after it.  The [try] block covers one probe only. *)
Fixpoint tryMxRecords (email : jsstring) (mxRecords : list MxRecord)
  : Async Outcome :=
  match mxRecords with
  | [] => ret (connectionFailed email)
  | mx :: rest =>
      let! conclusive :=
        tryCatch
          (let! result := await (verifyWithMxRecord email (exchange mx)) in
           if decide (status result <> st_connection_failed)
           then ret (Some result)
           else ret None)
          (fun error => ret None) in
      match conclusive with
      | Some result => ret result
      | None => tryMxRecords email rest
      end
  end.

(** [verifyEmail(email)] *)
Definition verifyEmail (email : jsstring) : Async Outcome :=
  tryCatch
    (if negb (isValidEmailFormat email)
     then ret {| email := email; isValid := false;
                 status := st_invalid_format;
                 message := lit "Invalid email format";
                 smtpResponse := None; fromCache := None |}
     else
       let domain := domainOf email in
       let! mxRecords := await (getMxRecords domain) in
       match mxRecords with
       | None | Some [] =>
           ret {| email := email; isValid := false;
                  status := st_no_mx_record;
                  message := lit "No MX record found for domain";
                  smtpResponse := None; fromCache := None |}
       | Some records => tryMxRecords email records
       end)
    (fun error =>
       ret {| email := email; isValid := false; status := st_error;
              message := errorMessage error;
              smtpResponse := None; fromCache := None |}).

(** [getFromCache(email)]; [None] is [null]. *)
Definition getFromCache (email : jsstring) (s : State)
  : option Outcome * State :=
  match cache s !! email with
  | Some cached =>
      if now (world s) - timestamp cached <? cacheExpiry
      then (Some (result cached), s)
      else (None, setCache (delete email (cache s)) s)
  | None => (None, s)
  end.

(** [addToCache(email, result)] *)
Definition addToCache (email : jsstring) (r : Outcome) (s : State)
  : unit * State :=
  (tt, setCache (<[email := {| result := r;
                               timestamp := now (world s) |}]> (cache s)) s).

(** [checkRateLimit(domain)] *)
Definition checkRateLimit (domain : option jsstring) (s : State)
  : bool * State :=
  let now_ := now (world s) in
  let domainRequests := default [] (rateLimiter s !! domain) in
  let validRequests :=
    List.filter (fun t => now_ - t <? rateLimitWindow) domainRequests in
  if maxRequestsPerDomain <=? Z.of_nat (length validRequests)
  then (false, s)
  else (true,
        setRateLimiter (<[domain := validRequests ++ [now_]]> (rateLimiter s))
          s).

Definition rateLimited (email : jsstring) : Outcome :=
  {| email := email; isValid := false; status := st_rate_limited;
     message := lit "Rate limit exceeded for domain";
     smtpResponse := None; fromCache := None |}.

(** [verifyEmailAdvanced(email)] *)
Definition verifyEmailAdvanced (email : jsstring) : Async Outcome :=
  let! cached := sync (getFromCache email) in
  match cached with
  | Some c => ret (withFromCache c)
  | None =>
      let domain := domainOf email in
      let! allowed := sync (checkRateLimit domain) in
      if negb allowed then ret (rateLimited email)
      else
        let! r := await (verifyEmail email) in
        let! _ := sync (addToCache email r) in
        ret r
  end.

End Verifier.

(** ** The bulk processor ([BulkEmailProcessor]) *)

(** [a.slice(i, j)] for [0 <= i <= j] *)
Definition slice {A} (a : list A) (i j : nat) : list A :=
  firstn (j - i) (skipn i a).

Section Processor.
Context {RT : Runtime} {CF : Config}.
Local Open Scope async_scope.

(** What one attempt of [verifyWithRetry] decides. *)
Inductive Attempt : Type :=
| Done (r : Outcome)
| Again.

(** [verifyWithRetry(email, attempt)].  The two recursive calls are
    returned without [await], so the [try] block does not cover them.
    [fuel] bounds the recursion; [verifyWithRetryAt] gives the calls that
    are left, and the branch without fuel is never taken. *)
Fixpoint verifyWithRetryFrom (fuel : nat) (email : jsstring) (attempt : Z)
  : Async Outcome :=
  let! next :=
    tryCatch
      (let! r := await (verifyEmailAdvanced email) in
       if bool_decide (status r = st_temporary_failure)
          && (attempt <=? retryAttempts)
       then let! _ := await (sleep (5000 * attempt)) in ret Again
       else ret (Done r))
      (fun error =>
         if attempt <=? retryAttempts
         then let! _ := await (sleep (3000 * attempt)) in ret Again
         else throw error) in
  match next with
  | Done r => ret r
  | Again =>
      match fuel with
      | S fuel' => verifyWithRetryFrom fuel' email (attempt + 1)
      | O => hang
      end
  end.

Definition verifyWithRetryAt (email : jsstring) (attempt : Z)
  : Async Outcome :=
  verifyWithRetryFrom (Z.to_nat (retryAttempts + 1 - attempt)) email attempt.

(** [verifyWithRetry(email)], with [attempt = 1] *)
Definition verifyWithRetry (email : jsstring) : Async Outcome :=
  verifyWithRetryAt email 1.

(** The loop over [groupResults] in [processBatch]: what is pushed for
    the entry numbered [j]. *)
Definition pushed (group : list jsstring) (j : nat)
  (settled : Completion Outcome) : Outcome :=
  match settled with
  | Return value => value
  | Throw reason =>
      {| email := nth j group []; isValid := false; status := st_error;
         message := errorMessage reason;
         smtpResponse := None; fromCache := None |}
  end.

(** The loop of [processBatch] from index [i] on, with the results so
    far. *)
Fixpoint processBatchFrom (fuel : nat) (emails : list jsstring) (i : nat)
  (results : list Outcome) : Async (list Outcome) :=
  if (i <? length emails)%nat then
    match fuel with
    | O => hang
    | S fuel' =>
        let group := slice emails i (i + Pos.to_nat concurrency) in
        let! groupResults :=
          await (allSettled (List.map verifyWithRetry group)) in
        let results' := results ++ imap (pushed group) groupResults in
        let! _ := (if (i + Pos.to_nat concurrency <? length emails)%nat
                   then await (sleep 500) else ret tt) in
        processBatchFrom fuel' emails (i + Pos.to_nat concurrency) results'
    end
  else ret results.

(** [processBatch(emails)] *)
Definition processBatch (emails : list jsstring) : Async (list Outcome) :=
  processBatchFrom (length emails) emails 0 [].

(** [fs.writeFile(filename, ...)] for the intermediate results *)
Definition writeFileCall (batchNumber : nat) : Async unit :=
  fun s =>
    (record (SaveIntermediate batchNumber) s,
     Suspended (fun s' =>
       let (c, w) := writeFile (world s') in (setWorld w s', Settled c))).

(** [saveResults(results, filename)] *)
Definition saveResults (batchNumber : nat) : Async unit :=
  tryCatch (let! _ := await (writeFileCall batchNumber) in ret tt)
           (fun error => ret tt).

Definition batchError (error : Error) (email : jsstring) : Outcome :=
  {| email := email; isValid := false; status := st_batch_error;
     message := lit "Batch processing failed: " ++ errorMessage error;
     smtpResponse := None; fromCache := None |}.

Section Batches.
(** [this.processBatch] *)
Variable processBatchMethod : list jsstring -> Async (list Outcome).
(** [options.saveIntermediate] *)
Variable saveIntermediate : bool.

(** The [try] statement in the loop of [processBulkEmails], as a
    function from [results] before it to [results] after it.  The
    handler sees the value that [results] has when the error is thrown:
    the old one for an error of [processBatch], the new one after
    that. *)
Definition tryBatch (batch : list jsstring) (batchNumber : nat)
  (results : list Outcome) : Async (list Outcome) :=
  let! first :=
    tryCatch
      (let! batchResults := await (processBatchMethod batch) in
       ret (inr batchResults))
      (fun error => ret (inl error)) in
  match first with
  | inl error => ret (results ++ List.map (batchError error) batch)
  | inr batchResults =>
      let results' := results ++ batchResults in
      tryCatch
        (let! _ := (if saveIntermediate && (batchNumber mod 5 =? 0)%nat
                    then await (saveResults batchNumber) else ret tt) in
         ret results')
        (fun error => ret (results' ++ List.map (batchError error) batch))
  end.

Fixpoint processBulkFrom (fuel : nat) (emails : list jsstring) (i : nat)
  (results : list Outcome) : Async (list Outcome) :=
  if (i <? length emails)%nat then
    match fuel with
    | O => hang
    | S fuel' =>
        let batch := slice emails i (i + Pos.to_nat batchSize) in
        let batchNumber := (i / Pos.to_nat batchSize + 1)%nat in
        let! results' := tryBatch batch batchNumber results in
        let! _ := (if (i + Pos.to_nat batchSize <? length emails)%nat
                   then await (sleep delay) else ret tt) in
        processBulkFrom fuel' emails (i + Pos.to_nat batchSize) results'
    end
  else ret results.

Definition processBulkEmailsWith (emails : list jsstring)
  : Async (list Outcome) :=
  processBulkFrom (length emails) emails 0 [].
End Batches.

(** [processBulkEmails(emails, options)] *)
Definition processBulkEmails (emails : list jsstring)
  (saveIntermediate : bool) : Async (list Outcome) :=
  processBulkEmailsWith processBatch saveIntermediate emails.
End Processor.

(** ** Definitions used in the statements *)

Section Statements.
Context {RT : Runtime} {CF : Config}.

(** What a session makes of the events of its socket, and the world after
    the events that it took. *)
Fixpoint sessionRun (email : jsstring) (evs : list SocketEvent)
  (ss : Session) (w : World) : World * option (Completion Outcome) :=
  match evs with
  | [] => (w, None)
  | ev :: rest =>
      let ss' := handleEvent fromEmail email ev ss in
      match promiseState ss' with
      | Some c => (delivered w, Some c)
      | None => sessionRun email rest ss' (delivered w)
      end
  end.

(** One probe session against one host, run alone. *)
Definition probe (email host : jsstring) (s : State)
  : State * option (Completion Outcome) :=
  run (verifyWithMxRecord email host) s.

(** A probe that does not supply the final outcome: it is rejected, or it
    yields [connection_failed]. *)
Definition inconclusive (r : option (Completion Outcome)) : Prop :=
  (exists e, r = Some (Throw e)) \/
  (exists o, r = Some (Return o) /\ status o = st_connection_failed).

Definition conclusive (r : option (Completion Outcome)) (o : Outcome)
  : Prop :=
  r = Some (Return o) /\ status o <> st_connection_failed.

(** Failover in the words of the specification: a probe session against
    each host in order; the first host that yields a status other than
    [connection_failed] supplies the outcome; if every host yields
    [connection_failed] or throws, the outcome is [connection_failed]. *)
Fixpoint failoverSpec (email : jsstring) (hosts : list MxRecord) (s : State)
  : State * option (Completion Outcome) :=
  match hosts with
  | [] => (s, Some (Return (connectionFailed email)))
  | mx :: rest =>
      match probe email (exchange mx) s with
      | (s1, Some (Return o)) =>
          if decide (status o = st_connection_failed)
          then failoverSpec email rest s1
          else (s1, Some (Return o))
      | (s1, Some (Throw _)) => failoverSpec email rest s1
      | (s1, None) => (s1, None)
      end
  end.

(** The connections that probing the given exchanges in order logs. *)
Definition connections (hosts : list MxRecord) : list Effect :=
  List.map (fun mx => TcpConnect (exchange mx)) hosts.

(** A host whose probe is never conclusive, whatever the state. *)
Definition alwaysInconclusive (email : jsstring) (mx : MxRecord) : Prop :=
  forall s, inconclusive (snd (probe email (exchange mx) s)).

(** The timestamps of a domain that [checkRateLimit] keeps at the time of
    the state. *)
Definition validRequests (domain : option jsstring) (s : State) : list Z :=
  List.filter (fun t => now (world s) - t <? rateLimitWindow)
    (default [] (rateLimiter s !! domain)).

(** Successive calls of [checkRateLimit] for one domain, the world being
    [w] at the call numbered by [w] in [ws]. *)
Fixpoint acquisitions (domain : option jsstring) (ws : list World)
  (s : State) : list bool * State :=
  match ws with
  | [] => ([], s)
  | w :: ws' =>
      let (ok, s1) := checkRateLimit domain (setWorld w s) in
      let (oks, s2) := acquisitions domain ws' s1 in
      (ok :: oks, s2)
  end.

(** Calls that all fall within one window: each one is less than
    [rateLimitWindow] after each earlier one. *)
Definition withinOneWindow (ws : list World) : Prop :=
  ForallOrdPairs (fun w1 w2 => now w2 - now w1 < rateLimitWindow) ws.

(** The delays of the timers among some effects, in order. *)
Definition sleepsOf (fx : list Effect) : list Z :=
  omap (fun e => match e with Sleep ms => Some ms | _ => None end) fx.

(** The lookups and connections among some effects. *)
Definition networkOf (fx : list Effect) : list Effect :=
  List.filter (fun e => match e with
                        | DnsQuery _ | TcpConnect _ => true
                        | _ => false
                        end) fx.

(** The world after the [k] backoff timers that follow the attempts
    numbered [attempt], [attempt + 1], ... *)
Fixpoint afterBackoffs (attempt : Z) (k : nat) (w : World) : World :=
  match k with
  | O => w
  | S k' => afterBackoffs (attempt + 1) k' (timer (5000 * attempt) w)
  end.

(** The timers of these [k] backoffs. *)
Fixpoint backoffs (attempt : Z) (k : nat) : list Effect :=
  match k with
  | O => []
  | S k' => Sleep (5000 * attempt) :: backoffs (attempt + 1) k'
  end.

(** The state in which the attempt after the attempt numbered [attempt]
    starts: the backoff timer of [5000 * attempt] ms has run. *)
Definition afterBackoff (attempt : Z) (s : State) : State :=
  setWorld (timer (5000 * attempt) (world s))
    (record (Sleep (5000 * attempt)) s).

(** [retried email attempt s k sa]: from the state [s], each of the [k]
    attempts numbered [attempt], [attempt + 1], ... of [verifyWithRetry]
    returned a temporary failure while a retry was left, and was followed by
    its backoff; the next attempt starts in the state [sa]. *)
Inductive retried (email : jsstring) : Z -> State -> nat -> State -> Prop :=
| retried_none attempt s : retried email attempt s 0 s
| retried_again attempt s s1 o k sa :
    run (verifyEmailAdvanced email) s = (s1, Some (Return o)) ->
    status o = st_temporary_failure ->
    attempt <= retryAttempts ->
    retried email (attempt + 1) (afterBackoff attempt s1) k sa ->
    retried email attempt s (S k) sa.

(** Ascending priorities. *)
Definition ascending (records : list MxRecord) : Prop :=
  StronglySorted (fun a b => priority a <= priority b) records.

Definition invalidFormat (email : jsstring) : Outcome :=
  {| email := email; isValid := false; status := st_invalid_format;
     message := lit "Invalid email format";
     smtpResponse := None; fromCache := None |}.

Definition noMxRecord (email : jsstring) : Outcome :=
  {| email := email; isValid := false; status := st_no_mx_record;
     message := lit "No MX record found for domain";
     smtpResponse := None; fromCache := None |}.
End Statements.

(** ** Properties of promises under every schedule

    [always live I Q t]: however the event loop interleaves [t] with other
    code that keeps the invariant [I] of the state, every piece of [t] keeps
    [I], and [t] can only be settled with a completion that satisfies [Q];
    if [live] holds, [t] moreover cannot end up never settled. *)

Section Always.
Context {RT : Runtime}.

Fixpoint always {A} (live : bool) (I : State -> Prop)
  (Q : Completion A -> Prop) (t : Task A) : Prop :=
  match t with
  | Settled c => Q c
  | Never => live = false
  | Suspended f =>
      forall s, I s -> I (fst (f s)) /\ always live I Q (snd (f s))
  end.

Definition asyncAlways {A} (live : bool) (I : State -> Prop)
  (Q : Completion A -> Prop) (m : Async A) : Prop :=
  forall s, I s -> I (fst (m s)) /\ always live I Q (snd (m s)).

(** An invariant that only speaks of the two maps. *)
Definition stable (I : State -> Prop) : Prop :=
  forall s w l,
    I s -> I {| world := w; cache := cache s; rateLimiter := rateLimiter s;
                log := l |}.

(** Every cache entry holds an outcome for the address that is its key. *)
Definition cacheInv (s : State) : Prop :=
  forall key entry, cache s !! key = Some entry -> email (result entry) = key.

(** A completion for a given address. *)
Definition forAddress (addr : jsstring) (c : Completion Outcome) : Prop :=
  match c with
  | Return o => email o = addr
  | Throw _ => True
  end.

(** What a run that waited for a promise, alone, ends with. *)
Definition ended {A} (live : bool) (Q : Completion A -> Prop)
  (r : option (Completion A)) : Prop :=
  match r with
  | Some c => Q c
  | None => live = false
  end.

(** The results of a batch, position by position, or a failure. *)
Definition forBatch (batch : list jsstring) (c : Completion (list Outcome))
  : Prop :=
  match c with
  | Return results => List.map email results = batch
  | Throw _ => True
  end.

(** What [processBulkEmails] relies on in [this.processBatch]: under every
    schedule it keeps [I] and returns one outcome per address, in order, or
    throws (or, unless [live], hangs). *)
Definition batchMethodSpec (live : bool) (I : State -> Prop)
  (method : list jsstring -> Async (list Outcome)) : Prop :=
  forall batch, asyncAlways live I (forBatch batch) (method batch).
End Always.

(** Every outcome that a session resolved with is for its address. *)
Definition resolvedFor (addr : jsstring) (ss : Session) : Prop :=
  forall o, In (PromiseResolved o) (effects ss) -> email o = addr.

(** Every socket delivers, sooner or later, an event that settles its
    session (in practice the expiry of the timer at the latest). *)
Definition settling {RT : Runtime} {CF : Config} : Prop :=
  forall host w addr,
    promiseState (handleEvents fromEmail addr (fst (connect host w))
                    newSession) <> None.

(** ** A scripted world, for running the program on examples

    The world is a clock and the choices left to the event loop.  Lookups
    take 20 ms, the delivery of a socket event 50 ms, a timer its delay. *)

Section Scripted.
Variable dnsTable : jsstring -> Completion (list MxRecord).
Variable network : jsstring -> list SocketEvent.

Definition scriptedRuntime : Runtime :=
  {| World := Z * list bool;
     now := fun w => fst w;
     resolveMx := fun d w => (dnsTable d, (fst w + 20, snd w));
     connect := fun h w => (network h, w);
     delivered := fun w => (fst w + 50, snd w);
     timer := fun ms w => (fst w + ms, snd w);
     writeFile := fun w => (Return tt, w);
     choose := fun _ w => (List.hd true (snd w), (fst w, List.tl (snd w))) |}.
End Scripted.

Definition initialState {RT : Runtime} (w : World) : State :=
  {| world := w; cache := ∅; rateLimiter := ∅; log := [] |}.

(** A server that accepts the handshake and answers RCPT TO with [reply]. *)
Definition serverReplying (reply : string) : list SocketEvent :=
  [EvConnect;
   EvData (lit "220 mx ESMTP" ++ CRLF);
   EvData (lit "250 mx" ++ CRLF);
   EvData (lit "250 2.1.0 Ok" ++ CRLF);
   EvData (lit reply ++ CRLF);
   EvEnd; EvClose].

(** The domain [example.org] has two exchanges; the better one refuses
    connections.  [greylist.test] has one, which answers 450 to every
    RCPT TO.  [down.test] has one, which refuses connections.  Other
    domains have none. *)
Definition demoDns (d : jsstring) : Completion (list MxRecord) :=
  if decide (d = lit "example.org")
  then Return [ {| exchange := lit "mx2.example.org"; priority := 20 |};
                {| exchange := lit "mx1.example.org"; priority := 10 |} ]
  else if decide (d = lit "greylist.test")
  then Return [ {| exchange := lit "mx.greylist.test"; priority := 5 |} ]
  else if decide (d = lit "down.test")
  then Return [ {| exchange := lit "mx1.example.org"; priority := 1 |} ]
  else Throw (mkError (lit "queryMx ENOTFOUND")).

Definition demoNetwork (h : jsstring) : list SocketEvent :=
  if decide (h = lit "mx1.example.org")
  then [EvError (mkError (lit "connect ECONNREFUSED")); EvClose]
  else if decide (h = lit "mx2.example.org")
  then serverReplying "250 2.1.5 Ok"
  else if decide (h = lit "mx.greylist.test")
  then serverReplying "450 4.2.0 Greylisted"
  else [EvTimer].

Definition demoRuntime : Runtime := scriptedRuntime demoDns demoNetwork.

Definition demoConfig : Config :=
  {| fromEmail := lit "test@example.com";
     cacheExpiry := 3600000;
     maxRequestsPerDomain := 5;
     rateLimitWindow := 60000;
     batchSize := 2;
     concurrency := 2;
     delay := 2000;
     retryAttempts := 2 |}.

(** A processor whose cache forgets after three seconds, less than the
    first backoff, and whose limiter admits one request per domain and
    minute; one retry. *)
Definition hastyConfig : Config :=
  {| fromEmail := lit "test@example.com";
     cacheExpiry := 3000;
     maxRequestsPerDomain := 1;
     rateLimitWindow := 60000;
     batchSize := 2;
     concurrency := 2;
     delay := 2000;
     retryAttempts := 1 |}.

Definition demoEmails : list jsstring :=
  [lit "user@example.org"; lit "bad"; lit "user@greylist.test";
   lit "x@nowhere.test"; lit "user@example.org"].

(** A [processBatch] that fails on every batch that holds a given address. *)
Definition failingOn {RT : Runtime} {CF : Config} (bad : jsstring)
  (batch : list jsstring) : Async (list Outcome) :=
  if bool_decide (bad ∈ batch)
  then throw (mkError (lit "out of memory"))
  else processBatch batch.

(** A state of the demonstration whose cache holds, for one address, a
    temporary failure stored at time 1000. *)
Definition greylisted : Outcome :=
  {| email := lit "user@greylist.test"; isValid := false;
     status := st_temporary_failure;
     message := lit "Temporary failure: 450 4.2.0 Greylisted";
     smtpResponse := Some (lit "450 4.2.0 Greylisted"); fromCache := None |}.

Definition cachedState (clock : Z) : State (RT:=demoRuntime) :=
  setCache (<[lit "user@greylist.test" :=
                {| result := greylisted; timestamp := 1000 |}]> ∅)
    (initialState (RT:=demoRuntime) (clock, [])).

From Stdlib Require DecimalString.

(** ** Further definitions used in the statements *)

(** The reply code that [handleSmtpResponse] and [getNextStep] read off a
    line: [Number.parseInt(line.substring(0, 3))]. *)
Definition replyCode (line : jsstring) : option Z :=
  parseInt (substring0 3 line).

(** The five commands of the conversation, as [handleSmtpResponse] builds
    them. *)
Definition ehloCommand : jsstring := lit "EHLO " ++ getLocalHostname.
Definition heloCommand : jsstring := lit "HELO " ++ getLocalHostname.
Definition mailFromCommand (fromEmail : jsstring) : jsstring :=
  lit "MAIL FROM:<" ++ fromEmail ++ lit ">".
Definition rcptToCommand (addr : jsstring) : jsstring :=
  lit "RCPT TO:<" ++ addr ++ lit ">".
Definition quitCommand : jsstring := lit "QUIT".

(** What was given to [socket.write], in order. *)
Definition written (fx : list SessionEffect) : list jsstring :=
  omap (fun e => match e with Written data => Some data | _ => None end) fx.

(** The whole conversation, fallback to HELO included. *)
Definition protocol (fromEmail addr : jsstring) : list jsstring :=
  List.map (fun command => command ++ CRLF)
    [ehloCommand; heloCommand; mailFromCommand fromEmail;
     rcptToCommand addr; quitCommand].

(** A line as the [data] handler passes it on: no line terminator inside,
    and not blank. *)
Definition replyLine (line : jsstring) : Prop :=
  splitCRLF line = [line] /\ trim line <> [].

(** The statuses that a probe session resolves with. *)
Definition sessionStatus (st : Status) : bool :=
  match st with
  | st_connection_rejected | st_handshake_failed | st_mail_from_rejected
  | st_valid | st_invalid | st_temporary_failure | st_unknown_response => true
  | _ => false
  end.

(** Every outcome that a session resolved with satisfies [P]. *)
Definition resolvedWith (P : Outcome -> Prop) (ss : Session) : Prop :=
  forall o, In (PromiseResolved o) (effects ss) -> P o.

(** The outcomes of a probe session for [addr]. *)
Definition sessionOutcome (addr : jsstring) (o : Outcome) : Prop :=
  email o = addr /\ sessionStatus (status o) = true /\
  (isValid o = true <-> status o = st_valid) /\
  (exists line, smtpResponse o = Some line /\ trim line <> []) /\
  fromCache o = None.

(** The commands that have been written when the session waits in a step
    (in the last step: when everything was said). *)
Definition transcript (fromEmail addr : jsstring) (st : Step)
  (ws : list jsstring) : Prop :=
  let ehlo := ehloCommand ++ CRLF in
  let helo := heloCommand ++ CRLF in
  let mail := mailFromCommand fromEmail ++ CRLF in
  let rcpt := rcptToCommand addr ++ CRLF in
  let quit := quitCommand ++ CRLF in
  match st with
  | step_connect => ws = []
  | step_ehlo => ws = [ehlo]
  | step_helo => ws = [ehlo; helo]
  | step_mail_from => ws = [ehlo; mail] \/ ws = [ehlo; helo; mail]
  | step_rcpt_to => ws = [ehlo; mail; rcpt] \/ ws = [ehlo; helo; mail; rcpt]
  | step_quit =>
      ws = [ehlo; mail; rcpt; quit] \/ ws = [ehlo; helo; mail; rcpt; quit]
  end.

(** How far the conversation had got when an outcome was built. *)
Definition reached (o : Outcome) : Step :=
  match status o with
  | st_connection_rejected => step_connect
  | st_handshake_failed => step_helo
  | st_mail_from_rejected => step_mail_from
  | _ => step_quit
  end.

(** The number of the step in the conversation. *)
Definition rank (st : Step) : nat :=
  match st with
  | step_connect => 0
  | step_ehlo => 1
  | step_helo => 2
  | step_mail_from => 3
  | step_rcpt_to => 4
  | step_quit => 5
  end.

(** What a completion says about the conversation before it: the commands
    written before an outcome are those of the step that it reached, and a
    valid outcome carries a line with code 250. *)
Definition accounted (fromEmail addr : jsstring) (c : Completion Outcome)
  (pre : list jsstring) : Prop :=
  match c with
  | Return o =>
      transcript fromEmail addr (reached o) pre /\
      (status o = st_valid ->
       exists line, smtpResponse o = Some line /\ replyCode line = Some 250)
  | Throw _ => True
  end.

(** A session whose conversation is on track: pending, with exactly the
    commands of its step written; or settled after its socket was destroyed,
    with a settlement that accounts for what was written before it; or
    rejected on a socket that the runtime had destroyed. *)
Definition tracked (fromEmail addr : jsstring) (ss : Session) : Prop :=
  (isResolved ss = false /\ socketDestroyed ss = false /\
   step ss <> step_quit /\
   exists ws, effects ss = List.map Written ws /\
              transcript fromEmail addr (step ss) ws)
  \/
  (isResolved ss = true /\
   exists c pre post,
     effects ss = List.map Written pre ++ [Destroyed; settlementEffect c] ++ post /\
     Forall isWritten post /\ accounted fromEmail addr c pre)
  \/
  (isResolved ss = true /\
   exists e pre post,
     effects ss = List.map Written pre ++ [PromiseRejected e] ++ post /\
     Forall isWritten post).

(** The commands written so far are among those before the step, in their
    order. *)
Definition onProtocol (fromEmail addr : jsstring) (ss : Session) : Prop :=
  sublist (written (effects ss))
    (take (rank (step ss)) (protocol fromEmail addr)).

(** ** More of [AdvancedEmailVerifier] *)

Section MoreAdvanced.
Context {RT : Runtime} {CF : Config}.

(** [clearCache()] *)
Definition clearCache (s : State) : unit * State :=
  (tt, setRateLimiter ∅ (setCache ∅ s)).

(** Successive calls of [checkRateLimit], for any domains at any times:
    the answers, and the state after the last one. *)
Fixpoint rateChecks (calls : list (option jsstring * World)) (s : State)
  : list bool * State :=
  match calls with
  | [] => ([], s)
  | (domain, w) :: calls' =>
      let (ok, s1) := checkRateLimit domain (setWorld w s) in
      let (oks, s2) := rateChecks calls' s1 in
      (ok :: oks, s2)
  end.

(** No window of the limiter holds more than [maxRequestsPerDomain]
    timestamps. *)
Definition limiterInv (s : State) : Prop :=
  forall domain requests,
    rateLimiter s !! domain = Some requests ->
    Z.of_nat (length requests) <= maxRequestsPerDomain.
End MoreAdvanced.

(** ** Outcomes, layer by layer *)

(** [isValid] says what the status says. *)
Definition consistent (o : Outcome) : Prop :=
  isValid o = true <-> status o = st_valid.

(** The statuses that [verifyEmail] returns: those of a session and its
    own three. *)
Definition verifierStatus (st : Status) : bool :=
  sessionStatus st ||
  match st with
  | st_invalid_format | st_no_mx_record | st_connection_failed => true
  | _ => false
  end.

(** The outcomes of [verifyEmail] for [addr]. *)
Definition verifierOutcome (addr : jsstring) (o : Outcome) : Prop :=
  email o = addr /\ verifierStatus (status o) = true /\ consistent o /\
  fromCache o = None.

(** The outcomes of [verifyEmailAdvanced] for [addr]: those of
    [verifyEmail], possibly marked as read from the cache, and
    rate_limited. *)
Definition advancedOutcome (addr : jsstring) (o : Outcome) : Prop :=
  email o = addr /\
  (verifierStatus (status o) = true /\
   (fromCache o = None \/ fromCache o = Some true)
   \/ status o = st_rate_limited /\ fromCache o = None) /\
  consistent o.

(** A completion that is a value with a given property, not an error. *)
Definition returns {A} (P : A -> Prop) (c : Completion A) : Prop :=
  match c with
  | Return a => P a
  | Throw _ => False
  end.

(** A completion that, when it is a value, has a given property. *)
Definition resolves {A} (P : A -> Prop) (c : Completion A) : Prop :=
  match c with
  | Return a => P a
  | Throw _ => True
  end.

(** Every entry of the cache holds an outcome of [verifyEmail] for its
    key, and no window of the limiter is over-full. *)
Definition storeInv {RT : Runtime} {CF : Config} (s : State) : Prop :=
  (forall key entry,
     cache s !! key = Some entry -> verifierOutcome key (result entry)) /\
  limiterInv s.

(** ** [EmailVerifier.verifyMultiple] *)

(** The options of [verifyMultiple]; [None] is [undefined], and
    [concurrency], when given, is a non-negative integer. *)
Record MultipleOptions : Type := mkMultipleOptions {
  optConcurrency : option N;
  optDelay : option Z
}.

(** [option || fallback] for numbers: [undefined] and [0] give the
    fallback. *)
Definition orDefault (option : option Z) (fallback : Z) : Z :=
  match option with
  | None | Some 0 => fallback
  | Some v => v
  end.

Definition orDefaultPositive (option : option N) (fallback : positive)
  : positive :=
  match option with
  | None | Some N0 => fallback
  | Some (Npos p) => p
  end.

Section Multiple.
Context {RT : Runtime} {CF : Config}.
Local Open Scope async_scope.

(** The loop over [batchResults] in [verifyMultiple]: what is pushed for
    a settled promise. *)
Definition pushedOrUnknown (settled : Completion Outcome) : Outcome :=
  match settled with
  | Return value => value
  | Throw reason =>
      {| email := lit "unknown"; isValid := false; status := st_error;
         message := errorMessage reason;
         smtpResponse := None; fromCache := None |}
  end.

(** The loop of [verifyMultiple] from index [i] on, with the results so
    far; [fuel] bounds the number of turns and is never used up. *)
Fixpoint verifyMultipleFrom (fuel : nat) (emails : list jsstring)
  (concurrency : positive) (delay : Z) (i : nat) (results : list Outcome)
  : Async (list Outcome) :=
  if (i <? length emails)%nat then
    match fuel with
    | O => hang
    | S fuel' =>
        let batch := slice emails i (i + Pos.to_nat concurrency) in
        let! batchResults :=
          await (allSettled (List.map verifyEmail batch)) in
        let results' := results ++ List.map pushedOrUnknown batchResults in
        let! _ := (if (i + Pos.to_nat concurrency <? length emails)%nat
                   then await (sleep delay) else ret tt) in
        verifyMultipleFrom fuel' emails concurrency delay
          (i + Pos.to_nat concurrency) results'
    end
  else ret results.

(** [verifyMultiple(emails, options)] *)
Definition verifyMultiple (emails : list jsstring) (options : MultipleOptions)
  : Async (list Outcome) :=
  let concurrency := orDefaultPositive (optConcurrency options) 5 in
  let delay := orDefault (optDelay options) 1000 in
  verifyMultipleFrom (length emails) emails concurrency delay 0 [].
End Multiple.

(** ** Reports ([generateReport], [generateRecommendations]) *)

(** [["error", "rate_limited"].includes(status)] *)
Definition isErrorStatus (st : Status) : bool :=
  match st with
  | st_error | st_rate_limited => true
  | _ => false
  end.

(** [r.status === st] *)
Definition hasStatus (st : Status) (r : Outcome) : bool :=
  bool_decide (status r = st).

(** [results.filter(p).length] *)
Definition countIf (p : Outcome -> bool) (results : list Outcome) : nat :=
  length (List.filter p results).

(** [statusCounts[st] = (statusCounts[st] || 0) + 1], on an object whose
    properties are kept in the order of their creation. *)
Fixpoint bump (st : Status) (counts : list (Status * nat))
  : list (Status * nat) :=
  match counts with
  | [] => [(st, 1%nat)]
  | (key, n) :: rest =>
      if decide (key = st) then (key, S n) :: rest
      else (key, n) :: bump st rest
  end.

(** [statusCounts[st] || 0] *)
Definition statusCount (st : Status) (counts : list (Status * nat)) : nat :=
  match List.find (fun entry => bool_decide (fst entry = st)) counts with
  | Some entry => snd entry
  | None => 0%nat
  end.

(** A number in a template literal. *)
Definition decimal (n : nat) : jsstring :=
  lit (DecimalString.NilEmpty.string_of_uint (Nat.to_uint n)).

(** [generateRecommendations(results)].  The two rates of the source are
    quotients of two array lengths, compared with [0.1] and [0.05]; the
    length of an array is below 2^32, where the rounded quotient exceeds
    the rounded constant exactly when the exact quotient exceeds the exact
    one, and the quotient of an empty array, [NaN], exceeds nothing. *)
Definition generateRecommendations (results : list Outcome) : list jsstring :=
  let errors := countIf (hasStatus st_error) results in
  let temporary := countIf (hasStatus st_temporary_failure) results in
  let rateLimitedCount := countIf (hasStatus st_rate_limited) results in
  let invalidFormatCount := countIf (hasStatus st_invalid_format) results in
  (if (length results <? 10 * errors)%nat
   then [lit "High error rate detected. Consider checking network connectivity and firewall settings."]
   else []) ++
  (if (length results <? 20 * temporary)%nat
   then [lit "High temporary failure rate. Consider retrying these emails later."]
   else []) ++
  (if (0 <? rateLimitedCount)%nat
   then [decimal rateLimitedCount ++
         lit " emails were rate limited. Consider reducing concurrency or increasing delays."]
   else []) ++
  (if (0 <? invalidFormatCount)%nat
   then [decimal invalidFormatCount ++
         lit " emails have invalid format. Consider data cleaning."]
   else []).

(** The counts of the summary.  Its two percentages, the [toFixed] of a
    floating-point quotient of these counts, are left out. *)
Record Summary : Type := mkSummary {
  total : nat;
  valid : nat;
  invalid : nat;
  errors : nat;
  temporary : nat
}.

Record Report : Type := mkReport {
  summary : Summary;
  statusBreakdown : list (Status * nat);
  recommendations : list jsstring
}.

(** [generateReport(results)] *)
Definition generateReport (results : list Outcome) : Report :=
  {| summary :=
       {| total := length results;
          valid := countIf isValid results;
          invalid := countIf (fun r => negb (isValid r)
                                       && negb (isErrorStatus (status r)))
                       results;
          errors := countIf (fun r => isErrorStatus (status r)) results;
          temporary := countIf (hasStatus st_temporary_failure) results |};
     statusBreakdown :=
       fold_left (fun counts r => bump (status r) counts) results [];
     recommendations := generateRecommendations results |}.

(** ** CSV ([exportToCsv], [verifyFromCsv], [loadEmailsFromFile]) *)

(** The status strings. *)
Definition statusString (st : Status) : jsstring :=
  match st with
  | st_invalid_format => lit "invalid_format"
  | st_no_mx_record => lit "no_mx_record"
  | st_connection_failed => lit "connection_failed"
  | st_connection_rejected => lit "connection_rejected"
  | st_handshake_failed => lit "handshake_failed"
  | st_mail_from_rejected => lit "mail_from_rejected"
  | st_valid => lit "valid"
  | st_invalid => lit "invalid"
  | st_temporary_failure => lit "temporary_failure"
  | st_unknown_response => lit "unknown_response"
  | st_rate_limited => lit "rate_limited"
  | st_error => lit "error"
  | st_batch_error => lit "batch_error"
  end.

(** [pieces.join(sep)] *)
Fixpoint join (sep : jsstring) (pieces : list jsstring) : jsstring :=
  match pieces with
  | [] => []
  | piece :: rest =>
      match rest with
      | [] => piece
      | _ :: _ => piece ++ sep ++ join sep rest
      end
  end.

(** The double quote, the comma and the line feed. *)
Definition quote : N := 34%N.
Definition comma : N := 44%N.
Definition lineFeed : N := 10%N.

(** A row of [exportToCsv]; the last field is empty when the outcome has
    no [smtpResponse]. *)
Definition csvRow (r : Outcome) : jsstring :=
  join [comma]
    [ [quote] ++ email r ++ [quote];
      (if isValid r then lit "true" else lit "false");
      [quote] ++ statusString (status r) ++ [quote];
      [quote] ++ message r ++ [quote];
      [quote] ++ default [] (smtpResponse r) ++ [quote] ].

(** The text that [exportToCsv(results, outputPath)] writes. *)
Definition csvContent (results : list Outcome) : jsstring :=
  join [lineFeed]
    (join [comma] [lit "Email"; lit "IsValid"; lit "Status"; lit "Message";
                   lit "SMTPResponse"]
     :: List.map csvRow results).

(** [line.trim()] as a condition: the line is not blank. *)
Definition nonBlank (line : jsstring) : bool :=
  match trim line with
  | [] => false
  | _ :: _ => true
  end.

(** [s.replace(...)] with the pattern of all double quotes and the empty
    replacement. *)
Definition removeQuotes (s : jsstring) : jsstring :=
  List.filter (fun c => negb (c =? quote)%N) s.

(** The addresses that [verifyFromCsv] takes from the text of the file:
    the column numbered [emailColumn] of every non-blank line (but the
    first, with [hasHeader]), trimmed and without quotes; a line without
    such a column and an empty address are skipped. *)
Definition csvEmails (content : jsstring) (hasHeader : bool)
  (emailColumn : nat) : list jsstring :=
  let lines := List.filter nonBlank (splitOn lineFeed content) in
  let startIndex := if hasHeader then 1%nat else 0%nat in
  omap (fun line =>
          match nth_error (splitOn comma line) emailColumn with
          | Some column =>
              match removeQuotes (trim column) with
              | [] => None
              | address => Some address
              end
          | None => None
          end)
       (skipn startIndex lines).

(** [loadEmailsFromFile], the case [csv]: the first column of every
    non-blank line but the first, trimmed and without quotes, when it is a
    well-formed address. *)
Definition loadEmailsFromCsv (content : jsstring) : list jsstring :=
  let lines := List.filter nonBlank (splitOn lineFeed content) in
  omap (fun line =>
          let address := removeQuotes (trim (List.hd [] (splitOn comma line))) in
          if isValidEmailFormat address then Some address else None)
       (skipn 1 lines).

(** An outcome that survives a CSV file: its address is well formed and
    has neither comma nor quote, and its message and its response are
    single lines. *)
Definition csvSafe (r : Outcome) : Prop :=
  isValidEmailFormat (email r) = true /\
  forallb (fun c => negb (c =? comma)%N) (email r) = true /\
  forallb (fun c => negb (c =? quote)%N) (email r) = true /\
  forallb (fun c => negb (c =? lineFeed)%N) (message r) = true /\
  forallb (fun c => negb (c =? lineFeed)%N) (default [] (smtpResponse r)) = true.

(** The options of [verifyFromCsv]; [None] is [undefined]. *)
Record CsvOptions : Type := mkCsvOptions {
  hasHeader : bool;
  emailColumn : nat;
  csvConcurrency : option N;
  csvDelay : option Z
}.

Section FromCsv.
Context {RT : Runtime} {CF : Config}.
Local Open Scope async_scope.
(** [fs.readFile(filePath, "utf-8")]: the text of the file or a failure,
    and what the world has become. *)
Variable readFile : jsstring -> World -> Completion jsstring * World.

Definition readFileCall (filePath : jsstring) : Async jsstring :=
  fun s =>
    (s, Suspended (fun s' =>
          let (c, w) := readFile filePath (world s') in
          (setWorld w s', Settled c))).

(** [verifyFromCsv(filePath, options)] *)
Definition verifyFromCsv (filePath : jsstring) (options : CsvOptions)
  : Async (list Outcome) :=
  tryCatch
    (let! content := await (readFileCall filePath) in
     let emails :=
       csvEmails content (hasHeader options) (emailColumn options) in
     let! results :=
       await (verifyMultiple emails
                {| optConcurrency :=
                     Some (Npos (orDefaultPositive (csvConcurrency options) 3));
                   optDelay := Some (orDefault (csvDelay options) 2000) |}) in
     ret results)
    (fun error =>
       throw (mkError (lit "Failed to process CSV file: "
                       ++ errorMessage error))).
End FromCsv.

(** ** The constructors *)

(** The options that the constructors read; [None] is [undefined].
    Numbers are integers, [batchSize] and [concurrency] non-negative. *)
Record Options : Type := mkOptions {
  optFromEmail : option jsstring;
  optCacheExpiry : option Z;
  optMaxRequestsPerDomain : option Z;
  optRateLimitWindow : option Z;
  optBatchSize : option N;
  optProcessorConcurrency : option N;
  optProcessorDelay : option Z;
  optRetryAttempts : option Z
}.

(** [option || fallback] for a string: [undefined] and the empty string
    give the fallback. *)
Definition orDefaultString (option : option jsstring) (fallback : jsstring)
  : jsstring :=
  match option with
  | None | Some [] => fallback
  | Some s => s
  end.

(** What [new AdvancedEmailVerifier(options)] keeps of its options (the
    fields of [EmailVerifier] included). *)
Record VerifierFields : Type := mkVerifierFields {
  verifierFromEmail : jsstring;
  verifierCacheExpiry : Z;
  verifierMaxRequestsPerDomain : Z;
  verifierRateLimitWindow : Z
}.

(** [new AdvancedEmailVerifier(options)] *)
Definition newAdvancedEmailVerifier (fromEmailOption : option jsstring)
  (cacheExpiryOption maxRequestsOption windowOption : option Z)
  : VerifierFields :=
  {| verifierFromEmail :=
       orDefaultString fromEmailOption (lit "test@example.com");
     verifierCacheExpiry := orDefault cacheExpiryOption 3600000;
     verifierMaxRequestsPerDomain := orDefault maxRequestsOption 10;
     verifierRateLimitWindow := orDefault windowOption 60000 |}.

(** [new BulkEmailProcessor(options)]: the verifier is made from five
    options, [fromEmail] not being one of them. *)
Definition newBulkEmailProcessor (options : Options) : Config :=
  let verifier :=
    newAdvancedEmailVerifier None
      (Some (orDefault (optCacheExpiry options) 3600000))
      (Some (orDefault (optMaxRequestsPerDomain options) 5))
      (Some (orDefault (optRateLimitWindow options) 60000)) in
  {| fromEmail := verifierFromEmail verifier;
     cacheExpiry := verifierCacheExpiry verifier;
     maxRequestsPerDomain := verifierMaxRequestsPerDomain verifier;
     rateLimitWindow := verifierRateLimitWindow verifier;
     batchSize := orDefaultPositive (optBatchSize options) 100;
     concurrency := orDefaultPositive (optProcessorConcurrency options) 3;
     delay := orDefault (optProcessorDelay options) 2000;
     retryAttempts := orDefault (optRetryAttempts options) 2 |}.

(** The records of one priority, in their order. *)
Definition withPriority (p : Z) (records : list MxRecord) : list MxRecord :=
  List.filter (fun mx => priority mx =? p) records.

(** ** The start of a group *)

(** An address that [getFromCache] does not answer in a state. *)
Definition missed {RT : Runtime} {CF : Config} (s : State) (addr : jsstring)
  : bool :=
  match fst (getFromCache addr s) with
  | Some _ => false
  | None => true
  end.

(** * Properties *)

(** ** The probe session *)

Section SessionFacts.
Variable fromEmail : jsstring.

Lemma settlementCalls_app fx1 fx2 :
  settlementCalls (fx1 ++ fx2) = settlementCalls fx1 ++ settlementCalls fx2.
Proof. unfold settlementCalls. apply omap_app. Qed.

Lemma settlementCalls_written fx :
  Forall isWritten fx -> settlementCalls fx = [].
Proof.
  induction 1 as [|e fx He _ IH]; [reflexivity|].
  destruct e; simpl in He; try contradiction. exact IH.
Qed.

Lemma settlementCalls_effect c :
  settlementCalls [Destroyed; settlementEffect c] = [c].
Proof. destruct c; reflexivity. Qed.

Lemma pending_promise ss : pendingSession ss -> promiseState ss = None.
Proof.
  intros (_ & _ & Hw). unfold promiseState.
  now rewrite settlementCalls_written.
Qed.

Lemma settled_calls c ss :
  settledSession c ss -> settlementCalls (effects ss) = [c].
Proof.
  intros (_ & _ & pre & post & -> & Hpre & Hpost).
  rewrite !settlementCalls_app, settlementCalls_effect.
  now rewrite (settlementCalls_written pre), (settlementCalls_written post).
Qed.

Lemma settled_promise c ss : settledSession c ss -> promiseState ss = Some c.
Proof. intros H. unfold promiseState. now rewrite (settled_calls c). Qed.

(** Once settled, [resolveOnce] and [rejectOnce] change nothing. *)
Lemma resolveOnce_settled c o ss :
  settledSession c ss -> resolveOnce o ss = ss.
Proof. intros (Hr & _). unfold resolveOnce. now rewrite Hr. Qed.

Lemma rejectOnce_settled c e ss :
  settledSession c ss -> rejectOnce e ss = ss.
Proof. intros (Hr & _). unfold rejectOnce. now rewrite Hr. Qed.

(** On a pending session they settle it, destroying the socket first. *)
Lemma resolveOnce_pending o ss :
  pendingSession ss ->
  settledSession (Return o) (resolveOnce o ss) /\
  effects (resolveOnce o ss) = effects ss ++ [Destroyed; PromiseResolved o].
Proof.
  intros (Hr & Hd & Hw). unfold resolveOnce, cleanup. rewrite Hr. simpl.
  rewrite Hd. simpl. rewrite <- app_assoc. simpl.
  split; [|reflexivity].
  split; [reflexivity|]. split; [reflexivity|].
  exists (effects ss), []. simpl. rewrite <- app_assoc. simpl. auto.
Qed.

Lemma rejectOnce_pending e ss :
  pendingSession ss ->
  settledSession (Throw e) (rejectOnce e ss) /\
  effects (rejectOnce e ss) = effects ss ++ [Destroyed; PromiseRejected e].
Proof.
  intros (Hr & Hd & Hw). unfold rejectOnce, cleanup. rewrite Hr. simpl.
  rewrite Hd. simpl. rewrite <- app_assoc. simpl.
  split; [|reflexivity].
  split; [reflexivity|]. split; [reflexivity|].
  exists (effects ss), []. simpl. rewrite <- app_assoc. simpl. auto.
Qed.

Lemma sendCommand_pending cmd ss :
  pendingSession ss -> pendingSession (sendCommand cmd ss).
Proof.
  intros (Hr & Hd & Hw). repeat split; auto. simpl.
  apply Forall_app. split; [exact Hw|]. constructor; simpl; auto.
Qed.

Lemma sendCommand_settled c cmd ss :
  settledSession c ss -> settledSession c (sendCommand cmd ss).
Proof.
  intros (Hr & Hd & pre & post & He & Hpre & Hpost). repeat split; auto.
  exists pre, (post ++ [Written (cmd ++ CRLF)]). simpl. rewrite He.
  repeat split; auto.
  - now rewrite <- !app_assoc.
  - apply Forall_app. split; [exact Hpost|]. constructor; simpl; auto.
Qed.

Lemma setStep_pending st ss : pendingSession ss -> pendingSession (setStep st ss).
Proof. intros H. exact H. Qed.

Lemma setStep_settled c st ss :
  settledSession c ss -> settledSession c (setStep st ss).
Proof. intros H. exact H. Qed.

Lemma setResponse_pending r ss :
  pendingSession ss -> pendingSession (setResponse r ss).
Proof. intros H. exact H. Qed.

Lemma setResponse_settled c r ss :
  settledSession c ss -> settledSession c (setResponse r ss).
Proof. intros H. exact H. Qed.

Lemma perform_settled c a ss :
  settledSession c ss -> settledSession c (perform a ss).
Proof.
  intros Hs. destruct a as [cmd | o]; simpl.
  - now apply sendCommand_settled.
  - now rewrite (resolveOnce_settled c).
Qed.

(** The same for a session that was rejected on a socket that the runtime
    had destroyed. *)
Lemma settlementCalls_rejection e :
  settlementCalls [PromiseRejected e] = [Throw e].
Proof. reflexivity. Qed.

Lemma rejected_calls e ss :
  rejectedSession e ss -> settlementCalls (effects ss) = [Throw e].
Proof.
  intros (_ & _ & pre & post & -> & Hpre & Hpost).
  rewrite !settlementCalls_app, settlementCalls_rejection.
  now rewrite (settlementCalls_written pre), (settlementCalls_written post).
Qed.

Lemma rejected_promise e ss :
  rejectedSession e ss -> promiseState ss = Some (Throw e).
Proof. intros H. unfold promiseState. now rewrite (rejected_calls e). Qed.

Lemma resolveOnce_rejected e o ss :
  rejectedSession e ss -> resolveOnce o ss = ss.
Proof. intros (Hr & _). unfold resolveOnce. now rewrite Hr. Qed.

Lemma rejectOnce_rejected e e' ss :
  rejectedSession e ss -> rejectOnce e' ss = ss.
Proof. intros (Hr & _). unfold rejectOnce. now rewrite Hr. Qed.

Lemma sendCommand_rejected e cmd ss :
  rejectedSession e ss -> rejectedSession e (sendCommand cmd ss).
Proof.
  intros (Hr & Hd & pre & post & He & Hpre & Hpost). repeat split; auto.
  exists pre, (post ++ [Written (cmd ++ CRLF)]). simpl. rewrite He.
  repeat split; auto.
  - now rewrite <- !app_assoc.
  - apply Forall_app. split; [exact Hpost|]. constructor; simpl; auto.
Qed.

Lemma perform_rejected e a ss :
  rejectedSession e ss -> rejectedSession e (perform a ss).
Proof.
  intros Hs. destruct a as [cmd | o]; simpl.
  - now apply sendCommand_rejected.
  - now rewrite (resolveOnce_rejected e).
Qed.

(** A socket that is destroyed already is left as it is. *)
Lemma perform_shaped a ss : shaped ss -> shaped (perform a ss).
Proof.
  intros [Hp | [[c Hs] | [e Hs]]].
  - destruct a as [cmd | o]; simpl.
    + left. now apply sendCommand_pending.
    + right. left. exists (Return o). now apply resolveOnce_pending.
  - right. left. exists c. now apply perform_settled.
  - right. right. exists e. now apply perform_rejected.
Qed.

Lemma destroyedByRuntime_destroyed ss :
  socketDestroyed ss = true -> destroyedByRuntime ss = ss.
Proof. destruct ss; simpl. now intros ->. Qed.

(** On a pending session whose socket the runtime has destroyed,
    [rejectOnce] rejects without a call of [socket.destroy()]. *)
Lemma rejectOnce_destroyed e ss :
  pendingSession ss ->
  rejectedSession e (rejectOnce e (destroyedByRuntime ss)) /\
  effects (rejectOnce e (destroyedByRuntime ss))
  = effects ss ++ [PromiseRejected e].
Proof.
  intros (Hr & Hd & Hw). unfold rejectOnce, cleanup. simpl. rewrite Hr. simpl.
  split; [|reflexivity].
  split; [reflexivity|]. split; [reflexivity|].
  exists (effects ss), []. auto.
Qed.
End SessionFacts.

Section SessionRuns.
Variable fromEmail : jsstring.
Variable email : jsstring.

Lemma actions_settled c acts ss :
  settledSession c ss ->
  settledSession c (fold_left (fun acc a => perform a acc) acts ss).
Proof.
  revert ss. induction acts as [|a acts IH]; intros ss Hs; simpl; [exact Hs|].
  apply IH. now apply perform_settled.
Qed.

Lemma actions_shaped acts ss :
  shaped ss -> shaped (fold_left (fun acc a => perform a acc) acts ss).
Proof.
  revert ss. induction acts as [|a acts IH]; intros ss Hs; simpl; [exact Hs|].
  apply IH. now apply perform_shaped.
Qed.

Lemma onLine_settled c ss line :
  settledSession c ss -> settledSession c (onLine fromEmail email ss line).
Proof.
  intros Hs. unfold onLine. destruct (trim line); [exact Hs|].
  apply setStep_settled. now apply actions_settled.
Qed.

Lemma actions_rejected e acts ss :
  rejectedSession e ss ->
  rejectedSession e (fold_left (fun acc a => perform a acc) acts ss).
Proof.
  revert ss. induction acts as [|a acts IH]; intros ss Hs; simpl; [exact Hs|].
  apply IH. now apply perform_rejected.
Qed.

Lemma onLine_rejected e ss line :
  rejectedSession e ss -> rejectedSession e (onLine fromEmail email ss line).
Proof.
  intros Hs. unfold onLine. destruct (trim line); [exact Hs|].
  exact (actions_rejected e _ ss Hs).
Qed.

Lemma onLine_shaped ss line :
  shaped ss -> shaped (onLine fromEmail email ss line).
Proof.
  intros Hs. unfold onLine. destruct (trim line); [exact Hs|].
  destruct (actions_shaped (handleSmtpResponse fromEmail line email (step ss))
              ss Hs) as [Hp | [[c Hc] | [e He]]].
  - left. exact Hp.
  - right. left. exists c. exact Hc.
  - right. right. exists e. exact He.
Qed.

Lemma lines_settled c lines ss :
  settledSession c ss ->
  settledSession c (fold_left (onLine fromEmail email) lines ss).
Proof.
  revert ss. induction lines as [|l lines IH]; intros ss Hs; simpl; [exact Hs|].
  apply IH. now apply onLine_settled.
Qed.

Lemma lines_rejected e lines ss :
  rejectedSession e ss ->
  rejectedSession e (fold_left (onLine fromEmail email) lines ss).
Proof.
  revert ss. induction lines as [|l lines IH]; intros ss Hs; simpl; [exact Hs|].
  apply IH. now apply onLine_rejected.
Qed.

Lemma lines_shaped lines ss :
  shaped ss -> shaped (fold_left (onLine fromEmail email) lines ss).
Proof.
  revert ss. induction lines as [|l lines IH]; intros ss Hs; simpl; [exact Hs|].
  apply IH. now apply onLine_shaped.
Qed.

(** Once the promise is settled and the socket destroyed, the handlers of
    ['error'] and ['close'] do nothing. *)
Lemma handleEvent_error_resolved e ss :
  isResolved ss = true -> socketDestroyed ss = true ->
  handleEvent fromEmail email (EvError e) ss = ss.
Proof.
  intros Hr Hd. simpl. rewrite (destroyedByRuntime_destroyed ss Hd).
  unfold rejectOnce. now rewrite Hr.
Qed.

Lemma handleEvent_close_resolved ss :
  isResolved ss = true -> socketDestroyed ss = true ->
  handleEvent fromEmail email EvClose ss = ss.
Proof.
  intros Hr Hd. cbv beta zeta iota delta [handleEvent].
  rewrite (destroyedByRuntime_destroyed ss Hd). now rewrite Hr.
Qed.

(** On a pending session they reject, and call nothing else. *)
Lemma handleEvent_close_pending ss :
  isResolved ss = false ->
  handleEvent fromEmail email EvClose ss
  = rejectOnce (mkError (lit "Connection closed unexpectedly"))
      (destroyedByRuntime ss).
Proof.
  intros Hr. cbv beta zeta iota delta [handleEvent].
  change (isResolved (destroyedByRuntime ss)) with (isResolved ss).
  now rewrite Hr.
Qed.

Lemma handleEvent_settled c ev ss :
  settledSession c ss -> settledSession c (handleEvent fromEmail email ev ss).
Proof.
  intros Hs. destruct ev.
  - exact Hs.
  - apply lines_settled. exact Hs.
  - rewrite handleEvent_error_resolved; [exact Hs | apply Hs | apply Hs].
  - simpl. now rewrite (rejectOnce_settled c).
  - simpl. destruct (timerCleared ss); [exact Hs|].
    now rewrite (rejectOnce_settled c).
  - rewrite handleEvent_close_resolved; [exact Hs | apply Hs | apply Hs].
  - exact Hs.
Qed.

Lemma handleEvent_rejected e ev ss :
  rejectedSession e ss -> rejectedSession e (handleEvent fromEmail email ev ss).
Proof.
  intros Hs. destruct ev.
  - exact Hs.
  - apply lines_rejected. exact Hs.
  - rewrite handleEvent_error_resolved; [exact Hs | apply Hs | apply Hs].
  - simpl. now rewrite (rejectOnce_rejected e).
  - simpl. destruct (timerCleared ss); [exact Hs|].
    now rewrite (rejectOnce_rejected e).
  - rewrite handleEvent_close_resolved; [exact Hs | apply Hs | apply Hs].
  - exact Hs.
Qed.

Lemma handleEvent_shaped ev ss :
  shaped ss -> shaped (handleEvent fromEmail email ev ss).
Proof.
  intros [Hp | [[c Hs] | [e Hs]]].
  2:{ right. left. exists c. now apply handleEvent_settled. }
  2:{ right. right. exists e. now apply handleEvent_rejected. }
  destruct ev.
  - now left.
  - apply lines_shaped. now left.
  - right. right. eexists. now apply rejectOnce_destroyed.
  - right. left. eexists. now apply rejectOnce_pending.
  - simpl. destruct (timerCleared ss); [now left|].
    right. left. eexists. now apply rejectOnce_pending.
  - rewrite handleEvent_close_pending by apply Hp.
    right. right. eexists. now apply rejectOnce_destroyed.
  - now left.
Qed.

Lemma handleEvents_settled c evs ss :
  settledSession c ss ->
  settledSession c (handleEvents fromEmail email evs ss).
Proof.
  revert ss. induction evs as [|ev evs IH]; intros ss Hs; simpl; [exact Hs|].
  apply IH. now apply handleEvent_settled.
Qed.

Lemma handleEvents_rejected e evs ss :
  rejectedSession e ss ->
  rejectedSession e (handleEvents fromEmail email evs ss).
Proof.
  revert ss. induction evs as [|ev evs IH]; intros ss Hs; simpl; [exact Hs|].
  apply IH. now apply handleEvent_rejected.
Qed.

Lemma handleEvents_shaped evs ss :
  shaped ss -> shaped (handleEvents fromEmail email evs ss).
Proof.
  revert ss. induction evs as [|ev evs IH]; intros ss Hs; simpl; [exact Hs|].
  apply IH. now apply handleEvent_shaped.
Qed.

Lemma newSession_pending : pendingSession newSession.
Proof. repeat split. constructor. Qed.

Lemma handleEvents_app evs1 evs2 ss :
  handleEvents fromEmail email (evs1 ++ evs2) ss =
  handleEvents fromEmail email evs2 (handleEvents fromEmail email evs1 ss).
Proof. unfold handleEvents. apply fold_left_app. Qed.

(** A shaped session with a settled promise is a settled session, or one
    rejected on a socket that the runtime had destroyed. *)
Lemma shaped_settled c ss :
  shaped ss -> promiseState ss = Some c ->
  settledSession c ss \/ exists e, c = Throw e /\ rejectedSession e ss.
Proof.
  intros [Hp | [[c' Hs] | [e Hs]]] Hc.
  - rewrite (pending_promise ss Hp) in Hc. discriminate.
  - rewrite (settled_promise c' ss Hs) in Hc. left. now inversion Hc; subst.
  - rewrite (rejected_promise e ss Hs) in Hc. right. exists e.
    split; [congruence | exact Hs].
Qed.

Lemma shaped_pending ss :
  shaped ss -> promiseState ss = None -> pendingSession ss.
Proof.
  intros [Hp | [[c' Hs] | [e Hs]]] Hc; [exact Hp | |].
  - rewrite (settled_promise c' ss Hs) in Hc. discriminate.
  - rewrite (rejected_promise e ss Hs) in Hc. discriminate.
Qed.

(** A settlement stays: later events add no second one, and leave the
    socket destroyed. *)
Lemma shaped_stays c evs ss :
  shaped ss -> promiseState ss = Some c ->
  let ss' := handleEvents fromEmail email evs ss in
  settlementCalls (effects ss') = [c] /\ promiseState ss' = Some c /\
  isResolved ss' = true /\ socketDestroyed ss' = true.
Proof.
  intros Hsh Hc ss'.
  destruct (shaped_settled c ss Hsh Hc) as [Hs | (e & -> & Hs)].
  - pose proof (handleEvents_settled c evs ss Hs) as Hs'. fold ss' in Hs'.
    split; [now apply settled_calls|].
    split; [now apply settled_promise|]. split; apply Hs'.
  - pose proof (handleEvents_rejected e evs ss Hs) as Hs'. fold ss' in Hs'.
    split; [now apply rejected_calls|].
    split; [now apply rejected_promise|]. split; apply Hs'.
Qed.
End SessionRuns.

Lemma consFirst_single c pieces l :
  consFirst c pieces = [l] -> pieces <> [] -> exists l', pieces = [l'] /\ l = c :: l'.
Proof.
  destruct pieces as [|p ps]; simpl; intros H Hne; [congruence|].
  inversion H; subst. eauto.
Qed.

Lemma splitCRLF_cons2 c d rest :
  splitCRLF (c :: d :: rest) =
  if ((c =? 13) && (d =? 10))%N then [] :: splitCRLF rest
  else consFirst c (splitCRLF (d :: rest)).
Proof. reflexivity. Qed.

Lemma consFirst_nonempty c pieces : consFirst c pieces <> [].
Proof. destruct pieces; discriminate. Qed.

Lemma splitCRLF_nonempty s : splitCRLF s <> [].
Proof.
  destruct s as [|c [|d rest]]; try discriminate.
  rewrite splitCRLF_cons2.
  destruct ((c =? 13) && (d =? 10))%N; [discriminate|].
  apply consFirst_nonempty.
Qed.

(** A line without a line terminator inside, followed by one, is split into
    that line and an empty rest. *)
Lemma splitCRLF_line line :
  splitCRLF line = [line] -> splitCRLF (line ++ CRLF) = [line; []].
Proof.
  induction line as [|c rest IH]; intros H; [reflexivity|].
  destruct rest as [|d rest'].
  { change ([c] ++ CRLF) with (c :: 13%N :: [10%N]).
    rewrite splitCRLF_cons2. now rewrite andb_false_r. }
  change ((c :: d :: rest') ++ CRLF) with (c :: d :: rest' ++ CRLF).
  rewrite splitCRLF_cons2. rewrite splitCRLF_cons2 in H.
  destruct ((c =? 13) && (d =? 10))%N; [discriminate|].
  apply consFirst_single in H; [|apply splitCRLF_nonempty].
  destruct H as (l' & Hl' & Heq). injection Heq as <-.
  change (d :: rest' ++ CRLF) with ((d :: rest') ++ CRLF).
  rewrite (IH Hl'). reflexivity.
Qed.

(** A pending session that is given a line for which [handleSmtpResponse]
    sends one command and resolves. *)
Lemma onLine_send_resolve fromEmail addr line cmd o ss :
  handleSmtpResponse fromEmail line addr (step ss) = [Send cmd; Resolve o] ->
  pendingSession ss -> trim line <> [] ->
  let ss' := onLine fromEmail addr ss line in
  effects ss' = effects ss ++ [Written (cmd ++ CRLF); Destroyed;
                               PromiseResolved o] /\
  promiseState ss' = Some (Return o) /\
  step ss' = getNextStep (step ss) line /\
  settledSession (Return o) ss'.
Proof.
  intros Ho Hp Htrim. unfold onLine.
  destruct (trim line) as [|t ts]; [congruence|].
  rewrite Ho. simpl fold_left.
  pose proof (sendCommand_pending cmd ss Hp) as Hp1.
  destruct (resolveOnce_pending o _ Hp1) as [Hs He].
  assert (Hs' : settledSession (Return o)
            (setStep (getNextStep (step ss) line)
               (resolveOnce o (sendCommand cmd ss))))
    by exact Hs.
  split; [|split; [|split]].
  - simpl effects at 1. rewrite He. simpl. now rewrite <- app_assoc.
  - now apply settled_promise.
  - reflexivity.
  - exact Hs'.
Qed.

(** C2: in the step that awaits the reply to RCPT TO, [handleSmtpResponse]
    first sends QUIT and then resolves with an outcome chosen by the reply
    code alone: 250 is [valid] with [isValid = true], 500 to 599 is
    [invalid], 400 to 499 is [temporary_failure], anything else (a code
    that is not a number included) is [unknown_response]; the outcome
    carries the raw line as [smtpResponse]; the next step is the final one,
    in which nothing is sent or resolved any more; and a pending session
    that handles such a line is settled with that outcome. *)
Theorem rcpt_reply_classification (fromEmail addr line : jsstring) :
  let code := parseInt (substring0 3 line) in
  exists o : Outcome,
    handleSmtpResponse fromEmail line addr step_rcpt_to
      = [Send (lit "QUIT"); Resolve o] /\
    email o = addr /\ smtpResponse o = Some line /\
    (code = Some 250 -> status o = st_valid /\ isValid o = true) /\
    (forall c, code = Some c -> 500 <= c <= 599 ->
               status o = st_invalid /\ isValid o = false) /\
    (forall c, code = Some c -> 400 <= c <= 499 ->
               status o = st_temporary_failure /\ isValid o = false) /\
    ((forall c, code = Some c -> c <> 250 /\ ~ 400 <= c <= 599) ->
     status o = st_unknown_response /\ isValid o = false) /\
    getNextStep step_rcpt_to line = step_quit /\
    (forall l, handleSmtpResponse fromEmail l addr step_quit = [] /\
               getNextStep step_quit l = step_quit) /\
    (forall ss, pendingSession ss -> step ss = step_rcpt_to ->
                trim line <> [] ->
       let ss' := onLine fromEmail addr ss line in
       effects ss' = effects ss ++ [Written (lit "QUIT" ++ CRLF); Destroyed;
                                    PromiseResolved o] /\
       promiseState ss' = Some (Return o) /\ step ss' = step_quit /\
       settledSession (Return o) ss').
Proof.
  intros code.
  set (b1 := codeIs code 250).
  set (b2 := codeGe code 500 && codeLe code 599).
  set (b3 := codeGe code 400 && codeLe code 499).
  set (o := {| email := addr; isValid := b1;
               status := if b1 then st_valid else if b2 then st_invalid
                         else if b3 then st_temporary_failure
                         else st_unknown_response;
               message := if b1 then lit "Email address is valid"
                          else if b2 then lit "Email address rejected: " ++ line
                          else if b3 then lit "Temporary failure: " ++ line
                          else lit "Unknown response: " ++ line;
               smtpResponse := Some line; fromCache := None |}).
  exists o.
  assert (Hact : handleSmtpResponse fromEmail line addr step_rcpt_to
                 = [Send (lit "QUIT"); Resolve o]).
  { unfold handleSmtpResponse, o. fold code. fold b1 b2 b3.
    destruct b1, b2, b3; reflexivity. }
  split; [exact Hact|]. simpl.
  split; [reflexivity|]. split; [reflexivity|].
  split; [|split; [|split; [|split; [|split; [|split]]]]].
  - intros Hc. subst b1. rewrite Hc. simpl. auto.
  - intros c Hc Hr. subst b1 b2. rewrite Hc. simpl.
    destruct (Z.eqb_spec c 250); [lia|].
    destruct (Z.leb_spec 500 c); [|lia].
    destruct (Z.leb_spec c 599); [|lia]. auto.
  - intros c Hc Hr. subst b1 b2 b3. rewrite Hc. simpl.
    destruct (Z.eqb_spec c 250); [lia|].
    destruct (Z.leb_spec 500 c); [lia|]. simpl.
    destruct (Z.leb_spec 400 c); [|lia].
    destruct (Z.leb_spec c 499); [|lia]. auto.
  - intros Hother. subst b1 b2 b3. destruct code as [c|]; simpl; [|auto].
    destruct (Hother c eq_refl) as [Hne Hrange].
    destruct (Z.eqb_spec c 250); [lia|].
    destruct (Z.leb_spec 500 c), (Z.leb_spec c 599),
             (Z.leb_spec 400 c), (Z.leb_spec c 499); simpl; auto; lia.
  - reflexivity.
  - intros l. split; reflexivity.
  - intros ss Hp Hstep Htrim.
    rewrite <- Hstep in Hact.
    destruct (onLine_send_resolve _ _ _ _ _ _ Hact Hp Htrim)
      as (He & Hpr & Hst & Hs).
    rewrite Hstep in Hst. auto.
Qed.

Lemma actions_pending acts ss :
  pendingSession ss ->
  match firstResolve acts with
  | Some o => settledSession (Return o)
                (fold_left (fun acc a => perform a acc) acts ss)
  | None => pendingSession (fold_left (fun acc a => perform a acc) acts ss)
  end.
Proof.
  revert ss. induction acts as [|a acts IH]; intros ss Hp; [exact Hp|].
  destruct a as [cmd | o].
  - change (firstResolve (Send cmd :: acts)) with (firstResolve acts).
    apply (IH (sendCommand cmd ss)). now apply sendCommand_pending.
  - change (firstResolve (Resolve o :: acts)) with (Some o).
    simpl fold_left. apply actions_settled.
    now apply resolveOnce_pending.
Qed.

(** C1: whatever events a session's socket and timer deliver, and in
    whatever order, the promise of the session is settled at most once.  Once
    a first source has settled it, the socket is destroyed: by a call of
    [socket.destroy()] right before the settlement, or, for a rejection only,
    by the runtime before the handler ran, in which case the rejection is
    not preceded by that call; and no later event changes the settlement,
    adds another, or revives the socket.  On a session that is still pending
    each of the four sources does settle it and leaves the socket destroyed:
    a socket error and a close, which the runtime emits on a socket it has
    destroyed, reject and call nothing else; the socket timeout and the
    timer (unless it was cleared) call [socket.destroy()] and reject; and a
    reply line that makes [handleSmtpResponse] resolve is followed by
    [socket.destroy()] and the resolution. *)
Theorem session_settles_exactly_once
  (fromEmail addr : jsstring) (evs : list SocketEvent) :
  let ss := handleEvents fromEmail addr evs newSession in
  (length (settlementCalls (effects ss)) <= 1)%nat /\
  (forall c, promiseState ss = Some c ->
     isResolved ss = true /\ socketDestroyed ss = true /\
     (exists pre release post,
        effects ss = pre ++ release ++ [settlementEffect c] ++ post /\
        Forall isWritten pre /\ Forall isWritten post /\
        (release = [Destroyed] \/ release = [] /\ exists e, c = Throw e)) /\
     forall later,
       let ss' := handleEvents fromEmail addr later ss in
       settlementCalls (effects ss') = [c] /\ promiseState ss' = Some c /\
       socketDestroyed ss' = true) /\
  (promiseState ss = None ->
     isResolved ss = false /\
     (forall e,
        let ss' := handleEvent fromEmail addr (EvError e) ss in
        effects ss' = effects ss ++ [PromiseRejected e] /\
        promiseState ss' = Some (Throw e) /\ socketDestroyed ss' = true) /\
     (let e := mkError (lit "Socket timeout") in
      let ss' := handleEvent fromEmail addr EvTimeout ss in
      effects ss' = effects ss ++ [Destroyed; PromiseRejected e] /\
      promiseState ss' = Some (Throw e) /\ socketDestroyed ss' = true) /\
     (timerCleared ss = false ->
      let e := mkError (lit "Connection timeout") in
      let ss' := handleEvent fromEmail addr EvTimer ss in
      effects ss' = effects ss ++ [Destroyed; PromiseRejected e] /\
      promiseState ss' = Some (Throw e) /\ socketDestroyed ss' = true) /\
     (let e := mkError (lit "Connection closed unexpectedly") in
      let ss' := handleEvent fromEmail addr EvClose ss in
      effects ss' = effects ss ++ [PromiseRejected e] /\
      promiseState ss' = Some (Throw e) /\ socketDestroyed ss' = true) /\
     (forall line o,
        response ss = [] -> splitCRLF line = [line] -> trim line <> [] ->
        firstResolve (handleSmtpResponse fromEmail line addr (step ss))
          = Some o ->
        let ss' := handleEvent fromEmail addr (EvData (line ++ CRLF)) ss in
        settledSession (Return o) ss' /\
        promiseState ss' = Some (Return o))).
Proof.
  intros ss.
  assert (Hshape : shaped ss)
    by (apply handleEvents_shaped; left; apply newSession_pending).
  split; [|split].
  - destruct Hshape as [Hp | [[c Hs] | [e Hs]]].
    + destruct Hp as (_ & _ & Hw).
      rewrite (settlementCalls_written _ Hw). simpl. lia.
    + rewrite (settled_calls c ss Hs). simpl. lia.
    + rewrite (rejected_calls e ss Hs). simpl. lia.
  - intros c Hc.
    destruct (shaped_stays fromEmail addr c [] ss Hshape Hc)
      as (_ & _ & Hr & Hd).
    split; [exact Hr|]. split; [exact Hd|]. split.
    + destruct (shaped_settled c ss Hshape Hc) as [Hs | (e & -> & Hs)].
      * destruct Hs as (_ & _ & pre & post & He & Hpre & Hpost).
        exists pre, [Destroyed], post. auto.
      * destruct Hs as (_ & _ & pre & post & He & Hpre & Hpost).
        exists pre, [], post. eauto 7.
    + intros later ss'.
      destruct (shaped_stays fromEmail addr c later ss Hshape Hc)
        as (H1 & H2 & _ & H4).
      auto.
  - intros Hnone. pose proof (shaped_pending ss Hshape Hnone) as Hp.
    split; [apply Hp|].
    split.
    { intros e ss'. destruct (rejectOnce_destroyed e ss Hp) as [Hs He].
      split; [exact He|]. split; [now apply rejected_promise | apply Hs]. }
    split.
    { intros e ss'. destruct (rejectOnce_pending e ss Hp) as [Hs He].
      split; [exact He|]. split; [now apply settled_promise | apply Hs]. }
    split.
    { intros Htc e ss'. destruct (rejectOnce_pending e ss Hp) as [Hs He].
      subst ss'. simpl. rewrite Htc.
      split; [exact He|]. split; [now apply settled_promise | apply Hs]. }
    split.
    { intros e ss'. destruct (rejectOnce_destroyed e ss Hp) as [Hs He].
      subst ss'. rewrite handleEvent_close_pending by apply Hp.
      split; [exact He|]. split; [now apply rejected_promise | apply Hs]. }
    intros line o Hresp Hline Htrim Hfirst ss'.
    assert (Hs : settledSession (Return o) ss').
    { subst ss'. simpl. unfold onData.
      rewrite Hresp. change ([] ++ line ++ CRLF) with (line ++ CRLF).
      rewrite !(splitCRLF_line line Hline).
      simpl. unfold onLine. destruct (trim line) as [|t ts]; [congruence|].
      apply setStep_settled.
      pose proof (actions_pending
        (handleSmtpResponse fromEmail line addr (step ss))
        (setResponse [] ss) Hp) as Hacts.
      simpl step in Hacts |- *. rewrite Hfirst in Hacts. exact Hacts. }
    split; [exact Hs | now apply settled_promise].
Qed.

(** The race named in the specification: the replies that make the address
    valid, then the timer, a close and the socket timeout. *)
Example session_race_valid :
  let evs := [EvConnect;
              EvData (lit "220 mx.example.org ESMTP" ++ CRLF);
              EvData (lit "250 mx.example.org" ++ CRLF);
              EvData (lit "250 2.1.0 Ok" ++ CRLF);
              EvData (lit "250 2.1.5 Ok" ++ CRLF);
              EvTimer; EvClose; EvTimeout] in
  let ss := handleEvents (lit "test@example.com") (lit "user@example.org")
              evs newSession in
  settlementCalls (effects ss)
  = [Return {| email := lit "user@example.org"; isValid := true;
               status := st_valid; message := lit "Email address is valid";
               smtpResponse := Some (lit "250 2.1.5 Ok");
               fromCache := None |}] /\
  effects ss
  = [Written (lit "EHLO localhost" ++ CRLF);
     Written (lit "MAIL FROM:<test@example.com>" ++ CRLF);
     Written (lit "RCPT TO:<user@example.org>" ++ CRLF);
     Written (lit "QUIT" ++ CRLF);
     Destroyed;
     PromiseResolved {| email := lit "user@example.org"; isValid := true;
               status := st_valid; message := lit "Email address is valid";
               smtpResponse := Some (lit "250 2.1.5 Ok");
               fromCache := None |}].
Proof. vm_compute. split; reflexivity. Qed.

(** A reply split over two reads, and a timer that fires first. *)
Example session_split_reply :
  promiseState
    (handleEvents (lit "test@example.com") (lit "user@example.org")
       [EvData (lit "55"); EvData (lit "4 go away" ++ CRLF ++ lit "25");
        EvTimer]
       newSession)
  = Some (Return {| email := lit "user@example.org"; isValid := false;
                    status := st_connection_rejected;
                    message := lit "Connection rejected: 554 go away";
                    smtpResponse := Some (lit "554 go away");
                    fromCache := None |}).
Proof. vm_compute. reflexivity. Qed.

Example session_timer_first :
  settlementCalls (effects
    (handleEvents (lit "test@example.com") (lit "user@example.org")
       [EvTimer; EvData (lit "554 go away" ++ CRLF); EvClose] newSession))
  = [Throw (mkError (lit "Connection timeout"))].
Proof. vm_compute. reflexivity. Qed.

(** A refused connection, an error after the greeting, a close by the
    server, and the socket timeout: the first three reject on a socket that
    the runtime has destroyed, without a call of [socket.destroy()]; the
    last one makes the call. *)
Example session_rejections :
  let trace evs :=
    effects (handleEvents (lit "test@example.com") (lit "user@example.org")
               evs newSession) in
  let refused := mkError (lit "connect ECONNREFUSED") in
  let reset := mkError (lit "read ECONNRESET") in
  trace [EvError refused; EvClose] = [PromiseRejected refused] /\
  trace [EvConnect; EvData (lit "220 mx ESMTP" ++ CRLF); EvError reset; EvClose]
  = [Written (lit "EHLO localhost" ++ CRLF); PromiseRejected reset] /\
  trace [EvConnect; EvData (lit "220 mx ESMTP" ++ CRLF); EvEnd; EvClose; EvTimer]
  = [Written (lit "EHLO localhost" ++ CRLF);
     PromiseRejected (mkError (lit "Connection closed unexpectedly"))] /\
  trace [EvConnect; EvTimeout; EvClose]
  = [Destroyed; PromiseRejected (mkError (lit "Socket timeout"))].
Proof. vm_compute. repeat split. Qed.

Example parseInt_examples :
  parseInt (lit "250") = Some 250 /\ parseInt (lit "25x") = Some 25 /\
  parseInt (lit " 42") = Some 42 /\ parseInt (lit "-42") = Some (-42) /\
  parseInt (lit "0x1") = Some 1 /\ parseInt (lit "abc") = None /\
  parseInt (lit "") = None /\ parseInt (lit "0x") = None.
Proof. vm_compute. repeat split. Qed.

(** ** The address pattern *)

Section RegexFacts.
Lemma empty_inv s : matches Empty s -> False.
Proof. inversion 1. Qed.

Lemma eps_inv s : matches Eps s -> s = [].
Proof. now inversion 1. Qed.

Lemma class_inv p s : matches (Class p) s -> exists c, s = [c] /\ p c = true.
Proof. inversion 1; subst; eauto. Qed.

Lemma cat_inv r1 r2 s :
  matches (Cat r1 r2) s <->
  exists s1 s2, s = s1 ++ s2 /\ matches r1 s1 /\ matches r2 s2.
Proof.
  split.
  - inversion 1; subst; eauto.
  - intros (s1 & s2 & -> & H1 & H2). now constructor.
Qed.

Lemma alt_inv r1 r2 s :
  matches (Alt r1 r2) s <-> matches r1 s \/ matches r2 s.
Proof.
  split.
  - inversion 1; subst; auto.
  - intros [H|H]; [now apply m_alt_l | now apply m_alt_r].
Qed.

Lemma nullable_matches r : nullable r = true <-> matches r [].
Proof.
  induction r as [| |p|r1 IH1 r2 IH2|r1 IH1 r2 IH2|r IH]; simpl.
  - split; [discriminate | intros H; destruct (empty_inv _ H)].
  - split; [constructor | reflexivity].
  - split; [discriminate|].
    intros H. apply class_inv in H as (c & Hc & _). discriminate.
  - rewrite andb_true_iff, IH1, IH2, cat_inv. split.
    + intros [H1 H2]. exists [], []. auto.
    + intros (s1 & s2 & Heq & H1 & H2). symmetry in Heq.
      apply app_eq_nil in Heq as [-> ->]. auto.
  - now rewrite orb_true_iff, IH1, IH2, alt_inv.
  - split; [constructor | reflexivity].
Qed.

Lemma star_cons_inv r c s :
  matches (Star r) (c :: s) ->
  exists s1 s2, s = s1 ++ s2 /\ matches r (c :: s1) /\ matches (Star r) s2.
Proof.
  intros H. remember (Star r) as r' eqn:Hr. remember (c :: s) as cs eqn:Hcs.
  revert s Hcs.
  induction H as [| | | | | |r0 u1 u2 H1 _ H2 IH2]; intros t Hcs;
    try discriminate.
  injection Hr as ->. destruct u1 as [|c1 u1].
  - simpl in Hcs. apply IH2; auto.
  - simpl in Hcs. injection Hcs as -> <-. eauto.
Qed.

Lemma cat_cons_inv r1 r2 c s :
  matches (Cat r1 r2) (c :: s) ->
  (exists s1 s2, s = s1 ++ s2 /\ matches r1 (c :: s1) /\ matches r2 s2) \/
  (matches r1 [] /\ matches r2 (c :: s)).
Proof.
  intros H. apply cat_inv in H as (s1 & s2 & Heq & H1 & H2).
  destruct s1 as [|c1 s1]; simpl in Heq.
  - right. subst. auto.
  - left. injection Heq as -> ->. eauto.
Qed.

Lemma deriv_matches c r s : matches (deriv c r) s <-> matches r (c :: s).
Proof.
  revert s.
  induction r as [| |p|r1 IH1 r2 IH2|r1 IH1 r2 IH2|r IH]; intros s; simpl.
  - split; intros H; destruct (empty_inv _ H).
  - split; intros H; [destruct (empty_inv _ H)|].
    apply eps_inv in H. discriminate.
  - destruct (p c) eqn:Hp; split; intros H.
    + apply eps_inv in H as ->. now constructor.
    + apply class_inv in H as (c' & Hc' & _). injection Hc' as -> ->.
      constructor.
    + destruct (empty_inv _ H).
    + apply class_inv in H as (c' & Hc' & Hpc'). injection Hc' as -> ->.
      congruence.
  - assert (Hcat : matches (Cat (deriv c r1) r2) s ->
                   matches (Cat r1 r2) (c :: s)).
    { intros H. apply cat_inv in H as (s1 & s2 & -> & H1 & H2).
      apply IH1 in H1. exact (m_cat _ _ (c :: s1) s2 H1 H2). }
    destruct (nullable r1) eqn:Hn; split; intros H.
    + apply alt_inv in H as [H|H]; [now apply Hcat|].
      apply nullable_matches in Hn. apply IH2 in H.
      exact (m_cat _ _ [] (c :: s) Hn H).
    + apply alt_inv.
      destruct (cat_cons_inv _ _ _ _ H)
        as [(s1 & s2 & -> & H1 & H2) | [H1 H2]].
      * left. apply m_cat; [now apply IH1 | exact H2].
      * right. now apply IH2.
    + now apply Hcat.
    + destruct (cat_cons_inv _ _ _ _ H)
        as [(s1 & s2 & -> & H1 & H2) | [H1 H2]].
      * apply m_cat; [now apply IH1 | exact H2].
      * apply nullable_matches in H1. congruence.
  - now rewrite !alt_inv, IH1, IH2.
  - split; intros H.
    + apply cat_inv in H as (s1 & s2 & -> & H1 & H2).
      apply IH in H1. exact (m_star_cons _ (c :: s1) s2 H1 H2).
    + apply star_cons_inv in H as (s1 & s2 & -> & H1 & H2).
      apply m_cat; [now apply IH | exact H2].
Qed.

(** [test] decides the language. *)
Lemma test_matches r s : test r s = true <-> matches r s.
Proof.
  revert r. induction s as [|c s IH]; intros r; simpl.
  - apply nullable_matches.
  - rewrite IH. apply deriv_matches.
Qed.

Lemma star_class p s : matches (Star (Class p)) s <-> forallb p s = true.
Proof.
  split.
  - induction s as [|c s IH]; intros H; [reflexivity|].
    apply star_cons_inv in H as (s1 & s2 & -> & H1 & H2).
    apply class_inv in H1 as (c' & Hc' & Hp). injection Hc' as -> ->.
    simpl. rewrite Hp. simpl. now apply IH.
  - induction s as [|c s IH]; intros H; [constructor|].
    simpl in H. apply andb_true_iff in H as [Hc Hs].
    apply (m_star_cons _ [c] s); [now constructor | now apply IH].
Qed.

Lemma plus_class p s :
  matches (Plus (Class p)) s <-> s <> [] /\ forallb p s = true.
Proof.
  unfold Plus. rewrite cat_inv. split.
  - intros (s1 & s2 & -> & H1 & H2).
    apply class_inv in H1 as (c & -> & Hp). apply star_class in H2.
    simpl. split; [discriminate|]. now rewrite Hp, H2.
  - intros [Hne Hall]. destruct s as [|c s]; [congruence|].
    simpl in Hall. apply andb_true_iff in Hall as [Hc Hs].
    exists [c], s. split; [reflexivity|].
    split; [now constructor | now apply star_class].
Qed.

Lemma class_eqb n s : matches (Class (N.eqb n)) s <-> s = [n].
Proof.
  split.
  - intros H. apply class_inv in H as (c & -> & Hc).
    apply N.eqb_eq in Hc. now subst.
  - intros ->. constructor. apply N.eqb_refl.
Qed.

(** The expression of the source accepts exactly the addresses of the
    pattern in the specification. *)
Lemma isValidEmailFormat_spec addr :
  isValidEmailFormat addr = true <-> wellFormedAddress addr.
Proof.
  unfold isValidEmailFormat, wellFormedAddress, emailRegex.
  rewrite test_matches. split.
  - intros H.
    apply cat_inv in H as (a & s1 & -> & Ha & H).
    apply cat_inv in H as (at_ & s2 & -> & Hat & H).
    apply cat_inv in H as (b & s3 & -> & Hb & H).
    apply cat_inv in H as (dot & c & -> & Hdot & Hc).
    apply class_eqb in Hat, Hdot. subst.
    apply plus_class in Ha, Hb, Hc.
    exists a, b, c. intuition.
  - intros (a & b & c & -> & Ha & Hb & Hc & Pa & Pb & Pc).
    apply m_cat; [now apply plus_class|].
    apply m_cat; [now apply class_eqb|].
    apply m_cat; [now apply plus_class|].
    apply m_cat; [now apply class_eqb|].
    now apply plus_class.
Qed.
End RegexFacts.

Example isValidEmailFormat_examples :
  isValidEmailFormat (lit "user@example.org") = true /\
  isValidEmailFormat (lit "not-an-email") = false /\
  isValidEmailFormat (lit "a@b") = false /\
  isValidEmailFormat (lit "a b@example.org") = false /\
  isValidEmailFormat (lit "a@b@c.d") = false /\
  isValidEmailFormat (lit "a@.b.c") = true /\
  isValidEmailFormat (lit "a@b.") = false.
Proof. vm_compute. repeat split. Qed.

(** ** Running promises *)

Section RunFacts.
Context {RT : Runtime}.

Lemma Task_induction {A} (P : Task A -> Prop) :
  (forall c, P (Settled c)) -> P Never ->
  (forall f, (forall s, P (snd (f s))) -> P (Suspended f)) ->
  forall t, P t.
Proof.
  intros HS HN HR. fix IH 1. intros [c| |f].
  - apply HS.
  - apply HN.
  - apply HR. intros s. apply IH.
Qed.

Lemma finish_andThen {A B} (t : Task A) (k : Completion A -> Async B) s :
  (let (s1, t1) := andThen t k s in finish t1 s1) =
  match finish t s with
  | (s', Some c) => run (k c) s'
  | (s', None) => (s', None)
  end.
Proof.
  revert s. induction t as [c| |f IH] using Task_induction; intros s.
  - reflexivity.
  - reflexivity.
  - simpl. specialize (IH s). destruct (f s) as [s2 t2]. simpl in IH.
    apply IH.
Qed.

Lemma run_ret {A} (a : A) s : run (ret a) s = (s, Some (Return a)).
Proof. reflexivity. Qed.

Lemma run_throw {A} e s : run (throw (A:=A) e) s = (s, Some (Throw e)).
Proof. reflexivity. Qed.

Lemma run_hang {A} s : run (hang (A:=A)) s = (s, None).
Proof. reflexivity. Qed.

Lemma run_sync {A} (f : State -> A * State) s :
  run (sync f) s = (snd (f s), Some (Return (fst (f s)))).
Proof. unfold run, sync. now destruct (f s). Qed.

Lemma run_bind {A B} (m : Async A) (k : A -> Async B) s :
  run (bind m k) s =
  match run m s with
  | (s', Some (Return a)) => run (k a) s'
  | (s', Some (Throw e)) => (s', Some (Throw e))
  | (s', None) => (s', None)
  end.
Proof.
  unfold run at 1 2, bind. destruct (m s) as [s1 t].
  rewrite finish_andThen. destruct (finish t s1) as [s' [[a|e]|]];
    reflexivity.
Qed.

Lemma run_tryCatch {A} (m : Async A) (h : Error -> Async A) s :
  run (tryCatch m h) s =
  match run m s with
  | (s', Some (Return a)) => (s', Some (Return a))
  | (s', Some (Throw e)) => run (h e) s'
  | (s', None) => (s', None)
  end.
Proof.
  unfold run at 1 2, tryCatch. destruct (m s) as [s1 t].
  rewrite finish_andThen. destruct (finish t s1) as [s' [[a|e]|]];
    reflexivity.
Qed.

(** Alone, a caller that awaits sees what the promise is settled with. *)
Lemma run_await {A} (m : Async A) s : run (await m) s = run m s.
Proof.
  unfold run, await. destruct (m s) as [s1 t].
  rewrite finish_andThen. destruct (finish t s1) as [s' [c|]]; reflexivity.
Qed.

Lemma run_sleep ms s :
  run (sleep ms) s =
  (setWorld (timer ms (world s)) (record (Sleep ms) s), Some (Return tt)).
Proof. reflexivity. Qed.
End RunFacts.

(** ** The orchestrator *)

Section OrchestratorFacts.
Context {RT : Runtime} {CF : Config}.

Lemma finish_sessionTask addr evs ss s :
  finish (sessionTask addr evs ss) s =
  (setWorld (fst (sessionRun addr evs ss (world s))) s,
   snd (sessionRun addr evs ss (world s))).
Proof.
  revert ss s. induction evs as [|ev evs IH]; intros ss s.
  - destruct s. reflexivity.
  - simpl. destruct (promiseState (handleEvent fromEmail addr ev ss)).
    + reflexivity.
    + rewrite IH. reflexivity.
Qed.

(** A probe, run alone: the connection is logged, and the session takes
    the events of the socket until one settles it. *)
Lemma probe_run addr host s :
  probe addr host s =
  let evs := fst (connect host (world s)) in
  let w := snd (connect host (world s)) in
  (setWorld (fst (sessionRun addr evs newSession w))
     (record (TcpConnect host) s),
   snd (sessionRun addr evs newSession w)).
Proof.
  unfold probe, run, verifyWithMxRecord.
  destruct (connect host (world s)) as [evs w]. simpl.
  rewrite finish_sessionTask. reflexivity.
Qed.

Lemma probe_log addr host s :
  log (fst (probe addr host s)) = log s ++ [TcpConnect host].
Proof. rewrite probe_run. reflexivity. Qed.

Lemma probe_cache addr host s :
  cache (fst (probe addr host s)) = cache s /\
  rateLimiter (fst (probe addr host s)) = rateLimiter s.
Proof. rewrite probe_run. split; reflexivity. Qed.

(** What the probe yields is what the session of the first theorem is
    settled with. *)
Lemma sessionRun_promise addr evs ss w :
  shaped ss -> promiseState ss = None ->
  snd (sessionRun addr evs ss w) =
  promiseState (handleEvents fromEmail addr evs ss).
Proof.
  revert ss w. induction evs as [|ev evs IH]; intros ss w Hsh Hnone.
  - simpl. now rewrite Hnone.
  - simpl. pose proof (handleEvent_shaped fromEmail addr ev ss Hsh) as Hsh'.
    destruct (promiseState (handleEvent fromEmail addr ev ss)) as [c|] eqn:Hc.
    + simpl. symmetry.
      now apply (shaped_stays fromEmail addr c evs _ Hsh' Hc).
    + now apply IH.
Qed.

Lemma probe_yield addr host s :
  snd (probe addr host s) =
  promiseState (handleEvents fromEmail addr (fst (connect host (world s)))
                  newSession).
Proof.
  rewrite probe_run. simpl. apply sessionRun_promise.
  - left. apply newSession_pending.
  - reflexivity.
Qed.

(** The loop over the exchanges does what the specification says. *)
Lemma run_tryMxRecords addr hosts s :
  run (tryMxRecords addr hosts) s = failoverSpec addr hosts s.
Proof.
  revert s. induction hosts as [|mx rest IH]; intros s; [reflexivity|].
  simpl tryMxRecords. rewrite run_bind, run_tryCatch, run_bind, run_await.
  simpl failoverSpec. unfold probe.
  destruct (run (verifyWithMxRecord addr (exchange mx)) s)
    as [s1 [[o|e]|]].
  - destruct (decide (status o = st_connection_failed)) as [Hcf|Hcf].
    + rewrite decide_False by tauto. rewrite run_ret. apply IH.
    + rewrite decide_True by exact Hcf. rewrite run_ret. apply run_ret.
  - rewrite run_ret. apply IH.
  - reflexivity.
Qed.

Lemma run_getMxRecords d s :
  run (getMxRecords (Some d)) s =
  (setWorld (snd (resolveMx d (world s))) (record (DnsQuery d) s),
   Some (Return match fst (resolveMx d (world s)) with
                | Return records => Some (sortByPriority records)
                | Throw _ => None
                end)).
Proof.
  unfold getMxRecords. rewrite run_tryCatch, run_bind, run_await.
  unfold run at 1, resolveMxCall. simpl.
  destruct (resolveMx d (world s)) as [[records|e] w]; reflexivity.
Qed.

Lemma run_getMxRecords_undefined s :
  run (getMxRecords None) s = (s, Some (Return None)).
Proof. reflexivity. Qed.
End OrchestratorFacts.

Section SortFacts.
Lemma insertByPriority_perm x l : Permutation (insertByPriority x l) (x :: l).
Proof.
  induction l as [|y l IH]; simpl; [reflexivity|].
  destruct (priority x <=? priority y); [reflexivity|].
  rewrite IH. apply perm_swap.
Qed.

Lemma sortByPriority_perm l : Permutation (sortByPriority l) l.
Proof.
  induction l as [|x l IH]; simpl; [reflexivity|].
  rewrite insertByPriority_perm. now constructor.
Qed.

Lemma insertByPriority_sorted x l :
  ascending l -> ascending (insertByPriority x l).
Proof.
  unfold ascending. induction 1 as [|y l Hs IH Hy]; simpl.
  - repeat constructor.
  - destruct (Z.leb_spec (priority x) (priority y)) as [Hle|Hgt].
    + constructor; [now constructor|].
      constructor; [exact Hle|].
      eapply Forall_impl; [exact Hy|]. simpl. intros; lia.
    + constructor; [exact IH|].
      eapply Permutation_Forall; [symmetry; apply insertByPriority_perm|].
      constructor; [lia | exact Hy].
Qed.

Lemma sortByPriority_sorted l : ascending (sortByPriority l).
Proof.
  induction l as [|x l IH]; simpl; [constructor|].
  now apply insertByPriority_sorted.
Qed.

Lemma sortByPriority_nonempty l : l <> [] -> sortByPriority l <> [].
Proof.
  intros Hne Hs. pose proof (sortByPriority_perm l) as Hp.
  rewrite Hs in Hp. apply Permutation_nil in Hp. contradiction.
Qed.

(** Stability: records of equal priority keep their order. *)
Example sortByPriority_stable :
  List.map exchange
    (sortByPriority [ mkMx (lit "b1") 20; mkMx (lit "a1") 10;
                      mkMx (lit "b2") 20; mkMx (lit "a2") 10 ])
  = [lit "a1"; lit "a2"; lit "b1"; lit "b2"].
Proof. vm_compute. reflexivity. Qed.
End SortFacts.

Section DomainFacts.
Lemma splitOn_nonempty sep s : splitOn sep s <> [].
Proof.
  destruct s as [|c s]; simpl; [discriminate|].
  destruct (c =? sep)%N; [discriminate | apply consFirst_nonempty].
Qed.

Lemma splitOn_none sep s :
  forallb (fun c => negb (c =? sep)%N) s = true -> splitOn sep s = [s].
Proof.
  induction s as [|c s IH]; simpl; [reflexivity|].
  intros H. apply andb_true_iff in H as [Hc Hs].
  apply negb_true_iff in Hc. rewrite Hc, (IH Hs). reflexivity.
Qed.

Lemma splitOn_app sep a rest :
  forallb (fun c => negb (c =? sep)%N) a = true ->
  splitOn sep (a ++ sep :: rest) = a :: splitOn sep rest.
Proof.
  induction a as [|c a IH]; simpl.
  - intros _. now rewrite N.eqb_refl.
  - intros H. apply andb_true_iff in H as [Hc Hs].
    apply negb_true_iff in Hc. rewrite Hc, (IH Hs). reflexivity.
Qed.

Lemma notSpaceNorAt_noAt s :
  forallb notSpaceNorAt s = true ->
  forallb (fun c => negb (c =? 64)%N) s = true.
Proof.
  intros H. apply forallb_forall. intros c Hc.
  apply (proj1 (forallb_forall _ _) H) in Hc.
  unfold notSpaceNorAt in Hc. now apply andb_true_iff in Hc as [_ Hc].
Qed.

(** A well-formed address has a domain: what follows its only [@]. *)
Lemma wellFormed_domain addr :
  wellFormedAddress addr ->
  exists a d, addr = a ++ [64%N] ++ d /\ domainOf addr = Some d.
Proof.
  intros (a & b & c & -> & _ & _ & _ & Pa & Pb & Pc).
  exists a, (b ++ [46%N] ++ c). split; [reflexivity|].
  unfold domainOf. simpl app.
  rewrite splitOn_app by now apply notSpaceNorAt_noAt.
  rewrite splitOn_none; [reflexivity|].
  rewrite forallb_app. simpl.
  now rewrite (notSpaceNorAt_noAt b Pb), (notSpaceNorAt_noAt c Pc).
Qed.
End DomainFacts.

Section FailoverFacts.
Context {RT : Runtime} {CF : Config}.
Variable addr : jsstring.

Lemma connections_app h1 h2 :
  connections (h1 ++ h2) = connections h1 ++ connections h2.
Proof. unfold connections. apply map_app. Qed.

(** The exchanges are probed in the order of the list, none is skipped. *)
Lemma failover_probed hosts s :
  exists n, (n <= length hosts)%nat /\
    log (fst (failoverSpec addr hosts s))
    = log s ++ connections (firstn n hosts).
Proof.
  revert s. induction hosts as [|mx rest IH]; intros s.
  - exists 0%nat. simpl. split; [lia | now rewrite app_nil_r].
  - simpl failoverSpec.
    pose proof (probe_log addr (exchange mx) s) as Hlog.
    destruct (probe addr (exchange mx) s) as [s1 [[o|e]|]]; simpl in Hlog.
    + destruct (decide (status o = st_connection_failed)).
      * destruct (IH s1) as (n & Hn & Hl). exists (S n).
        split; [simpl; lia|]. rewrite Hl, Hlog. simpl.
        now rewrite <- app_assoc.
      * exists 1%nat. split; [simpl; lia|]. simpl. now rewrite Hlog.
    + destruct (IH s1) as (n & Hn & Hl). exists (S n).
      split; [simpl; lia|]. rewrite Hl, Hlog. simpl.
      now rewrite <- app_assoc.
    + exists 1%nat. split; [simpl; lia|]. simpl. now rewrite Hlog.
Qed.

Lemma failover_all_inconclusive hosts s :
  Forall (alwaysInconclusive addr) hosts ->
  snd (failoverSpec addr hosts s) = Some (Return (connectionFailed addr)) /\
  log (fst (failoverSpec addr hosts s)) = log s ++ connections hosts.
Proof.
  intros Hall. revert s.
  induction Hall as [|mx rest Hmx _ IH]; intros s.
  - simpl. now rewrite app_nil_r.
  - simpl failoverSpec.
    pose proof (probe_log addr (exchange mx) s) as Hlog.
    pose proof (Hmx s) as Hinc.
    destruct (probe addr (exchange mx) s) as [s1 [[o|e]|]];
      simpl in Hlog, Hinc.
    + destruct Hinc as [[e He] | (o' & Ho' & Hcf)]; [discriminate|].
      injection Ho' as <-. rewrite decide_True by exact Hcf.
      destruct (IH s1) as [Hr Hl]. split; [exact Hr|].
      rewrite Hl, Hlog. simpl. now rewrite <- app_assoc.
    + destruct (IH s1) as [Hr Hl]. split; [exact Hr|].
      rewrite Hl, Hlog. simpl. now rewrite <- app_assoc.
    + destruct Hinc as [[e He] | (o' & Ho' & _)]; discriminate.
Qed.

Lemma failover_first_conclusive pre mx post o s :
  Forall (alwaysInconclusive addr) pre ->
  (forall s0, conclusive (snd (probe addr (exchange mx) s0)) o) ->
  snd (failoverSpec addr (pre ++ mx :: post) s) = Some (Return o) /\
  log (fst (failoverSpec addr (pre ++ mx :: post) s))
  = log s ++ connections (pre ++ [mx]).
Proof.
  intros Hall Hmx. revert s.
  induction Hall as [|mx' rest Hmx' _ IH]; intros s.
  - simpl app. simpl failoverSpec.
    pose proof (probe_log addr (exchange mx) s) as Hlog.
    destruct (Hmx s) as [Hr Hne].
    destruct (probe addr (exchange mx) s) as [s1 r]. simpl in *. subst r.
    rewrite decide_False by exact Hne. simpl. now rewrite Hlog.
  - simpl app. simpl failoverSpec.
    pose proof (probe_log addr (exchange mx') s) as Hlog.
    pose proof (Hmx' s) as Hinc.
    destruct (probe addr (exchange mx') s) as [s1 [[o'|e]|]];
      simpl in Hlog, Hinc.
    + destruct Hinc as [[e He] | (o'' & Ho' & Hcf)]; [discriminate|].
      injection Ho' as <-. rewrite decide_True by exact Hcf.
      destruct (IH s1) as [Hr Hl]. split; [exact Hr|].
      rewrite Hl, Hlog. simpl. now rewrite <- app_assoc.
    + destruct (IH s1) as [Hr Hl]. split; [exact Hr|].
      rewrite Hl, Hlog. simpl. now rewrite <- app_assoc.
    + destruct Hinc as [[e He] | (o'' & Ho' & _)]; discriminate.
Qed.

Lemma failover_never_throws hosts s s' e :
  failoverSpec addr hosts s <> (s', Some (Throw e)).
Proof.
  revert s. induction hosts as [|mx l IH]; intros s; simpl; [discriminate|].
  destruct (probe addr (exchange mx) s) as [s3 [[o'|e']|]].
  - destruct (decide (status o' = st_connection_failed));
      [apply IH | discriminate].
  - apply IH.
  - discriminate.
Qed.

Lemma verifyEmail_malformed s :
  isValidEmailFormat addr = false ->
  verifyEmail addr s = (s, Settled (Return (invalidFormat addr))).
Proof. intros H. unfold verifyEmail. rewrite H. reflexivity. Qed.

Lemma run_verifyEmail_wellFormed d s :
  isValidEmailFormat addr = true -> domainOf addr = Some d ->
  run (verifyEmail addr) s =
  let s1 := setWorld (snd (resolveMx d (world s))) (record (DnsQuery d) s) in
  match fst (resolveMx d (world s)) with
  | Throw _ | Return [] => (s1, Some (Return (noMxRecord addr)))
  | Return records => failoverSpec addr (sortByPriority records) s1
  end.
Proof.
  intros Hv Hd. unfold verifyEmail. rewrite Hv, Hd. simpl negb. cbv iota.
  rewrite run_tryCatch, run_bind, run_await, run_getMxRecords.
  set (s1 := setWorld _ _).
  destruct (fst (resolveMx d (world s))) as [records|e];
    [|rewrite run_ret; reflexivity].
  destruct records as [|r0 records]; [reflexivity|].
  destruct (sortByPriority (r0 :: records)) as [|mx hosts] eqn:Hs.
  { exfalso. revert Hs. now apply sortByPriority_nonempty. }
  rewrite run_tryMxRecords.
  destruct (failoverSpec addr (mx :: hosts) s1) as [s2 [[o|e]|]] eqn:Hf;
    try reflexivity.
  exfalso. revert Hf. apply failover_never_throws.
Qed.
End FailoverFacts.

(** C3: [verifyEmail] goes through three steps in order.  (a) An address
    that is not of the shape [x@y.z], with [x], [y], [z] non-empty and free
    of white space and [@], gets [invalid_format] with [isValid = false] at
    once: the state with its log of lookups and connections is untouched.
    (b) Otherwise the domain is looked up, and when that gives no record
    (an empty answer or a failure) the outcome is [no_mx_record] and nothing
    is connected to.  (c) Otherwise the exchanges are sorted by ascending
    priority and probed in that order; the run is the failover of the
    specification: the first exchange whose probe yields a status other than
    [connection_failed] supplies the outcome, and when every probe yields
    [connection_failed] or is rejected the outcome is [connection_failed]. *)
Theorem verifyEmail_steps {RT : Runtime} {CF : Config}
  (addr : jsstring) (s : State) :
  (~ wellFormedAddress addr ->
   verifyEmail addr s = (s, Settled (Return (invalidFormat addr))) /\
   status (invalidFormat addr) = st_invalid_format /\
   isValid (invalidFormat addr) = false)
  /\
  (wellFormedAddress addr ->
   exists d, domainOf addr = Some d /\
     let answer := fst (resolveMx d (world s)) in
     let s1 := setWorld (snd (resolveMx d (world s)))
                 (record (DnsQuery d) s) in
     ((answer = Return [] \/ exists e, answer = Throw e) ->
      run (verifyEmail addr) s = (s1, Some (Return (noMxRecord addr))) /\
      status (noMxRecord addr) = st_no_mx_record) /\
     (forall records, answer = Return records -> records <> [] ->
      let hosts := sortByPriority records in
      let final := run (verifyEmail addr) s in
      ascending hosts /\ Permutation hosts records /\
      final = failoverSpec addr hosts s1 /\
      (exists n, (n <= length hosts)%nat /\
         log (fst final)
         = log s ++ DnsQuery d :: connections (firstn n hosts)) /\
      (Forall (alwaysInconclusive addr) hosts ->
       snd final = Some (Return (connectionFailed addr)) /\
       status (connectionFailed addr) = st_connection_failed /\
       log (fst final) = log s ++ DnsQuery d :: connections hosts) /\
      (forall pre mx post o,
         hosts = pre ++ mx :: post ->
         Forall (alwaysInconclusive addr) pre ->
         (forall s0, conclusive (snd (probe addr (exchange mx) s0)) o) ->
         snd final = Some (Return o) /\
         log (fst final)
         = log s ++ DnsQuery d :: connections (pre ++ [mx])))).
Proof.
  split.
  - intros Hbad. split; [|split; reflexivity].
    apply verifyEmail_malformed.
    destruct (isValidEmailFormat addr) eqn:Hv; [|reflexivity].
    apply isValidEmailFormat_spec in Hv. contradiction.
  - intros Hwf. pose proof (proj2 (isValidEmailFormat_spec addr) Hwf) as Hv.
    destruct (wellFormed_domain addr Hwf) as (a & d & _ & Hd).
    exists d. split; [exact Hd|].
    pose proof (run_verifyEmail_wellFormed addr d s Hv Hd) as Hrun.
    simpl in Hrun. intros answer s1. fold answer s1 in Hrun. split.
    + intros [Hnil | [e He]]; rewrite Hrun; split; try reflexivity.
      * now rewrite Hnil.
      * now rewrite He.
    + intros records Hans Hne hosts final.
      assert (Hfinal : final = failoverSpec addr hosts s1).
      { unfold final. rewrite Hrun, Hans.
        destruct records; [congruence | reflexivity]. }
      assert (Hlog1 : forall l, log s1 ++ l = log s ++ DnsQuery d :: l).
      { intros l. simpl. now rewrite <- app_assoc. }
      split; [apply sortByPriority_sorted|].
      split; [apply sortByPriority_perm|].
      split; [exact Hfinal|]. rewrite Hfinal. split; [|split].
      * destruct (failover_probed addr hosts s1) as (n & Hn & Hl).
        exists n. split; [exact Hn|]. now rewrite Hl, Hlog1.
      * intros Hall.
        destruct (failover_all_inconclusive addr hosts s1 Hall) as [Hr Hl].
        split; [exact Hr|]. split; [reflexivity|]. now rewrite Hl, Hlog1.
      * intros pre mx post o Hhosts Hpre Hmx. rewrite Hhosts.
        destruct (failover_first_conclusive addr pre mx post o s1 Hpre Hmx)
          as [Hr Hl].
        split; [exact Hr|]. now rewrite Hl, Hlog1.
Qed.

(** The three steps on the demonstration: a malformed address; a domain
    without records; a domain whose better exchange refuses the connection
    and whose other exchange accepts the address. *)
Example verifyEmail_demo :
  let go (addr : string) :=
    let final := run (RT:=demoRuntime) (verifyEmail (CF:=demoConfig) (lit addr))
                   (initialState (RT:=demoRuntime) (1000, [])) in
    (option_map (fun c => match c with
                          | Return o => Some (status o, isValid o)
                          | Throw _ => None
                          end) (snd final),
     log (fst final)) in
  go "not-an-email"%string = (Some (Some (st_invalid_format, false)), []) /\
  go "x@nowhere.test"%string
  = (Some (Some (st_no_mx_record, false)), [DnsQuery (lit "nowhere.test")]) /\
  go "user@example.org"%string
  = (Some (Some (st_valid, true)),
     [DnsQuery (lit "example.org"); TcpConnect (lit "mx1.example.org");
      TcpConnect (lit "mx2.example.org")]) /\
  go "user@down.test"%string
  = (Some (Some (st_connection_failed, false)),
     [DnsQuery (lit "down.test"); TcpConnect (lit "mx1.example.org")]).
Proof. vm_compute. repeat split. Qed.

(** C9: when the lookup of a domain fails, [getMxRecords] does not throw: it
    returns [null]; and [verifyEmail], its caller, makes [no_mx_record] of
    that for every well-formed address of the domain, without connecting
    anywhere.  [getMxRecords] never throws, whatever its argument. *)
Theorem mx_lookup_failure {RT : Runtime} {CF : Config}
  (d : jsstring) (s : State) (e : Error) :
  fst (resolveMx d (world s)) = Throw e ->
  let s1 := setWorld (snd (resolveMx d (world s))) (record (DnsQuery d) s) in
  run (getMxRecords (Some d)) s = (s1, Some (Return None)) /\
  (forall domain s0, exists r,
     snd (run (getMxRecords domain) s0) = Some (Return r)) /\
  (forall addr, wellFormedAddress addr -> domainOf addr = Some d ->
     run (verifyEmail addr) s = (s1, Some (Return (noMxRecord addr))) /\
     status (noMxRecord addr) = st_no_mx_record /\
     log s1 = log s ++ [DnsQuery d]).
Proof.
  intros He s1. split; [|split].
  - rewrite run_getMxRecords, He. reflexivity.
  - intros [d0|] s0.
    + rewrite run_getMxRecords. eexists. reflexivity.
    + eexists. reflexivity.
  - intros addr Hwf Hd.
    pose proof (proj2 (isValidEmailFormat_spec addr) Hwf) as Hv.
    rewrite (run_verifyEmail_wellFormed addr d s Hv Hd). simpl.
    rewrite He. repeat split.
Qed.

Lemma mx_lookup_failure_witness :
  let RT := demoRuntime in
  let s := initialState (1000, []) in
  fst (resolveMx (lit "nowhere.test") (world s))
    = Throw (mkError (lit "queryMx ENOTFOUND")) /\
  run (getMxRecords (Some (lit "nowhere.test"))) s
    = (setWorld (1020, []) (record (DnsQuery (lit "nowhere.test")) s),
       Some (Return None)).
Proof.
  intros RT s. split; [reflexivity|].
  apply (@mx_lookup_failure demoRuntime demoConfig (lit "nowhere.test") s
           (mkError (lit "queryMx ENOTFOUND")) eq_refl).
Defined.

(** ** The cache and the rate limiter *)

Section CacheFacts.
Context {RT : Runtime} {CF : Config}.

Lemma getFromCache_fresh addr s entry :
  cache s !! addr = Some entry ->
  now (world s) - timestamp entry < cacheExpiry ->
  getFromCache addr s = (Some (result entry), s).
Proof.
  intros Hc Hf. unfold getFromCache. rewrite Hc.
  destruct (Z.ltb_spec (now (world s) - timestamp entry) cacheExpiry);
    [reflexivity | lia].
Qed.

Lemma getFromCache_expired addr s entry :
  cache s !! addr = Some entry ->
  cacheExpiry <= now (world s) - timestamp entry ->
  getFromCache addr s = (None, setCache (delete addr (cache s)) s).
Proof.
  intros Hc Hf. unfold getFromCache. rewrite Hc.
  destruct (Z.ltb_spec (now (world s) - timestamp entry) cacheExpiry);
    [lia | reflexivity].
Qed.

Lemma getFromCache_absent addr s :
  cache s !! addr = None -> getFromCache addr s = (None, s).
Proof. intros Hc. unfold getFromCache. now rewrite Hc. Qed.

(** A hit is answered at once, from the cache alone. *)
Lemma verifyEmailAdvanced_hit addr s o :
  getFromCache addr s = (Some o, s) ->
  verifyEmailAdvanced addr s = (s, Settled (Return (withFromCache o))).
Proof.
  intros Hg. unfold verifyEmailAdvanced, bind, sync. rewrite Hg. reflexivity.
Qed.

(** After a miss the call goes on as if from the state that the read left. *)
Lemma verifyEmailAdvanced_miss addr s s' :
  getFromCache addr s = (None, s') -> cache s' !! addr = None ->
  verifyEmailAdvanced addr s = verifyEmailAdvanced addr s'.
Proof.
  intros Hg Hc. unfold verifyEmailAdvanced, bind, sync.
  rewrite Hg, (getFromCache_absent addr s' Hc). reflexivity.
Qed.
End CacheFacts.

(** C5: let the cache hold an entry for an address.  A read while
    [now - timestamp < cacheExpiry] gives the stored outcome, and the caller
    gets a copy of it with [fromCache = true] and every other field as it
    was stored, at once and without any change of the state.  A read
    once [now - timestamp >= cacheExpiry] removes the entry and reports it
    absent, and the pipeline goes on exactly as if there had been no
    entry. *)
Theorem cache_read {RT : Runtime} {CF : Config}
  (addr : jsstring) (s : State) (entry : CacheEntry) :
  cache s !! addr = Some entry ->
  (now (world s) - timestamp entry < cacheExpiry ->
   let o := withFromCache (result entry) in
   getFromCache addr s = (Some (result entry), s) /\
   verifyEmailAdvanced addr s = (s, Settled (Return o)) /\
   fromCache o = Some true /\
   email o = email (result entry) /\
   isValid o = isValid (result entry) /\
   status o = status (result entry) /\
   message o = message (result entry) /\
   smtpResponse o = smtpResponse (result entry))
  /\
  (cacheExpiry <= now (world s) - timestamp entry ->
   let s' := setCache (delete addr (cache s)) s in
   getFromCache addr s = (None, s') /\
   cache s' !! addr = None /\
   (forall other, other <> addr -> cache s' !! other = cache s !! other) /\
   verifyEmailAdvanced addr s = verifyEmailAdvanced addr s').
Proof.
  intros Hc. split.
  - intros Hfresh o.
    pose proof (getFromCache_fresh addr s entry Hc Hfresh) as Hg.
    split; [exact Hg|]. split; [now apply verifyEmailAdvanced_hit|].
    repeat split.
  - intros Hexp s'.
    pose proof (getFromCache_expired addr s entry Hc Hexp) as Hg.
    assert (Hgone : cache s' !! addr = None) by apply lookup_delete_eq.
    split; [exact Hg|]. split; [exact Hgone|]. split.
    + intros other Hne. simpl. now apply lookup_delete_ne.
    + now apply verifyEmailAdvanced_miss.
Qed.

Lemma cache_read_witness :
  let addr := lit "user@greylist.test" in
  let entry := {| result := greylisted; timestamp := 1000 |} in
  cache (cachedState 5000) !! addr = Some entry /\
  verifyEmailAdvanced (CF:=demoConfig) addr (cachedState 5000)
  = (cachedState 5000, Settled (Return (withFromCache greylisted))).
Proof.
  intros addr entry.
  assert (Hc : cache (cachedState 5000) !! addr = Some entry)
    by (vm_compute; reflexivity).
  split; [exact Hc|].
  refine (proj1 (proj2
    (proj1 (@cache_read demoRuntime demoConfig addr (cachedState 5000) entry
              Hc) _))).
  vm_compute. reflexivity.
Defined.

(** The same entry read after its hour: it is removed. *)
Example cache_read_expired :
  let addr := lit "user@greylist.test" in
  let s := cachedState 3601000 in
  fst (getFromCache (CF:=demoConfig) addr s) = None /\
  cache (snd (getFromCache (CF:=demoConfig) addr s)) !! addr = None.
Proof. vm_compute. split; reflexivity. Qed.

Section LimiterFacts.
Context {RT : Runtime} {CF : Config}.
Variable domain : option jsstring.

Lemma checkRateLimit_full s :
  maxRequestsPerDomain <= Z.of_nat (length (validRequests domain s)) ->
  checkRateLimit domain s = (false, s).
Proof.
  intros H. unfold checkRateLimit. fold (validRequests domain s).
  destruct (Z.leb_spec maxRequestsPerDomain
              (Z.of_nat (length (validRequests domain s))));
    [reflexivity | lia].
Qed.

Lemma checkRateLimit_room s :
  Z.of_nat (length (validRequests domain s)) < maxRequestsPerDomain ->
  checkRateLimit domain s =
  (true, setRateLimiter
           (<[domain := validRequests domain s ++ [now (world s)]]>
              (rateLimiter s)) s).
Proof.
  intros H. unfold checkRateLimit. fold (validRequests domain s).
  destruct (Z.leb_spec maxRequestsPerDomain
              (Z.of_nat (length (validRequests domain s))));
    [lia | reflexivity].
Qed.

Lemma filter_all {A} (p : A -> bool) l :
  (forall x, In x l -> p x = true) -> List.filter p l = l.
Proof.
  induction l as [|x l IH]; intros H; simpl; [reflexivity|].
  rewrite (H x) by now left. rewrite IH; [reflexivity|].
  intros y Hy. apply H. now right.
Qed.

Lemma filter_none {A} (p : A -> bool) l :
  (forall x, In x l -> p x = false) -> List.filter p l = [].
Proof.
  induction l as [|x l IH]; intros H; simpl; [reflexivity|].
  rewrite (H x) by now left. apply IH.
  intros y Hy. apply H. now right.
Qed.

(** The calls of one window, from a state whose recorded timestamps are all
    still inside the window at every one of the calls. *)
Lemma acquisitions_window ws : forall s recorded,
  default [] (rateLimiter s !! domain) = recorded ->
  (forall t w, In t recorded -> In w ws -> now w - t < rateLimitWindow) ->
  withinOneWindow ws ->
  let room := Z.to_nat (maxRequestsPerDomain - Z.of_nat (length recorded)) in
  fst (acquisitions domain ws s)
  = repeat true (Nat.min (length ws) room)
    ++ repeat false (length ws - room).
Proof.
  induction ws as [|w ws IH]; intros s recorded Hrec Hin Hpairs room;
    [reflexivity|].
  simpl acquisitions.
  assert (Hvalid : validRequests domain (setWorld w s) = recorded).
  { unfold validRequests. simpl. rewrite Hrec. apply filter_all.
    intros t Ht. apply Z.ltb_lt. apply Hin; [exact Ht | now left]. }
  inversion Hpairs as [|w' ws' Hw Hrest]; subst w' ws'.
  destruct (Z.le_gt_cases maxRequestsPerDomain (Z.of_nat (length recorded)))
    as [Hfull | Hroom].
  - rewrite checkRateLimit_full by now rewrite Hvalid.
    assert (H2 : forall t w0, In t recorded -> In w0 ws ->
                              now w0 - t < rateLimitWindow).
    { intros t w0 Ht Hw0. apply Hin; [exact Ht | now right]. }
    pose proof (IH (setWorld w s) recorded Hrec H2 Hrest) as IH'.
    destruct (acquisitions domain ws (setWorld w s)) as [oks s2].
    simpl fst in *. rewrite IH'.
    assert (Hr : room = 0%nat) by (unfold room; lia).
    fold room. rewrite Hr. simpl length.
    now rewrite !Nat.min_0_r, !Nat.sub_0_r.
  - rewrite checkRateLimit_room by (rewrite Hvalid; lia).
    rewrite Hvalid. simpl world.
    set (s1 := setRateLimiter _ _).
    assert (H1 : default [] (rateLimiter s1 !! domain) = recorded ++ [now w]).
    { unfold s1. simpl. now rewrite lookup_insert_eq. }
    assert (H2 : forall t w0, In t (recorded ++ [now w]) -> In w0 ws ->
                              now w0 - t < rateLimitWindow).
    { intros t w0 Ht Hw0. apply in_app_or in Ht as [Ht | [<- | []]].
      - apply Hin; [exact Ht | now right].
      - apply (proj1 (Forall_forall _ _) Hw). now apply list_elem_of_In. }
    pose proof (IH s1 _ H1 H2 Hrest) as IH'.
    destruct (acquisitions domain ws s1) as [oks s2].
    simpl fst in *. rewrite IH'. rewrite length_app. simpl length.
    assert (Hr : room = S (Z.to_nat (maxRequestsPerDomain
                 - Z.of_nat (length recorded + 1)))) by (unfold room; lia).
    rewrite Hr. reflexivity.
Qed.
End LimiterFacts.

(** C6: [checkRateLimit] keeps the timestamps of the domain that are less
    than [rateLimitWindow] old; if at least [maxRequestsPerDomain] are left
    it returns [false] and changes nothing, otherwise it records them with
    the current time added and returns [true].  Hence, from a domain without
    requests, of any number of calls that fall within one window exactly the
    first [maxRequestsPerDomain] succeed and all later ones fail; and once
    every recorded timestamp is a full window old, a call succeeds again,
    with a window that holds this call alone. *)
Theorem rate_limit_window {RT : Runtime} {CF : Config}
  (domain : option jsstring) (s : State) :
  (maxRequestsPerDomain <= Z.of_nat (length (validRequests domain s)) ->
   checkRateLimit domain s = (false, s))
  /\
  (Z.of_nat (length (validRequests domain s)) < maxRequestsPerDomain ->
   checkRateLimit domain s =
   (true, setRateLimiter
            (<[domain := validRequests domain s ++ [now (world s)]]>
               (rateLimiter s)) s))
  /\
  (forall ws,
     rateLimiter s !! domain = None -> 0 <= maxRequestsPerDomain ->
     withinOneWindow ws ->
     let n := Z.to_nat maxRequestsPerDomain in
     fst (acquisitions domain ws s)
     = repeat true (Nat.min (length ws) n) ++ repeat false (length ws - n))
  /\
  (0 < maxRequestsPerDomain ->
   (forall t, In t (default [] (rateLimiter s !! domain)) ->
              rateLimitWindow <= now (world s) - t) ->
   checkRateLimit domain s =
   (true, setRateLimiter (<[domain := [now (world s)]]> (rateLimiter s)) s)).
Proof.
  split; [apply checkRateLimit_full|].
  split; [apply checkRateLimit_room|].
  split.
  - intros ws Hnone Hmax Hw n.
    rewrite (acquisitions_window domain ws s []); auto.
    + simpl length. now rewrite Z.sub_0_r.
    + now rewrite Hnone.
    + intros t w [].
  - intros Hmax Hold.
    assert (Hvalid : validRequests domain s = []).
    { unfold validRequests. apply filter_none. intros t Ht.
      apply Z.ltb_ge. now apply Hold. }
    rewrite checkRateLimit_room by (rewrite Hvalid; simpl; lia).
    now rewrite Hvalid.
Qed.

(** The scenario of the specification: a ceiling of five per 30 seconds and
    six calls inside 30 seconds; a seventh one 30 seconds after the first
    five succeeds again. *)
Example rate_limit_sixth_rejected :
  let RT := demoRuntime in
  let CF := {| fromEmail := lit "test@example.com"; cacheExpiry := 300000;
               maxRequestsPerDomain := 5; rateLimitWindow := 30000;
               batchSize := 2; concurrency := 2; delay := 2000;
               retryAttempts := 2 |} in
  fst (acquisitions (Some (lit "gmail.com"))
         [(1000, []); (2000, []); (3000, []); (4000, []); (5000, []);
          (6000, []); (35000, [])]
         (initialState (0, [])))
  = [true; true; true; true; true; false; true].
Proof. vm_compute. reflexivity. Qed.

(** ** The pipeline of one address *)

Section PipelineFacts.
Context {RT : Runtime} {CF : Config}.
Variable addr : jsstring.

Lemma sleepsOf_app l1 l2 : sleepsOf (l1 ++ l2) = sleepsOf l1 ++ sleepsOf l2.
Proof. unfold sleepsOf. apply omap_app. Qed.

Lemma sleepsOf_connections hosts : sleepsOf (connections hosts) = [].
Proof. induction hosts as [|mx hosts IH]; [reflexivity | exact IH]. Qed.

Lemma networkOf_app l1 l2 :
  networkOf (l1 ++ l2) = networkOf l1 ++ networkOf l2.
Proof. unfold networkOf. apply List.filter_app. Qed.

Lemma failover_maps hosts s :
  cache (fst (failoverSpec addr hosts s)) = cache s /\
  rateLimiter (fst (failoverSpec addr hosts s)) = rateLimiter s.
Proof.
  revert s. induction hosts as [|mx rest IH]; intros s; [split; reflexivity|].
  simpl failoverSpec.
  destruct (probe_cache addr (exchange mx) s) as [Hc Hr].
  destruct (probe addr (exchange mx) s) as [s1 [[o|e]|]]; simpl in Hc, Hr.
  - destruct (decide (status o = st_connection_failed)).
    + destruct (IH s1) as [Hc' Hr']. split; congruence.
    + split; assumption.
  - destruct (IH s1) as [Hc' Hr']. split; congruence.
  - split; assumption.
Qed.

(** What a run of [verifyEmail] can be: it returns or it hangs, it never
    throws; it leaves the two maps alone and sets no timer. *)
Lemma verifyEmail_run s :
  let final := run (verifyEmail addr) s in
  (snd final = None \/ exists o, snd final = Some (Return o)) /\
  cache (fst final) = cache s /\ rateLimiter (fst final) = rateLimiter s /\
  exists delta, log (fst final) = log s ++ delta /\ sleepsOf delta = [].
Proof.
  intros final. unfold final.
  destruct (isValidEmailFormat addr) eqn:Hv.
  - pose proof (proj1 (isValidEmailFormat_spec addr) Hv) as Hwf.
    destruct (wellFormed_domain addr Hwf) as (a & d & _ & Hd).
    rewrite (run_verifyEmail_wellFormed addr d s Hv Hd). simpl.
    set (s1 := setWorld _ _).
    assert (Hno : exists delta,
              log s1 = log s ++ delta /\ sleepsOf delta = []).
    { exists [DnsQuery d]. split; reflexivity. }
    destruct (fst (resolveMx d (world s))) as [[|r0 records]|e].
    1,3: split; [right; eexists; reflexivity|]; split; [reflexivity|];
         split; [reflexivity|]; apply Hno.
    set (hosts := sortByPriority (r0 :: records)). cbv beta iota.
    destruct (failover_maps hosts s1) as [Hc Hr].
    destruct (failover_probed addr hosts s1) as (n & _ & Hl).
    pose proof (failover_never_throws addr hosts s1) as Hnt.
    destruct (failoverSpec addr hosts s1) as [s2 [[o|e]|]];
      simpl in Hc, Hr, Hl |- *.
    + split; [right; eexists; reflexivity|]. split; [exact Hc|]. split; [exact Hr|].
      exists (DnsQuery d :: connections (firstn n hosts)).
      split; [now rewrite Hl, <- app_assoc|]. apply sleepsOf_connections.
    + destruct (Hnt s2 e). reflexivity.
    + split; [now left|]. split; [exact Hc|]. split; [exact Hr|].
      exists (DnsQuery d :: connections (firstn n hosts)).
      split; [now rewrite Hl, <- app_assoc|]. apply sleepsOf_connections.
  - unfold run. rewrite (verifyEmail_malformed addr s Hv). simpl.
    split; [right; eexists; reflexivity|]. split; [reflexivity|]. split; [reflexivity|].
    exists []. split; [now rewrite app_nil_r | reflexivity].
Qed.

Lemma checkRateLimit_refused dom s :
  fst (checkRateLimit dom s) = false -> checkRateLimit dom s = (false, s).
Proof.
  unfold checkRateLimit.
  destruct (maxRequestsPerDomain <=? _); [reflexivity | discriminate].
Qed.

Lemma checkRateLimit_state dom s :
  world (snd (checkRateLimit dom s)) = world s /\
  cache (snd (checkRateLimit dom s)) = cache s /\
  log (snd (checkRateLimit dom s)) = log s.
Proof.
  unfold checkRateLimit.
  destruct (maxRequestsPerDomain <=? _); repeat split.
Qed.

Lemma getFromCache_state s :
  world (snd (getFromCache addr s)) = world s /\
  rateLimiter (snd (getFromCache addr s)) = rateLimiter s /\
  log (snd (getFromCache addr s)) = log s.
Proof.
  unfold getFromCache. destruct (cache s !! addr) as [entry|]; [|repeat split].
  destruct (now (world s) - timestamp entry <? cacheExpiry); repeat split.
Qed.

(** The three ways through [verifyEmailAdvanced]. *)
Lemma verifyEmailAdvanced_limited s s0 :
  getFromCache addr s = (None, s0) ->
  fst (checkRateLimit (domainOf addr) s0) = false ->
  verifyEmailAdvanced addr s = (s0, Settled (Return (rateLimited addr))).
Proof.
  intros Hg Hl. unfold verifyEmailAdvanced, bind, sync. rewrite Hg. simpl.
  rewrite (checkRateLimit_refused _ _ Hl). reflexivity.
Qed.

Lemma run_verifyEmailAdvanced_allowed s s0 s1 :
  getFromCache addr s = (None, s0) ->
  checkRateLimit (domainOf addr) s0 = (true, s1) ->
  run (verifyEmailAdvanced addr) s =
  match run (verifyEmail addr) s1 with
  | (s2, Some (Return o)) => (snd (addToCache addr o s2), Some (Return o))
  | (s2, Some (Throw e)) => (s2, Some (Throw e))
  | (s2, None) => (s2, None)
  end.
Proof.
  intros Hg Hl. unfold verifyEmailAdvanced.
  rewrite run_bind, run_sync, Hg. simpl fst. simpl snd. cbv iota.
  rewrite run_bind, run_sync, Hl. simpl fst. simpl snd. simpl negb. cbv iota.
  rewrite run_bind, run_await.
  destruct (run (verifyEmail addr) s1) as [s2 [[o|e]|]]; try reflexivity.
Qed.
End PipelineFacts.

Section RetryFacts.
Context {RT : Runtime} {CF : Config}.
Variable addr : jsstring.

Lemma getFromCache_some s o s0 :
  getFromCache addr s = (Some o, s0) -> s0 = s.
Proof.
  unfold getFromCache. destruct (cache s !! addr) as [entry|]; [|discriminate].
  destruct (now (world s) - timestamp entry <? cacheExpiry);
    [now intros [= _ <-] | discriminate].
Qed.

(** A run of [verifyEmailAdvanced] returns or hangs, never throws, and sets
    no timer. *)
Lemma verifyEmailAdvanced_run s :
  let final := run (verifyEmailAdvanced addr) s in
  (snd final = None \/ exists o, snd final = Some (Return o)) /\
  exists delta, log (fst final) = log s ++ delta /\ sleepsOf delta = [].
Proof.
  intros final. unfold final.
  destruct (getFromCache_state addr s) as (_ & _ & Hlg).
  destruct (getFromCache addr s) as [[o|] s0] eqn:Hg; simpl in Hlg.
  - pose proof (getFromCache_some s o s0 Hg) as ->.
    unfold run. rewrite (verifyEmailAdvanced_hit addr s o Hg). simpl.
    split; [right; eexists; reflexivity|].
    exists []. now rewrite app_nil_r.
  - destruct (checkRateLimit_state (domainOf addr) s0) as (_ & _ & Hll).
    destruct (checkRateLimit (domainOf addr) s0) as [[|] s1] eqn:Hl;
      simpl in Hll.
    + rewrite (run_verifyEmailAdvanced_allowed addr s s0 s1 Hg Hl).
      destruct (verifyEmail_run addr s1) as (Hres & _ & _ & delta & Hd & Hs).
      destruct (run (verifyEmail addr) s1) as [s2 [[o|e]|]];
        simpl in Hres, Hd |- *.
      * split; [right; eexists; reflexivity|].
        exists delta. split; [now rewrite Hd, Hll, Hlg | exact Hs].
      * destruct Hres as [Hres | [o Hres]]; discriminate.
      * split; [now left|]. exists delta.
        split; [now rewrite Hd, Hll, Hlg | exact Hs].
    + assert (Hf : fst (checkRateLimit (domainOf addr) s0) = false)
        by now rewrite Hl.
      pose proof (checkRateLimit_refused _ _ Hf) as Hl'.
      rewrite Hl in Hl'. injection Hl' as ->.
      unfold run. rewrite (verifyEmailAdvanced_limited addr s s0 Hg Hf). simpl.
      split; [right; eexists; reflexivity|].
      exists []. rewrite app_nil_r. split; [exact Hlg | reflexivity].
Qed.

Lemma backoff_delays a k :
  List.map (fun i => 5000 * (a + Z.of_nat i)) (seq 0 (S k)) =
  5000 * a :: List.map (fun i => 5000 * (a + 1 + Z.of_nat i)) (seq 0 k).
Proof.
  change (seq 0 (S k)) with (0%nat :: seq 1 k).
  rewrite <- seq_shift. cbn [List.map]. rewrite List.map_map. f_equal.
  - f_equal. lia.
  - apply List.map_ext. intros i. lia.
Qed.

(** An attempt that returns a temporary failure leaves one in the cache:
    the one it found there, or the one it stored. *)
Lemma temporary_failure_stored s s1 o :
  run (verifyEmailAdvanced addr) s = (s1, Some (Return o)) ->
  status o = st_temporary_failure ->
  exists entry,
    cache s1 !! addr = Some entry /\
    status (result entry) = st_temporary_failure.
Proof.
  intros Hrun Hst.
  destruct (getFromCache addr s) as [[o'|] s0] eqn:Hg.
  - pose proof (getFromCache_some s o' s0 Hg) as ->.
    unfold run in Hrun. rewrite (verifyEmailAdvanced_hit addr s o' Hg) in Hrun.
    simpl in Hrun. injection Hrun as <- <-.
    unfold getFromCache in Hg.
    destruct (cache s !! addr) as [entry|]; [|discriminate].
    destruct (now (world s) - timestamp entry <? cacheExpiry); [|discriminate].
    injection Hg as <-. exists entry. split; [reflexivity | exact Hst].
  - destruct (checkRateLimit (domainOf addr) s0) as [[|] s2] eqn:Hl.
    + rewrite (run_verifyEmailAdvanced_allowed addr s s0 s2 Hg Hl) in Hrun.
      destruct (run (verifyEmail addr) s2) as [s3 [[o3|e]|]];
        try discriminate.
      injection Hrun as <- <-.
      exists {| result := o3; timestamp := now (world s3) |}.
      split; [apply lookup_insert_eq | exact Hst].
    + assert (Hf : fst (checkRateLimit (domainOf addr) s0) = false)
        by now rewrite Hl.
      unfold run in Hrun.
      rewrite (verifyEmailAdvanced_limited addr s s0 Hg Hf) in Hrun.
      simpl in Hrun. injection Hrun as _ <-. discriminate.
Qed.

(** So every retry starts with a temporary failure in the cache. *)
Lemma retried_cache a s k sa :
  retried addr a s k sa -> (0 < k)%nat ->
  exists entry,
    cache sa !! addr = Some entry /\
    status (result entry) = st_temporary_failure.
Proof.
  induction 1 as [a s | a s s1 o k sa Hrun Hst Hle Hrest IH]; intros Hk; [lia|].
  destruct k as [|k]; [|apply IH; lia].
  inversion Hrest; subst.
  exact (temporary_failure_stored s s1 o Hrun Hst).
Qed.

(** The loop of [verifyWithRetry] from the attempt numbered [a]: it makes
    [k] retries, with [k] at most the attempts that are left, each after a
    temporary failure and a backoff timer of 5000 ms times [a], [a + 1],
    ...; its result is that of its last call of [verifyEmailAdvanced]; and if
    it stops before the attempts are used up, that is not a temporary
    failure. *)
Lemma retry_chain fuel : forall a s,
  (Z.to_nat (retryAttempts + 1 - a) <= fuel)%nat ->
  let final := run (verifyWithRetryFrom fuel addr a) s in
  exists k sa delta,
    (k <= Z.to_nat (retryAttempts + 1 - a))%nat /\
    retried addr a s k sa /\
    final = run (verifyEmailAdvanced addr) sa /\
    log (fst final) = log s ++ delta /\
    sleepsOf delta = List.map (fun i => 5000 * (a + Z.of_nat i)) (seq 0 k) /\
    (forall o, snd final = Some (Return o) ->
       Z.of_nat k < retryAttempts + 1 - a ->
       status o <> st_temporary_failure).
Proof.
  induction fuel as [|fuel IH]; intros a s Hfuel final; unfold final.
  all: simpl verifyWithRetryFrom.
  all: rewrite run_bind, run_tryCatch, run_bind, run_await.
  all: destruct (verifyEmailAdvanced_run s) as (Hres & delta1 & Hd1 & Hs1).
  all: destruct (run (verifyEmailAdvanced addr) s) as [s1 [[o|e]|]] eqn:Hrun;
    simpl in Hres, Hd1;
    [ | destruct Hres as [Hres | [o Hres]]; discriminate
      | exists 0%nat, s, delta1; rewrite Hrun; simpl;
        split; [lia|]; split; [constructor|]; split; [reflexivity|];
        split; [exact Hd1|]; split; [exact Hs1 | discriminate] ].
  all: destruct (bool_decide (status o = st_temporary_failure)
                 && (a <=? retryAttempts)) eqn:Hcond.
  all: try (rewrite run_ret; simpl;
            exists 0%nat, s, delta1; rewrite Hrun; simpl;
            split; [lia|]; split; [constructor|]; split; [reflexivity|];
            split; [exact Hd1|]; split; [exact Hs1|];
            intros o' [= <-] Hk Hst;
            apply andb_false_iff in Hcond as [Hc | Hc];
            [ apply bool_decide_eq_false in Hc; contradiction
            | apply Z.leb_gt in Hc; lia ]).
  all: apply andb_true_iff in Hcond as [Htemp Hle]; apply Z.leb_le in Hle;
       apply bool_decide_eq_true in Htemp.
  - exfalso. lia.
  - rewrite run_bind, run_await, run_sleep, run_ret. cbv iota.
    fold (afterBackoff a s1).
    assert (Hfuel' : (Z.to_nat (retryAttempts + 1 - (a + 1)) <= fuel)%nat)
      by lia.
    destruct (IH (a + 1) (afterBackoff a s1) Hfuel')
      as (k & sa & delta & Hk & Hch & Hlast & Hd & Hs & Hearly).
    exists (S k), sa, (delta1 ++ Sleep (5000 * a) :: delta).
    split; [lia|]. split; [|split; [exact Hlast|split; [|split]]].
    + exact (retried_again addr a s s1 o k sa Hrun Htemp Hle Hch).
    + rewrite Hd. simpl. rewrite Hd1. now rewrite <- !app_assoc.
    + rewrite backoff_delays, sleepsOf_app, Hs1.
      change (sleepsOf (Sleep (5000 * a) :: delta))
        with (5000 * a :: sleepsOf delta).
      now rewrite Hs.
    + intros o' Ho' Hk'. apply (Hearly o' Ho'). lia.
Qed.

(** The same loop when the cache holds a temporary failure that stays fresh
    through the backoffs: every attempt is answered from the cache. *)
Lemma retries_from_cache entry m : forall fuel a s,
  m = Z.to_nat (retryAttempts + 1 - a) -> (m <= fuel)%nat ->
  cache s !! addr = Some entry ->
  status (result entry) = st_temporary_failure ->
  (forall j, (j <= m)%nat ->
     now (afterBackoffs a j (world s)) - timestamp entry < cacheExpiry) ->
  run (verifyWithRetryFrom fuel addr a) s =
  ({| world := afterBackoffs a m (world s); cache := cache s;
      rateLimiter := rateLimiter s; log := log s ++ backoffs a m |},
   Some (Return (withFromCache (result entry)))).
Proof.
  induction m as [|m IH]; intros fuel a s Hm Hfuel Hc Hst Hfresh.
  - assert (Hg := getFromCache_fresh addr s entry Hc (Hfresh 0%nat (le_n _))).
    destruct fuel; simpl verifyWithRetryFrom.
    all: rewrite run_bind, run_tryCatch, run_bind, run_await.
    all: unfold run at 1; rewrite (verifyEmailAdvanced_hit addr s _ Hg).
    all: simpl finish; cbv iota.
    all: destruct (Z.leb_spec a retryAttempts) as [Hle|Hgt]; [lia|].
    all: rewrite andb_false_r, run_ret; simpl.
    all: rewrite app_nil_r; destruct s; reflexivity.
  - assert (Hg := getFromCache_fresh addr s entry Hc (Hfresh 0%nat (Nat.le_0_l _))).
    destruct fuel as [|fuel]; [lia|]. simpl verifyWithRetryFrom.
    rewrite run_bind, run_tryCatch, run_bind, run_await.
    unfold run at 1. rewrite (verifyEmailAdvanced_hit addr s _ Hg).
    simpl finish. cbv iota.
    destruct (Z.leb_spec a retryAttempts) as [Hle|Hgt]; [|lia].
    simpl status. rewrite Hst.
    rewrite bool_decide_eq_true_2 by reflexivity. simpl andb. cbv iota.
    rewrite run_bind, run_await, run_sleep, run_ret. cbv iota.
    set (s2 := setWorld _ _).
    rewrite (IH fuel (a + 1) s2); [| lia | lia | exact Hc | exact Hst |].
    + unfold s2. simpl. now rewrite <- app_assoc.
    + intros j Hj. apply (Hfresh (S j)). lia.
Qed.
End RetryFacts.

Section StoredFacts.
Context {RT : Runtime} {CF : Config}.
Variable addr : jsstring.

Lemma getFromCache_none s s0 :
  getFromCache addr s = (None, s0) -> cache s0 !! addr = None.
Proof.
  unfold getFromCache. destruct (cache s !! addr) as [entry|] eqn:Hc.
  - destruct (now (world s) - timestamp entry <? cacheExpiry);
      [discriminate|].
    intros [= <-]. apply lookup_delete_eq.
  - now intros [= <-].
Qed.

(** A first attempt that misses the cache, passes the limiter and gets a
    temporary failure stores it; if the entry stays fresh through the
    backoffs, all the retries are answered from it. *)
Lemma retry_exhausted s s0 s1 s2 o :
  getFromCache addr s = (None, s0) ->
  checkRateLimit (domainOf addr) s0 = (true, s1) ->
  run (verifyEmail addr) s1 = (s2, Some (Return o)) ->
  status o = st_temporary_failure -> 1 <= retryAttempts ->
  (forall j, (1 <= j <= Z.to_nat retryAttempts)%nat ->
     now (afterBackoffs 1 j (world s2)) - now (world s2) < cacheExpiry) ->
  run (verifyWithRetry addr) s =
  ({| world := afterBackoffs 1 (Z.to_nat retryAttempts) (world s2);
      cache := <[addr := {| result := o; timestamp := now (world s2) |}]>
                 (cache s2);
      rateLimiter := rateLimiter s2;
      log := log s2 ++ backoffs 1 (Z.to_nat retryAttempts) |},
   Some (Return (withFromCache o))).
Proof.
  intros Hg Hl Hv Hst Hr Hfresh.
  unfold verifyWithRetry, verifyWithRetryAt.
  replace (retryAttempts + 1 - 1) with retryAttempts by lia.
  destruct (Z.to_nat retryAttempts) as [|m] eqn:Hm; [lia|].
  simpl verifyWithRetryFrom.
  rewrite run_bind, run_tryCatch, run_bind, run_await.
  rewrite (run_verifyEmailAdvanced_allowed addr s s0 s1 Hg Hl), Hv.
  rewrite Hst. rewrite bool_decide_eq_true_2 by reflexivity.
  destruct (Z.leb_spec 1 retryAttempts) as [_|Hgt]; [|lia].
  simpl andb. cbv iota.
  rewrite run_bind, run_await, run_sleep, run_ret. cbv iota.
  set (s4 := setWorld _ _).
  rewrite (retries_from_cache addr
             {| result := o; timestamp := now (world s2) |} m m (1 + 1) s4).
  - unfold s4. simpl. now rewrite <- app_assoc.
  - lia.
  - lia.
  - unfold s4. simpl. apply lookup_insert_eq.
  - exact Hst.
  - intros j Hj. unfold s4. simpl. apply (Hfresh (S j)). lia.
Qed.
End StoredFacts.

(** C10: on a miss that passes the limiter, [verifyEmailAdvanced] stores
    whatever outcome [verifyEmail] returned: there is no test of its status,
    so failures are stored like successes.  Then every later call for the
    address that finds this entry less than [cacheExpiry] old returns a copy
    of it with [fromCache = true], at once and without a change of the state
    (no lookup, no connection); this includes the retries of
    [verifyWithRetry] after a temporary failure, which set their backoff
    timers and nothing else.  A rate-limited call stores nothing, and a hit
    leaves the cache as it is. *)
Theorem outcomes_are_cached {RT : Runtime} {CF : Config}
  (addr : jsstring) (s : State) :
  (forall s0 s1 s2 o,
     getFromCache addr s = (None, s0) ->
     checkRateLimit (domainOf addr) s0 = (true, s1) ->
     run (verifyEmail addr) s1 = (s2, Some (Return o)) ->
     let s3 := snd (addToCache addr o s2) in
     run (verifyEmailAdvanced addr) s = (s3, Some (Return o)) /\
     cache s3 !! addr
     = Some {| result := o; timestamp := now (world s2) |} /\
     (forall s', cache s' !! addr = cache s3 !! addr ->
        now (world s') - now (world s2) < cacheExpiry ->
        verifyEmailAdvanced addr s'
        = (s', Settled (Return (withFromCache o))) /\
        fromCache (withFromCache o) = Some true /\
        status (withFromCache o) = status o) /\
     (status o = st_temporary_failure -> 1 <= retryAttempts ->
      (forall j, (1 <= j <= Z.to_nat retryAttempts)%nat ->
         now (afterBackoffs 1 j (world s2)) - now (world s2) < cacheExpiry) ->
      let final := run (verifyWithRetry addr) s in
      snd final = Some (Return (withFromCache o)) /\
      log (fst final) = log s2 ++ backoffs 1 (Z.to_nat retryAttempts) /\
      networkOf (log (fst final)) = networkOf (log s2)))
  /\
  (forall s0,
     getFromCache addr s = (None, s0) ->
     fst (checkRateLimit (domainOf addr) s0) = false ->
     verifyEmailAdvanced addr s = (s0, Settled (Return (rateLimited addr))) /\
     status (rateLimited addr) = st_rate_limited /\
     cache s0 !! addr = None)
  /\
  (forall o,
     getFromCache addr s = (Some o, s) ->
     verifyEmailAdvanced addr s = (s, Settled (Return (withFromCache o)))).
Proof.
  split; [|split].
  - intros s0 s1 s2 o Hg Hl Hv s3.
    assert (Hstored : cache s3 !! addr
              = Some {| result := o; timestamp := now (world s2) |})
      by apply lookup_insert_eq.
    split; [|split; [exact Hstored|split]].
    + now rewrite (run_verifyEmailAdvanced_allowed addr s s0 s1 Hg Hl), Hv.
    + intros s' Hsame Hfresh. rewrite Hstored in Hsame.
      split; [|split; reflexivity].
      apply verifyEmailAdvanced_hit.
      now apply (getFromCache_fresh addr s' _ Hsame).
    + intros Hst Hr Hfresh final. unfold final.
      rewrite (retry_exhausted addr s s0 s1 s2 o Hg Hl Hv Hst Hr Hfresh).
      simpl. split; [reflexivity|]. split; [reflexivity|].
      rewrite networkOf_app.
      assert (Hb : forall k a, networkOf (backoffs a k) = []).
      { induction k as [|k IH]; intros a; [reflexivity | apply IH]. }
      now rewrite Hb, app_nil_r.
  - intros s0 Hg Hl. split; [now apply verifyEmailAdvanced_limited|].
    split; [reflexivity | now apply (getFromCache_none addr s)].
  - intros o Hg. now apply verifyEmailAdvanced_hit.
Qed.

Lemma backoff_delays_increasing k : forall a,
  StronglySorted Z.lt
    (List.map (fun i => 5000 * (a + Z.of_nat i)) (seq 0 k)).
Proof.
  induction k as [|k IH]; intros a; [constructor|].
  rewrite backoff_delays. constructor; [apply IH|].
  apply Forall_forall. intros x Hx. apply list_elem_of_In in Hx.
  apply in_map_iff in Hx as (i & <- & _). lia.
Qed.

(** A [connection_failed] outcome is stored like any other: the second
    call for the address, a minute later, is answered from the cache. *)
Example failure_cached_demo :
  let addr := lit "user@down.test" in
  let first := run (RT:=demoRuntime) (verifyEmailAdvanced (CF:=demoConfig) addr)
                 (initialState (RT:=demoRuntime) (1000, [])) in
  let later := setWorld (RT:=demoRuntime) (61000, []) (fst first) in
  let second := run (RT:=demoRuntime)
                  (verifyEmailAdvanced (CF:=demoConfig) addr) later in
  option_map (fun c => match c with
                       | Return o => Some (status o, fromCache o)
                       | Throw _ => None
                       end) (snd second)
  = Some (Some (st_connection_failed, Some true)) /\
  fst second = later.
Proof. vm_compute. split; reflexivity. Qed.

(** C7, as the code has it: [verifyWithRetry] makes [k] retries, at most
    [retryAttempts], each after an attempt that returned a temporary failure
    and a backoff timer of 5000, 10000, ... ms, each longer than the one
    before; it never throws; and what it reports is what its last call of
    [verifyEmailAdvanced] returned.  It stops before the attempts are used
    up only on a status other than [temporary_failure].  A retry finds the
    temporary failure of the attempt before it in the cache: while this
    entry is less than [cacheExpiry] old the retry is answered from it, and
    the status reported is [temporary_failure]; once it is older the retry
    drops it and goes through the limiter, which may refuse it, and then the
    status reported is [rate_limited], or admit it, and then the outcome
    reported is that of a new run of [verifyEmail]. *)
Theorem retry_budget {RT : Runtime} {CF : Config}
  (addr : jsstring) (s : State) :
  let final := run (verifyWithRetry addr) s in
  exists (k : nat) (sa : State) (delta : list Effect),
    Z.of_nat k <= Z.max 0 retryAttempts /\
    retried addr 1 s k sa /\
    log (fst final) = log s ++ delta /\
    sleepsOf delta
    = List.map (fun i => 5000 * (1 + Z.of_nat i)) (seq 0 k) /\
    StronglySorted Z.lt (sleepsOf delta) /\
    final = run (verifyEmailAdvanced addr) sa /\
    (forall e, snd final <> Some (Throw e)) /\
    (forall o, snd final = Some (Return o) -> Z.of_nat k < retryAttempts ->
       status o <> st_temporary_failure) /\
    ((0 < k)%nat ->
     exists entry,
       cache sa !! addr = Some entry /\
       status (result entry) = st_temporary_failure /\
       (now (world sa) - timestamp entry < cacheExpiry ->
        final = (sa, Some (Return (withFromCache (result entry)))) /\
        status (withFromCache (result entry)) = st_temporary_failure) /\
       (cacheExpiry <= now (world sa) - timestamp entry ->
        let s0 := setCache (delete addr (cache sa)) sa in
        (fst (checkRateLimit (domainOf addr) s0) = false ->
         final = (s0, Some (Return (rateLimited addr))) /\
         status (rateLimited addr) = st_rate_limited) /\
        (forall s1, checkRateLimit (domainOf addr) s0 = (true, s1) ->
           final = match run (verifyEmail addr) s1 with
                   | (s2, Some (Return o)) =>
                       (snd (addToCache addr o s2), Some (Return o))
                   | (s2, Some (Throw e)) => (s2, Some (Throw e))
                   | (s2, None) => (s2, None)
                   end))).
Proof.
  intros final.
  assert (Hloop := retry_chain addr (Z.to_nat (retryAttempts + 1 - 1)) 1 s
                     (le_n _)).
  fold (verifyWithRetryAt addr 1) in Hloop. fold (verifyWithRetry addr) in Hloop.
  simpl in Hloop. fold final in Hloop.
  destruct Hloop as (k & sa & delta & Hk & Hch & Hlast & Hd & Hs & Hearly).
  exists k, sa, delta.
  split; [lia|]. split; [exact Hch|]. split; [exact Hd|]. split; [exact Hs|].
  split; [rewrite Hs; apply backoff_delays_increasing|].
  split; [exact Hlast|]. split; [|split].
  - intros e He. rewrite Hlast in He.
    destruct (verifyEmailAdvanced_run addr sa) as ([Hn | [o Ho]] & _);
      congruence.
  - intros o Ho Hlt. apply (Hearly o Ho). lia.
  - intros Hpos.
    destruct (retried_cache addr 1 s k sa Hch Hpos) as (entry & Hc & Hst).
    exists entry. split; [exact Hc|]. split; [exact Hst|]. split.
    + intros Hfresh. split; [|exact Hst].
      rewrite Hlast. unfold run.
      now rewrite (verifyEmailAdvanced_hit addr sa _
                     (getFromCache_fresh addr sa entry Hc Hfresh)).
    + intros Hold s0.
      pose proof (getFromCache_expired addr sa entry Hc Hold) as Hg.
      fold s0 in Hg. split.
      * intros Hf. split; [|reflexivity].
        rewrite Hlast. unfold run.
        now rewrite (verifyEmailAdvanced_limited addr sa s0 Hg Hf).
      * intros s1 Hl. rewrite Hlast.
        apply (run_verifyEmailAdvanced_allowed addr sa s0 s1 Hg Hl).
Qed.

(** C7, where the claim fails: an address whose server answers 450 to RCPT
    TO, on a processor with one retry, a cache that forgets after three
    seconds and a limiter that admits one request per domain and minute.
    The first attempt yields [temporary_failure]; the one retry, 5000 ms
    later, finds the entry expired and is refused by the limiter: the
    attempts are used up and the status reported is [rate_limited], not
    [temporary_failure]. *)
Theorem retry_ends_rate_limited :
  let addr := lit "user@greylist.test" in
  let start := initialState (RT:=demoRuntime) (1000, []) in
  let first := run (RT:=demoRuntime)
                 (verifyEmailAdvanced (CF:=hastyConfig) addr) start in
  let final := run (RT:=demoRuntime)
                 (verifyWithRetry (CF:=hastyConfig) addr) start in
  option_map (fun c => match c with
                       | Return o => Some (status o)
                       | Throw _ => None
                       end) (snd first)
  = Some (Some st_temporary_failure) /\
  sleepsOf (log (fst final)) = [5000] /\
  Z.of_nat (length (sleepsOf (log (fst final))))
  = retryAttempts (Config:=hastyConfig) /\
  snd final = Some (Return (rateLimited addr)) /\
  status (rateLimited addr) <> st_temporary_failure.
Proof. vm_compute. repeat split; discriminate. Qed.

(** C4, what the code does: an address whose server answers 450 to RCPT TO,
    verified with two retries.  The first attempt looks the domain up,
    connects and stores the temporary failure; both retries, 5 and 10
    seconds later, are answered from the cache: the outcome reported has
    [fromCache = true], there was one lookup and one connection in all, and
    the limiter has counted one request. *)
Theorem retry_is_answered_from_cache :
  let final := run (RT:=demoRuntime)
                 (verifyWithRetry (CF:=demoConfig) (lit "user@greylist.test"))
                 (initialState (RT:=demoRuntime) (1000, [])) in
  option_map (fun c => match c with
                       | Return o => Some (status o, fromCache o)
                       | Throw _ => None
                       end) (snd final)
  = Some (Some (st_temporary_failure, Some true)) /\
  log (fst final)
  = [DnsQuery (lit "greylist.test"); TcpConnect (lit "mx.greylist.test");
     Sleep 5000; Sleep 10000] /\
  rateLimiter (fst final) !! Some (lit "greylist.test") = Some [1000].
Proof. vm_compute. repeat split. Qed.

(** ** Promises under every schedule *)

Section AlwaysRules.
Context {RT : Runtime}.
Variable live : bool.
Variable I : State -> Prop.

Lemma always_mono {A} (Q Q' : Completion A -> Prop) t :
  (forall c, Q c -> Q' c) -> always live I Q t -> always live I Q' t.
Proof.
  intros HQ. induction t as [c| |f IH] using Task_induction; simpl.
  - apply HQ.
  - auto.
  - intros Hf s Hs. destruct (Hf s Hs) as [HI Ht]. split; [exact HI|].
    now apply IH.
Qed.

Lemma asyncAlways_mono {A} (Q Q' : Completion A -> Prop) m :
  (forall c, Q c -> Q' c) -> asyncAlways live I Q m -> asyncAlways live I Q' m.
Proof.
  intros HQ Hm s Hs. destruct (Hm s Hs) as [HI Ht]. split; [exact HI|].
  now apply (always_mono Q).
Qed.

Lemma always_andThen {A B} (Q : Completion A -> Prop)
  (Q' : Completion B -> Prop) t (k : Completion A -> Async B) :
  always live I Q t ->
  (forall c, Q c -> asyncAlways live I Q' (k c)) ->
  forall s, I s ->
    I (fst (andThen t k s)) /\ always live I Q' (snd (andThen t k s)).
Proof.
  intros Ht Hk. induction t as [c| |f IH] using Task_induction;
    intros s Hs; simpl in *.
  - now apply Hk.
  - auto.
  - split; [exact Hs|]. intros s' Hs'.
    destruct (Ht s' Hs') as [HI Ht']. specialize (IH s' Ht' (fst (f s')) HI).
    destruct (f s') as [s'' t']. exact IH.
Qed.

Lemma always_ret {A} (Q : Completion A -> Prop) a :
  Q (Return a) -> asyncAlways live I Q (ret a).
Proof. intros HQ s Hs. now split. Qed.

Lemma always_throw {A} (Q : Completion A -> Prop) e :
  Q (Throw e) -> asyncAlways live I Q (throw e).
Proof. intros HQ s Hs. now split. Qed.

Lemma always_sync {A} (Q : Completion A -> Prop) (f : State -> A * State) :
  (forall s, I s -> I (snd (f s)) /\ Q (Return (fst (f s)))) ->
  asyncAlways live I Q (sync f).
Proof.
  intros Hf s Hs. unfold sync. destruct (Hf s Hs) as [HI HQ].
  destruct (f s) as [a s']. now split.
Qed.

Lemma always_bind {A B} (Q : Completion A -> Prop)
  (Q' : Completion B -> Prop) m (k : A -> Async B) :
  asyncAlways live I Q m ->
  (forall a, Q (Return a) -> asyncAlways live I Q' (k a)) ->
  (forall e, Q (Throw e) -> Q' (Throw e)) ->
  asyncAlways live I Q' (bind m k).
Proof.
  intros Hm Hk He s Hs. unfold bind. destruct (Hm s Hs) as [HI Ht].
  destruct (m s) as [s1 t]. apply (always_andThen Q); auto.
  intros [a|e] Hc; [now apply Hk | apply always_throw; now apply He].
Qed.

Lemma always_tryCatch {A} (Q Q' : Completion A -> Prop) m h :
  asyncAlways live I Q m ->
  (forall a, Q (Return a) -> Q' (Return a)) ->
  (forall e, Q (Throw e) -> asyncAlways live I Q' (h e)) ->
  asyncAlways live I Q' (tryCatch m h).
Proof.
  intros Hm Ha Hh s Hs. unfold tryCatch. destruct (Hm s Hs) as [HI Ht].
  destruct (m s) as [s1 t]. apply (always_andThen Q); auto.
  intros [a|e] Hc; [apply always_ret; now apply Ha | now apply Hh].
Qed.

Lemma always_await {A} (Q : Completion A -> Prop) m :
  asyncAlways live I Q m -> asyncAlways live I Q (await m).
Proof.
  intros Hm s Hs. unfold await. destruct (Hm s Hs) as [HI Ht].
  destruct (m s) as [s1 t]. apply (always_andThen Q); auto.
  intros c Hc s' Hs'. simpl. split; [exact Hs'|]. intros s'' Hs''. now split.
Qed.

Lemma always_sleep (Q : Completion unit -> Prop) ms :
  stable I -> Q (Return tt) -> asyncAlways live I Q (sleep ms).
Proof.
  intros Hst HQ s Hs. simpl. split; [now apply (Hst s)|].
  intros s' Hs'. split; [now apply (Hst s') | exact HQ].
Qed.

(** Waiting alone for a promise that is good under every schedule. *)
Lemma always_finish {A} (Q : Completion A -> Prop) t : forall s,
  always live I Q t -> I s ->
  I (fst (finish t s)) /\ ended live Q (snd (finish t s)).
Proof.
  induction t as [c| |f IH] using Task_induction; intros s Ht Hs; simpl in *.
  - now split.
  - now split.
  - destruct (Ht s Hs) as [HI Ht']. specialize (IH s (fst (f s)) Ht' HI).
    destruct (f s) as [s' t']. exact IH.
Qed.

Lemma always_run {A} (Q : Completion A -> Prop) m s :
  asyncAlways live I Q m -> I s ->
  I (fst (run m s)) /\ ended live Q (snd (run m s)).
Proof.
  intros Hm Hs. unfold run. destruct (Hm s Hs) as [HI Ht].
  destruct (m s) as [s1 t]. now apply always_finish.
Qed.
End AlwaysRules.

Section JoinRules.
Context {RT : Runtime}.
Variable live : bool.
Variable I : State -> Prop.
Hypothesis I_stable : stable I.

Lemma stable_setWorld s w : I s -> I (setWorld w s).
Proof. intros Hs. now apply (I_stable s). Qed.

Lemma stable_record s e : I s -> I (record e s).
Proof. intros Hs. now apply (I_stable s). Qed.

Lemma joinCons_first {A} j f (rest : Task (list (Completion A))) :
  (forall g, rest <> Suspended g) ->
  joinCons j (Suspended f) rest =
  Suspended (fun s => let (s', t') := f s in (s', joinCons j t' rest)).
Proof. intros Hr. destruct rest as [c| |g]; try reflexivity. now destruct (Hr g). Qed.

Lemma joinCons_rest {A} j (t : Task A) g :
  (forall f, t <> Suspended f) ->
  joinCons j t (Suspended g) =
  Suspended (fun s => let (s', r') := g s in (s', joinCons j t r')).
Proof. intros Ht. destruct t as [c| |f]; try reflexivity. now destruct (Ht f). Qed.

Lemma joinCons_both {A} j (f : State -> State * Task A) g :
  joinCons j (Suspended f) (Suspended g) =
  Suspended (fun s =>
    let (first, w) := choose j (world s) in
    if first
    then let (s', t') := f (setWorld w s) in
         (s', joinCons j t' (Suspended g))
    else let (s', r') := g (setWorld w s) in
         (s', joinCons j (Suspended f) r')).
Proof. reflexivity. Qed.

(** A promise joined with the joined promise of the ones after it. *)
Lemma always_joinCons {A} (Q1 : Completion A -> Prop)
  (P : list (Completion A) -> Prop) j t : forall rest,
  always live I Q1 t ->
  always live I (fun c => exists cs, c = Return cs /\ P cs) rest ->
  always live I
    (fun c => exists c1 cs, c = Return (c1 :: cs) /\ Q1 c1 /\ P cs)
    (joinCons j t rest).
Proof.
  induction t as [c| |f IHt] using Task_induction;
    intros rest; induction rest as [c'| |g IHr] using Task_induction;
    intros Ht Hrest.
  - simpl in Hrest. destruct Hrest as (cs & -> & Hcs). simpl. eauto.
  - exact Hrest.
  - rewrite joinCons_rest by discriminate. simpl. intros s Hs.
    destruct (Hrest s Hs) as [HI Hr]. specialize (IHr s Ht Hr).
    destruct (g s) as [s' r']. now split.
  - destruct c' as [cs|e]; exact Ht.
  - exact Ht.
  - rewrite joinCons_rest by discriminate. simpl. intros s Hs.
    destruct (Hrest s Hs) as [HI Hr]. specialize (IHr s Ht Hr).
    destruct (g s) as [s' r']. now split.
  - rewrite joinCons_first by discriminate. simpl. intros s Hs.
    destruct (Ht s Hs) as [HI Ht']. specialize (IHt s _ Ht' Hrest).
    destruct (f s) as [s' t']. now split.
  - rewrite joinCons_first by discriminate. simpl. intros s Hs.
    destruct (Ht s Hs) as [HI Ht']. specialize (IHt s _ Ht' Hrest).
    destruct (f s) as [s' t']. now split.
  - rewrite joinCons_both. simpl. intros s Hs.
    destruct (choose j (world s)) as [[|] w].
    + pose proof (stable_setWorld s w Hs) as Hs'.
      destruct (Ht _ Hs') as [HI Ht']. specialize (IHt (setWorld w s) _ Ht' Hrest).
      destruct (f (setWorld w s)) as [s' t']. now split.
    + pose proof (stable_setWorld s w Hs) as Hs'.
      destruct (Hrest _ Hs') as [HI Hr]. specialize (IHr (setWorld w s) Ht Hr).
      destruct (g (setWorld w s)) as [s' r']. now split.
Qed.

(** [Promise.allSettled]: one completion per promise, in the order of the
    promises, each one as its own promise allows. *)
Lemma always_joinFrom {A} (Qs : list (Completion A -> Prop)) : forall j ts,
  Forall2 (fun Q t => always live I Q t) Qs ts ->
  always live I
    (fun c => exists cs, c = Return cs /\ Forall2 (fun Q c => Q c) Qs cs)
    (joinFrom j ts).
Proof.
  induction Qs as [|Q Qs IH]; intros j ts Hall.
  - apply Forall2_nil_inv_l in Hall as ->. simpl. exists []. split; auto.
  - apply Forall2_cons_inv_l in Hall as (t & ts' & Ht & Hts & ->).
    simpl joinFrom.
    apply (always_mono live I
             (fun c => exists c1 cs, c = Return (c1 :: cs) /\ Q c1 /\
                                     Forall2 (fun Q c => Q c) Qs cs)).
    + intros c (c1 & cs & -> & Hc1 & Hcs). exists (c1 :: cs).
      split; [reflexivity | now constructor].
    + apply always_joinCons; [exact Ht | now apply IH].
Qed.

Lemma always_startAll {A} (Qs : list (Completion A -> Prop)) : forall calls s,
  Forall2 (fun Q m => asyncAlways live I Q m) Qs calls -> I s ->
  I (fst (startAll calls s)) /\
  Forall2 (fun Q t => always live I Q t) Qs (snd (startAll calls s)).
Proof.
  induction Qs as [|Q Qs IH]; intros calls s Hall Hs.
  - apply Forall2_nil_inv_l in Hall as ->. simpl. split; [exact Hs | constructor].
  - apply Forall2_cons_inv_l in Hall as (m & calls' & Hm & Hcalls & ->).
    simpl. destruct (Hm s Hs) as [HI Ht]. destruct (m s) as [s1 t].
    destruct (IH calls' s1 Hcalls HI) as [HI' Hts].
    destruct (startAll calls' s1) as [s2 ts]. split; [exact HI'|].
    now constructor.
Qed.

Lemma always_allSettled {A} (Qs : list (Completion A -> Prop)) calls :
  Forall2 (fun Q m => asyncAlways live I Q m) Qs calls ->
  asyncAlways live I
    (fun c => exists cs, c = Return cs /\ Forall2 (fun Q c => Q c) Qs cs)
    (allSettled calls).
Proof.
  intros Hall s Hs. unfold allSettled.
  destruct (always_startAll Qs calls s Hall Hs) as [HI Hts].
  destruct (startAll calls s) as [s' ts]. split; [exact HI|].
  now apply always_joinFrom.
Qed.
End JoinRules.

(** ** The verifier under every schedule *)

Section SessionAddress.
Variable fromEmail : jsstring.
Variable addr : jsstring.

Lemma handleSmtpResponse_address line st o :
  In (Resolve o) (handleSmtpResponse fromEmail line addr st) -> email o = addr.
Proof.
  unfold handleSmtpResponse.
  destruct st; simpl;
    repeat match goal with
           | |- context [if ?b then _ else _] => destruct b
           end; simpl; intuition (try discriminate);
    match goal with H : Resolve _ = Resolve _ |- _ => now inversion H end.
Qed.

Lemma resolveOnce_resolvedFor o ss :
  email o = addr -> resolvedFor addr ss -> resolvedFor addr (resolveOnce o ss).
Proof.
  intros Ho Hss. unfold resolveOnce. destruct (isResolved ss); [exact Hss|].
  intros o' Hin. simpl in Hin. apply in_app_or in Hin as [Hin | [Hin | []]].
  - unfold cleanup in Hin. simpl in Hin.
    destruct (socketDestroyed ss); simpl in Hin; [now apply Hss|].
    apply in_app_or in Hin as [Hin | [Hin | []]];
      [now apply Hss | discriminate].
  - now inversion Hin; subst.
Qed.

Lemma rejectOnce_resolvedFor e ss :
  resolvedFor addr ss -> resolvedFor addr (rejectOnce e ss).
Proof.
  intros Hss. unfold rejectOnce. destruct (isResolved ss); [exact Hss|].
  intros o' Hin. simpl in Hin. apply in_app_or in Hin as [Hin | [Hin | []]].
  - unfold cleanup in Hin. simpl in Hin.
    destruct (socketDestroyed ss); simpl in Hin; [now apply Hss|].
    apply in_app_or in Hin as [Hin | [Hin | []]];
      [now apply Hss | discriminate].
  - discriminate.
Qed.

Lemma sendCommand_resolvedFor cmd ss :
  resolvedFor addr ss -> resolvedFor addr (sendCommand cmd ss).
Proof.
  intros Hss o Hin. simpl in Hin.
  apply in_app_or in Hin as [Hin | [Hin | []]];
    [now apply Hss | discriminate].
Qed.

Lemma actions_resolvedFor acts : forall ss,
  (forall o, In (Resolve o) acts -> email o = addr) ->
  resolvedFor addr ss ->
  resolvedFor addr (fold_left (fun acc a => perform a acc) acts ss).
Proof.
  induction acts as [|a acts IH]; intros ss Hacts Hss; [exact Hss|].
  simpl. apply IH; [intros o Ho; apply Hacts; now right|].
  destruct a as [cmd | o]; simpl.
  - now apply sendCommand_resolvedFor.
  - apply resolveOnce_resolvedFor; [apply Hacts; now left | exact Hss].
Qed.

Lemma onLine_resolvedFor ss line :
  resolvedFor addr ss -> resolvedFor addr (onLine fromEmail addr ss line).
Proof.
  intros Hss. unfold onLine. destruct (trim line); [exact Hss|].
  intros o Hin. simpl in Hin. revert o Hin.
  apply actions_resolvedFor; [|exact Hss].
  intros o. apply handleSmtpResponse_address.
Qed.

Lemma handleEvent_resolvedFor ev ss :
  resolvedFor addr ss -> resolvedFor addr (handleEvent fromEmail addr ev ss).
Proof.
  intros Hss. destruct ev; simpl; try exact Hss;
    try (now apply rejectOnce_resolvedFor).
  - unfold onData.
    generalize (removelast (splitCRLF (response ss ++ chunk))).
    assert (H0 : resolvedFor addr
              (setResponse (List.last (splitCRLF (response ss ++ chunk)) []) ss))
      by exact Hss.
    revert H0. generalize (setResponse
      (List.last (splitCRLF (response ss ++ chunk)) []) ss).
    intros ss0 H0 lines. revert ss0 H0.
    induction lines as [|l lines IH]; intros ss0 H0; [exact H0|].
    simpl. apply IH. now apply onLine_resolvedFor.
  - destruct (timerCleared ss); [exact Hss | now apply rejectOnce_resolvedFor].
  - destruct (isResolved ss); [exact Hss | now apply rejectOnce_resolvedFor].
Qed.

Lemma promise_resolved_in ss c :
  promiseState ss = Some c ->
  match c with
  | Return o => In (PromiseResolved o) (effects ss)
  | Throw e => In (PromiseRejected e) (effects ss)
  end.
Proof.
  unfold promiseState, settlementCalls.
  induction (effects ss) as [|e fx IH]; [discriminate|].
  destruct e; simpl.
  - intros H. specialize (IH H). destruct c; now right.
  - intros H. specialize (IH H). destruct c; now right.
  - intros [= <-]. now left.
  - intros [= <-]. now left.
Qed.
End SessionAddress.

Section VerifierAlways.
Context {RT : Runtime} {CF : Config}.
Variable live : bool.
Hypothesis sockets_settle : live = true -> settling.
Variable I : State -> Prop.
Hypothesis I_stable : stable I.
Variable addr : jsstring.

Lemma always_sessionTask evs : forall ss,
  resolvedFor addr ss -> promiseState ss = None ->
  (live = true ->
   promiseState (handleEvents fromEmail addr evs ss) <> None) ->
  always live I (forAddress addr) (sessionTask addr evs ss).
Proof.
  induction evs as [|ev evs IH]; intros ss Hfor Hnone Hlive.
  - simpl. destruct live; [|reflexivity].
    destruct (Hlive eq_refl). exact Hnone.
  - simpl. intros s Hs. split; [now apply stable_setWorld|].
    pose proof (handleEvent_resolvedFor fromEmail addr ev ss Hfor) as Hfor'.
    destruct (promiseState (handleEvent fromEmail addr ev ss)) as [c|] eqn:Hc.
    + simpl. apply promise_resolved_in in Hc.
      destruct c as [o|e]; [now apply Hfor' | exact Logic.I].
    + apply IH; auto.
Qed.

Lemma always_verifyWithMxRecord host :
  asyncAlways live I (forAddress addr) (verifyWithMxRecord addr host).
Proof.
  intros s Hs. unfold verifyWithMxRecord.
  pose proof (fun Hl => sockets_settle Hl host (world s) addr) as Hlive.
  destruct (connect host (world s)) as [evs w]. simpl in Hlive |- *.
  split; [now apply (I_stable s)|].
  apply always_sessionTask; [intros o [] | reflexivity | exact Hlive].
Qed.

Lemma always_getMxRecords domain :
  asyncAlways live I (fun c => exists r, c = Return r) (getMxRecords domain).
Proof.
  unfold getMxRecords.
  apply (always_tryCatch live I (fun _ => True)).
  - apply (always_bind live I (fun _ => True)).
    + apply always_await. destruct domain as [d|].
      * intros s Hs. simpl. split; [now apply stable_record|].
        intros s' Hs'. destruct (resolveMx d (world s')) as [c w].
        split; [now apply stable_setWorld | exact Logic.I].
      * now apply always_throw.
    + intros records _. now apply always_ret.
    + auto.
  - intros a _. eauto.
  - intros e _. apply always_ret. eauto.
Qed.

Lemma always_tryMxRecords hosts :
  asyncAlways live I (forAddress addr) (tryMxRecords addr hosts).
Proof.
  induction hosts as [|mx rest IH]; simpl tryMxRecords.
  - now apply always_ret.
  - apply (always_bind live I
             (fun c => match c with
                       | Return (Some o) => email o = addr
                       | _ => True
                       end)).
    + apply (always_tryCatch live I
               (fun c => match c with
                         | Return (Some o) => email o = addr
                         | _ => True
                         end)).
      * apply (always_bind live I (forAddress addr)).
        -- apply always_await. apply always_verifyWithMxRecord.
        -- intros o Ho.
           destruct (decide (status o <> st_connection_failed));
             now apply always_ret.
        -- auto.
      * auto.
      * intros e _. now apply always_ret.
    + intros [o|] Ho; [now apply always_ret | exact IH].
    + auto.
Qed.

Lemma always_verifyEmail :
  asyncAlways live I (forAddress addr) (verifyEmail addr).
Proof.
  unfold verifyEmail.
  apply (always_tryCatch live I (forAddress addr)); auto.
  - destruct (isValidEmailFormat addr); simpl negb; cbv iota.
    + apply (always_bind live I (fun c => exists r, c = Return r)).
      * apply always_await. apply always_getMxRecords.
      * intros [[|mx hosts]|] _; try (now apply always_ret).
        apply always_tryMxRecords.
      * intros e (r & Hr). discriminate.
    + now apply always_ret.
  - intros e _. now apply always_ret.
Qed.
End VerifierAlways.

Section PipelineAlways.
Context {RT : Runtime} {CF : Config}.
Variable live : bool.
Hypothesis sockets_settle : live = true -> settling.

Lemma cacheInv_stable : stable cacheInv.
Proof. intros s w l Hs key entry Hk. exact (Hs key entry Hk). Qed.

Lemma getFromCache_inv addr s :
  cacheInv s ->
  cacheInv (snd (getFromCache addr s)) /\
  match fst (getFromCache addr s) with
  | Some o => email o = addr
  | None => True
  end.
Proof.
  intros Hs. unfold getFromCache.
  destruct (cache s !! addr) as [entry|] eqn:Hc; [|now split].
  destruct (now (world s) - timestamp entry <? cacheExpiry); simpl.
  - split; [exact Hs | now apply (Hs addr)].
  - split; [|exact Logic.I]. intros key entry' Hk. simpl in Hk.
    apply lookup_delete_Some in Hk as [_ Hk]. now apply (Hs key).
Qed.

Lemma addToCache_inv addr o s :
  email o = addr -> cacheInv s -> cacheInv (snd (addToCache addr o s)).
Proof.
  intros Ho Hs key entry Hk. simpl in Hk.
  apply lookup_insert_Some in Hk as [[<- <-] | [_ Hk]];
    [exact Ho | now apply (Hs key)].
Qed.

Lemma checkRateLimit_inv domain s :
  cacheInv s -> cacheInv (snd (checkRateLimit domain s)).
Proof.
  intros Hs. unfold checkRateLimit.
  destruct (maxRequestsPerDomain <=? _); exact Hs.
Qed.

Lemma always_verifyEmailAdvanced addr :
  asyncAlways live cacheInv (forAddress addr) (verifyEmailAdvanced addr).
Proof.
  unfold verifyEmailAdvanced.
  apply (always_bind live cacheInv
           (fun c => match c with
                     | Return (Some o) => email o = addr
                     | _ => True
                     end)); auto.
  - apply always_sync. intros s Hs.
    destruct (getFromCache_inv addr s Hs) as [HI Ho]. split; [exact HI|].
    destruct (fst (getFromCache addr s)); exact Ho.
  - intros [o|] Ho; [now apply always_ret|].
    apply (always_bind live cacheInv (fun _ => True)); auto.
    + apply always_sync. intros s Hs. split; [|exact Logic.I].
      now apply checkRateLimit_inv.
    + intros [|] _; simpl negb; cbv iota; [|now apply always_ret].
      apply (always_bind live cacheInv (forAddress addr)); auto.
      * apply always_await.
        apply always_verifyEmail; [exact sockets_settle|].
        exact cacheInv_stable.
      * intros r Hr.
        apply (always_bind live cacheInv (fun _ => True)); auto.
        -- apply always_sync. intros s Hs. split; [|exact Logic.I].
           now apply addToCache_inv.
        -- intros _ _. now apply always_ret.
Qed.

Lemma always_verifyWithRetryFrom addr fuel : forall a,
  (Z.to_nat (retryAttempts + 1 - a) <= fuel)%nat ->
  asyncAlways live cacheInv (forAddress addr)
    (verifyWithRetryFrom fuel addr a).
Proof.
  induction fuel as [|fuel IH]; intros a Hfuel; simpl verifyWithRetryFrom.
  all: apply (always_bind live cacheInv
                (fun c => match c with
                          | Return (Done o) => email o = addr
                          | Return Again => a <= retryAttempts
                          | Throw _ => True
                          end)); auto.
  1,3: apply (always_tryCatch live cacheInv
                (fun c => match c with
                          | Return (Done o) => email o = addr
                          | Return Again => a <= retryAttempts
                          | Throw _ => True
                          end)); auto.
  1,3: apply (always_bind live cacheInv (forAddress addr)); auto;
       [ apply always_await; apply always_verifyEmailAdvanced
       | intros r Hr;
         destruct (bool_decide (status r = st_temporary_failure)); simpl andb;
         [ destruct (Z.leb_spec a retryAttempts) | ];
         try (now apply always_ret);
         apply (always_bind live cacheInv (fun _ => True)); auto;
         [ apply always_await; apply always_sleep;
           [exact cacheInv_stable | exact Logic.I]
         | intros _ _; now apply always_ret ] ].
  1,2: intros e _; destruct (Z.leb_spec a retryAttempts);
       [ apply (always_bind live cacheInv (fun _ => True)); auto;
         [ apply always_await; apply always_sleep;
           [exact cacheInv_stable | exact Logic.I]
         | intros _ _; now apply always_ret ]
       | now apply always_throw ].
  - intros [o|] Hn; [now apply always_ret|]. exfalso. lia.
  - intros [o|] Hn; [now apply always_ret|]. apply IH. lia.
Qed.

Lemma always_verifyWithRetry addr :
  asyncAlways live cacheInv (forAddress addr) (verifyWithRetry addr).
Proof. apply always_verifyWithRetryFrom. unfold Z.sub. lia. Qed.
End PipelineAlways.

(** ** The scheduler *)

Section SchedulerFacts.
Context {RT : Runtime} {CF : Config}.
Variable live : bool.
Hypothesis sockets_settle : live = true -> settling.

(** What the loop over [groupResults] pushes is, position by position, an
    outcome for the address of the group: the value of a fulfilled promise,
    or an error outcome built from [group[j]]. *)
Lemma pushed_positions cs : forall pre group,
  Forall2 (fun Q c => Q c) (List.map forAddress group) cs ->
  List.map email
    (imap (fun j => pushed (pre ++ group) (length pre + j)) cs) = group.
Proof.
  induction cs as [|c cs IH]; intros pre group Hall.
  - destruct group; [reflexivity | inversion Hall].
  - destruct group as [|a group]; [inversion Hall|].
    simpl in Hall. apply Forall2_cons in Hall as [Hc Hcs].
    rewrite imap_cons. simpl List.map. f_equal.
    + destruct c as [o|e]; [exact Hc|]. simpl.
      rewrite Nat.add_0_r. rewrite app_nth2 by lia.
      now rewrite Nat.sub_diag.
    + etransitivity; [|exact (IH (pre ++ [a]) group Hcs)]. f_equal.
      apply imap_ext. intros j c' _. simpl.
      rewrite <- app_assoc, length_app. simpl. f_equal. lia.
Qed.

Lemma group_calls group :
  Forall2 (fun Q m => asyncAlways live cacheInv Q m)
    (List.map forAddress group) (List.map verifyWithRetry group).
Proof.
  induction group as [|a group IH]; simpl; constructor; [|exact IH].
  now apply always_verifyWithRetry.
Qed.

Lemma always_processBatchFrom emails fuel : forall i results,
  (length emails - i <= fuel)%nat ->
  List.map email results = firstn i emails ->
  asyncAlways live cacheInv (forBatch emails)
    (processBatchFrom fuel emails i results).
Proof.
  induction fuel as [|fuel IH]; intros i results Hfuel Hres;
    simpl processBatchFrom.
  all: destruct (Nat.ltb_spec i (length emails)) as [Hlt|Hge];
    [ | apply always_ret; simpl; rewrite Hres; now apply take_ge ].
  - exfalso. lia.
  - set (group := slice emails i (i + Pos.to_nat concurrency)).
    apply (always_bind live cacheInv
             (fun c => exists cs,
                c = Return cs /\
                Forall2 (fun Q c => Q c) (List.map forAddress group) cs)).
    + apply always_await. apply always_allSettled;
        [exact cacheInv_stable | apply group_calls].
    + intros cs (cs' & [= <-] & Hcs).
      apply (always_bind live cacheInv (fun _ => True)); auto.
      * destruct (i + Pos.to_nat concurrency <? length emails)%nat.
        -- apply always_await. apply always_sleep;
             [exact cacheInv_stable | exact Logic.I].
        -- now apply always_ret.
      * intros _ _. apply IH; [lia|].
        rewrite List.map_app, Hres.
        assert (Hp : List.map email (imap (pushed group) cs) = group)
          by exact (pushed_positions cs [] group Hcs).
        rewrite Hp.
        unfold group, slice.
        replace (i + Pos.to_nat concurrency - i)%nat
          with (Pos.to_nat concurrency) by lia.
        apply take_take_drop.
    + intros e (cs & Hcs & _). discriminate.
Qed.

(** [processBatch] is a batch method as [processBulkEmails] needs it. *)
Lemma processBatch_spec : batchMethodSpec live cacheInv processBatch.
Proof.
  intros batch. apply always_processBatchFrom; [lia | reflexivity].
Qed.
End SchedulerFacts.

Section BulkFacts.
Context {RT : Runtime} {CF : Config}.
Variable live : bool.
Variable I : State -> Prop.
Hypothesis I_stable : stable I.
Variable method : list jsstring -> Async (list Outcome).
Hypothesis method_spec : batchMethodSpec live I method.
Variable saveIntermediate : bool.

Lemma batchError_positions e batch :
  List.map email (List.map (batchError e) batch) = batch /\
  Forall (fun o => status o = st_batch_error) (List.map (batchError e) batch).
Proof.
  induction batch as [|a batch [IH1 IH2]]; [split; [reflexivity | constructor]|].
  simpl. split; [now rewrite IH1 | now constructor].
Qed.

Lemma always_saveResults n :
  asyncAlways live I (fun c => c = Return tt) (saveResults n).
Proof.
  unfold saveResults.
  apply (always_tryCatch live I (fun c => forall u, c = Return u -> u = tt)).
  - apply (always_bind live I (fun _ => True)); auto.
    + apply always_await. intros s Hs. simpl.
      split; [now apply stable_record|]. intros s' Hs'.
      destruct (writeFile (world s')) as [c w].
      split; [now apply stable_setWorld | exact Logic.I].
    + intros _ _. apply always_ret. now intros u [= <-].
    + discriminate.
  - intros a Ha. now rewrite (Ha a eq_refl).
  - intros e _. now apply always_ret.
Qed.

(** The [try] statement adds one outcome per address of the batch, in
    order, whether [processBatch] returns or throws. *)
Lemma always_tryBatch batch n results :
  asyncAlways live I
    (fun c => exists rs,
       c = Return rs /\ List.map email rs = List.map email results ++ batch)
    (tryBatch method saveIntermediate batch n results).
Proof.
  unfold tryBatch.
  apply (always_bind live I
           (fun c => match c with
                     | Return (inr rs) => List.map email rs = batch
                     | Return (inl _) => True
                     | Throw _ => False
                     end)).
  - apply (always_tryCatch live I
             (fun c => match c with
                       | Return (inr rs) => List.map email rs = batch
                       | Return (inl _) => False
                       | Throw _ => True
                       end)).
    + apply (always_bind live I (forBatch batch)).
      * apply always_await. apply method_spec.
      * intros rs Hrs. now apply always_ret.
      * intros e _. exact Logic.I.
    + intros [e|rs] H; [destruct H | exact H].
    + intros e _. now apply always_ret.
  - intros [e|rs] Hrs.
    + apply always_ret. eexists. split; [reflexivity|].
      rewrite List.map_app. f_equal. apply batchError_positions.
    + apply (always_tryCatch live I
               (fun c => exists rs0, c = Return rs0 /\
                  List.map email rs0 = List.map email results ++ batch)).
      * apply (always_bind live I (fun c => c = Return tt)).
        -- destruct (saveIntermediate && (n mod 5 =? 0)%nat).
           ++ apply always_await. apply always_saveResults.
           ++ now apply always_ret.
        -- intros _ _. apply always_ret. eexists. split; [reflexivity|].
           rewrite List.map_app. now rewrite Hrs.
        -- discriminate.
      * auto.
      * intros e (rs0 & Hrs0 & _). discriminate.
  - intros e [].
Qed.

Lemma always_processBulkFrom emails fuel : forall i results,
  (length emails - i <= fuel)%nat ->
  List.map email results = firstn i emails ->
  asyncAlways live I
    (fun c => exists rs, c = Return rs /\ List.map email rs = emails)
    (processBulkFrom method saveIntermediate fuel emails i results).
Proof.
  induction fuel as [|fuel IH]; intros i results Hfuel Hres;
    simpl processBulkFrom.
  all: destruct (Nat.ltb_spec i (length emails)) as [Hlt|Hge];
    [ | apply always_ret; exists results; split; [reflexivity|];
        rewrite Hres; now apply take_ge ].
  - exfalso. lia.
  - set (batch := slice emails i (i + Pos.to_nat batchSize)).
    apply (always_bind live I
             (fun c => exists rs, c = Return rs /\
                List.map email rs = List.map email results ++ batch)).
    + apply always_tryBatch.
    + intros rs (rs' & [= <-] & Hrs).
      apply (always_bind live I (fun c => c = Return tt)).
      * destruct (i + Pos.to_nat batchSize <? length emails)%nat.
        -- apply always_await. apply always_sleep;
             [exact I_stable | reflexivity].
        -- now apply always_ret.
      * intros _ _. apply IH; [lia|].
        rewrite Hrs, Hres. unfold batch, slice.
        replace (i + Pos.to_nat batchSize - i)%nat
          with (Pos.to_nat batchSize) by lia.
        apply take_take_drop.
      * intros e He. discriminate.
    + intros e (rs & Hrs & _). discriminate.
Qed.

Lemma always_processBulkEmailsWith emails :
  asyncAlways live I
    (fun c => exists rs, c = Return rs /\ List.map email rs = emails)
    (processBulkEmailsWith method saveIntermediate emails).
Proof. apply always_processBulkFrom; [lia | reflexivity]. Qed.

(** A batch whose processing throws, seen from a run. *)
Lemma run_tryBatch_throw batch n results s s1 e :
  run (method batch) s = (s1, Some (Throw e)) ->
  run (tryBatch method saveIntermediate batch n results) s
  = (s1, Some (Return (results ++ List.map (batchError e) batch))).
Proof.
  intros Hrun. unfold tryBatch.
  rewrite run_bind, run_tryCatch, run_bind, run_await, Hrun.
  rewrite run_ret. apply run_ret.
Qed.
End BulkFacts.

Lemma cacheInv_initial {RT : Runtime} (w : World) : cacheInv (initialState w).
Proof. intros key entry Hk. simpl in Hk. now rewrite lookup_empty in Hk. Qed.

(** C8: from a state whose cache entries are filed under their own
    addresses, whatever the event loop does with the members of a group,
    [processBulkEmails] returns, if it returns, one outcome per input
    address, the outcome at position [i] being an outcome for address [i];
    it never throws; and it does return when every socket settles its
    session.  The same holds with any [processBatch] method that returns one
    outcome per address of its batch or throws: a batch whose processing
    throws gets a [batch_error] outcome for each of its addresses, in order,
    appended where the results of the batch would have been, and the loop
    goes on with the next batch. *)
Theorem scheduler_positions {RT : Runtime} {CF : Config}
  (emails : list jsstring) (saveIntermediate : bool) (s : State) :
  cacheInv s ->
  let final := run (processBulkEmails emails saveIntermediate) s in
  (snd final = None \/
   exists results,
     snd final = Some (Return results) /\
     length results = length emails /\ List.map email results = emails) /\
  (settling ->
   exists results,
     snd final = Some (Return results) /\
     length results = length emails /\ List.map email results = emails) /\
  cacheInv (fst final) /\
  (forall (I : State -> Prop) method s0,
     stable I -> batchMethodSpec false I method -> I s0 ->
     let final' :=
       run (processBulkEmailsWith method saveIntermediate emails) s0 in
     snd final' = None \/
     exists results,
       snd final' = Some (Return results) /\
       List.map email results = emails) /\
  (forall method batch n results s0 s1 e,
     run (method batch) s0 = (s1, Some (Throw e)) ->
     run (tryBatch method saveIntermediate batch n results) s0
     = (s1, Some (Return (results ++ List.map (batchError e) batch))) /\
     List.map email (List.map (batchError e) batch) = batch /\
     Forall (fun o => status o = st_batch_error)
       (List.map (batchError e) batch)).
Proof.
  intros Hs final.
  assert (Hgen : forall live (I : State -> Prop) method s0,
            stable I -> batchMethodSpec live I method -> I s0 ->
            let final' :=
              run (processBulkEmailsWith method saveIntermediate emails) s0 in
            I (fst final') /\
            ended live (fun c => exists rs, c = Return rs /\
                                 List.map email rs = emails) (snd final')).
  { intros live I method s0 HI Hm Hs0 final'. apply always_run; [|exact Hs0].
    now apply always_processBulkEmailsWith. }
  split; [|split; [|split; [|split]]].
  - destruct (Hgen false cacheInv processBatch s cacheInv_stable) as [_ He];
      [apply processBatch_spec; discriminate | exact Hs |].
    fold (processBulkEmails emails saveIntermediate) in He. fold final in He.
    destruct (snd final) as [c|]; [right | now left].
    destruct He as (rs & -> & Hrs). exists rs. split; [reflexivity|].
    split; [|exact Hrs]. now rewrite <- Hrs, length_map.
  - intros Hsettle.
    destruct (Hgen true cacheInv processBatch s cacheInv_stable) as [_ He];
      [apply processBatch_spec; intros _; exact Hsettle | exact Hs |].
    fold (processBulkEmails emails saveIntermediate) in He. fold final in He.
    destruct (snd final) as [c|]; [|discriminate].
    destruct He as (rs & -> & Hrs). exists rs. split; [reflexivity|].
    split; [|exact Hrs]. now rewrite <- Hrs, length_map.
  - destruct (Hgen false cacheInv processBatch s cacheInv_stable) as [HI _];
      [apply processBatch_spec; discriminate | exact Hs | exact HI].
  - intros I method s0 HI Hm Hs0 final'.
    destruct (Hgen false I method s0 HI Hm Hs0) as [_ He]. fold final' in He.
    destruct (snd final') as [c|]; [right; destruct He as (rs & -> & Hrs); eauto | now left].
  - intros method batch n results s0 s1 e Hrun.
    split; [now apply run_tryBatch_throw | apply batchError_positions].
Qed.

Lemma scheduler_positions_witness :
  let s := initialState (RT:=demoRuntime) (1000, [false; true; false]) in
  let final := run (processBulkEmails (CF:=demoConfig) demoEmails false) s in
  cacheInv s /\
  (snd final = None \/
   exists results,
     snd final = Some (Return results) /\
     length results = length demoEmails /\
     List.map email results = demoEmails).
Proof.
  intros s final. split; [apply cacheInv_initial|].
  exact (proj1 (@scheduler_positions demoRuntime demoConfig demoEmails false s
                  (cacheInv_initial _))).
Defined.

(** The run of the witness: five addresses in batches of two and groups of
    two, the event loop preferring the second member of a group at first. *)
Example scheduler_demo :
  let final := run (RT:=demoRuntime)
                 (processBulkEmails (CF:=demoConfig) demoEmails false)
                 (initialState (RT:=demoRuntime) (1000, [false; true; false])) in
  option_map (fun c => match c with
                       | Return rs =>
                           List.map (fun o => (email o, status o, fromCache o)) rs
                       | Throw _ => []
                       end) (snd final)
  = Some [(lit "user@example.org", st_valid, None);
          (lit "bad", st_invalid_format, None);
          (lit "user@greylist.test", st_temporary_failure, Some true);
          (lit "x@nowhere.test", st_no_mx_record, None);
          (lit "user@example.org", st_valid, Some true)].
Proof. vm_compute. reflexivity. Qed.

(** A [processBatch] that throws on the second batch only: its two
    addresses get [batch_error], the batches around it are processed. *)
Example scheduler_batch_error :
  let final := run (RT:=demoRuntime)
                 (processBulkEmailsWith (CF:=demoConfig)
                    (failingOn (CF:=demoConfig) (lit "x@nowhere.test"))
                    false demoEmails)
                 (initialState (RT:=demoRuntime) (1000, [])) in
  option_map (fun c => match c with
                       | Return rs => List.map (fun o => (email o, status o)) rs
                       | Throw _ => []
                       end) (snd final)
  = Some [(lit "user@example.org", st_valid);
          (lit "bad", st_invalid_format);
          (lit "user@greylist.test", st_batch_error);
          (lit "x@nowhere.test", st_batch_error);
          (lit "user@example.org", st_valid)].
Proof. vm_compute. reflexivity. Qed.

(** The sockets of the demonstration all settle their sessions. *)
Example demo_settling : settling (RT:=demoRuntime) (CF:=demoConfig).
Proof.
  intros host w addr. simpl connect. unfold demoNetwork.
  repeat case_decide; vm_compute; discriminate.
Qed.

(** Two members of one group for the same address: both run up to their
    first [await] before either goes on, so both miss the cache and both
    are counted by the limiter; neither outcome comes from the cache. *)
Example concurrent_duplicates :
  let final := run (RT:=demoRuntime)
                 (processBatch (CF:=demoConfig) [lit "bad"; lit "bad"])
                 (initialState (RT:=demoRuntime) (1000, [])) in
  option_map (fun c => match c with
                       | Return rs => List.map (fun o => (status o, fromCache o)) rs
                       | Throw _ => []
                       end) (snd final)
  = Some [(st_invalid_format, None); (st_invalid_format, None)] /\
  rateLimiter (fst final) !! None = Some [1000; 1000].
Proof. vm_compute. split; reflexivity. Qed.

(** * Further properties of the code *)

(** ** Line framing in the [data] handler *)

Section Framing.
Variable fromEmail : jsstring.
Variable addr : jsstring.

Lemma splitCRLF_single s : forall l, splitCRLF s = [l] -> l = s.
Proof.
  induction s as [|c rest IH]; intros l H; [now inversion H|].
  destruct rest as [|d rest']; [now inversion H|].
  rewrite splitCRLF_cons2 in H.
  destruct ((c =? 13) && (d =? 10))%N.
  - inversion H as [[Hl Hr]]. now destruct (splitCRLF_nonempty rest').
  - apply consFirst_single in H; [|apply splitCRLF_nonempty].
    destruct H as (l' & Hl' & ->). now rewrite (IH l' Hl').
Qed.

(** Splitting a text that goes on: the complete pieces stay, the last
    piece is split together with what follows. *)
Lemma splitCRLF_app n : forall x y,
  (length x <= n)%nat ->
  splitCRLF (x ++ y)
  = removelast (splitCRLF x) ++ splitCRLF (List.last (splitCRLF x) [] ++ y).
Proof.
  induction n as [|n IH]; intros x y Hlen.
  - destruct x; [reflexivity | simpl in Hlen; lia].
  - destruct x as [|c [|d rest]]; [reflexivity | reflexivity |].
    simpl in Hlen.
    change ((c :: d :: rest) ++ y) with (c :: d :: (rest ++ y)).
    rewrite !splitCRLF_cons2.
    destruct ((c =? 13) && (d =? 10))%N eqn:Hcd.
    + rewrite (IH rest y) by lia.
      pose proof (splitCRLF_nonempty rest) as Hne.
      destruct (splitCRLF rest) as [|p ps]; [congruence|]. reflexivity.
    + change (d :: rest ++ y) with ((d :: rest) ++ y).
      rewrite (IH (d :: rest) y) by (simpl; lia).
      pose proof (splitCRLF_nonempty (d :: rest)) as Hne.
      destruct (splitCRLF (d :: rest)) as [|p ps] eqn:Hp; [congruence|].
      destruct ps as [|p' ps'].
      * apply splitCRLF_single in Hp. subst p.
        change (removelast [d :: rest]) with (@nil jsstring).
        change (consFirst c [d :: rest]) with [c :: d :: rest].
        change (removelast [c :: d :: rest]) with (@nil jsstring).
        change (List.last [d :: rest] []) with (d :: rest).
        change (List.last [c :: d :: rest] []) with (c :: d :: rest).
        change ((c :: d :: rest) ++ y) with (c :: d :: (rest ++ y)).
        rewrite !app_nil_l. rewrite splitCRLF_cons2, Hcd. reflexivity.
      * reflexivity.
Qed.

Lemma last_app_nonempty {A} (l1 l2 : list A) d :
  l2 <> [] -> List.last (l1 ++ l2) d = List.last l2 d.
Proof.
  intros Hne. induction l1 as [|x l1 IH]; [reflexivity|].
  simpl. rewrite IH. destruct (l1 ++ l2) eqn:E; [|reflexivity].
  apply app_eq_nil in E as [_ E]. congruence.
Qed.

Lemma perform_setResponse r a ss :
  perform a (setResponse r ss) = setResponse r (perform a ss).
Proof.
  destruct a as [cmd | o]; [reflexivity|].
  destruct ss as [rs st [|] [|] tc fx]; reflexivity.
Qed.

Lemma actions_setResponse r acts : forall ss,
  fold_left (fun acc a => perform a acc) acts (setResponse r ss)
  = setResponse r (fold_left (fun acc a => perform a acc) acts ss).
Proof.
  induction acts as [|a acts IH]; intros ss; [reflexivity|].
  simpl. now rewrite perform_setResponse, IH.
Qed.

Lemma onLine_setResponse r ss line :
  onLine fromEmail addr (setResponse r ss) line
  = setResponse r (onLine fromEmail addr ss line).
Proof.
  unfold onLine. destruct (trim line); [reflexivity|].
  change (step (setResponse r ss)) with (step ss).
  now rewrite actions_setResponse.
Qed.

Lemma lines_setResponse r lines : forall ss,
  fold_left (onLine fromEmail addr) lines (setResponse r ss)
  = setResponse r (fold_left (onLine fromEmail addr) lines ss).
Proof.
  induction lines as [|l lines IH]; intros ss; [reflexivity|].
  simpl. now rewrite onLine_setResponse, IH.
Qed.

Lemma onData_response chunk ss :
  response (onData fromEmail addr chunk ss)
  = List.last (splitCRLF (response ss ++ chunk)) [].
Proof.
  unfold onData. rewrite lines_setResponse. reflexivity.
Qed.

Lemma onData_app a b ss :
  onData fromEmail addr b (onData fromEmail addr a ss)
  = onData fromEmail addr (a ++ b) ss.
Proof.
  unfold onData at 1 3. rewrite onData_response.
  rewrite (app_assoc (response ss) a b).
  rewrite (splitCRLF_app _ (response ss ++ a) b (Nat.le_refl _)).
  set (la := splitCRLF (response ss ++ a)).
  set (lb := splitCRLF (List.last la [] ++ b)).
  assert (Hlb : lb <> []) by apply splitCRLF_nonempty.
  rewrite removelast_app by exact Hlb.
  rewrite last_app_nonempty by exact Hlb.
  rewrite fold_left_app. f_equal.
  unfold onData. fold la.
  rewrite !lines_setResponse. reflexivity.
Qed.

Lemma reads_concat chunks : forall ss,
  handleEvents fromEmail addr (List.map EvData chunks) ss
  = match chunks with
    | [] => ss
    | _ :: _ => onData fromEmail addr (concat chunks) ss
    end.
Proof.
  induction chunks as [|a chunks IH]; intros ss; [reflexivity|].
  simpl. change (fold_left _ (List.map EvData chunks) ?x)
    with (handleEvents fromEmail addr (List.map EvData chunks) x).
  rewrite IH. destruct chunks as [|b chunks'].
  - simpl. now rewrite app_nil_r.
  - now rewrite onData_app.
Qed.
End Framing.

(** X1: the [data] handler frames lines over reads: handling a read with
    text [a] and then a read with text [b] leaves the session exactly as
    handling one read with text [a ++ b] does, whatever the session and
    wherever the cut falls (inside a line, or between the two units of a
    line terminator). *)
Theorem reads_are_framed (fromEmail addr a b : jsstring) (ss : Session) :
  handleEvent fromEmail addr (EvData b)
    (handleEvent fromEmail addr (EvData a) ss)
  = handleEvent fromEmail addr (EvData (a ++ b)) ss.
Proof.
  cbn [handleEvent].
  exact (onData_app fromEmail addr a b ss).
Qed.

(** ** The conversation *)

Section Conversation.
Variable fromEmail : jsstring.
Variable addr : jsstring.

Lemma splitCRLF_reply g rest :
  splitCRLF g = [g] -> splitCRLF (g ++ CRLF ++ rest) = g :: splitCRLF rest.
Proof.
  induction g as [|c g' IH]; intros H; [reflexivity|].
  destruct g' as [|d g''].
  { change ([c] ++ CRLF ++ rest) with (c :: 13%N :: 10%N :: rest).
    rewrite splitCRLF_cons2. rewrite andb_false_r.
    rewrite splitCRLF_cons2. reflexivity. }
  change ((c :: d :: g'') ++ CRLF ++ rest)
    with (c :: d :: (g'' ++ CRLF ++ rest)).
  rewrite splitCRLF_cons2. rewrite splitCRLF_cons2 in H.
  destruct ((c =? 13) && (d =? 10))%N; [discriminate|].
  apply consFirst_single in H; [|apply splitCRLF_nonempty].
  destruct H as (l' & Hl' & Heq). injection Heq as <-.
  change (d :: g'' ++ CRLF ++ rest) with ((d :: g'') ++ CRLF ++ rest).
  rewrite (IH Hl'). reflexivity.
Qed.

(** The text of complete reply lines is split into these lines and an
    empty rest. *)
Lemma splitCRLF_replies lines :
  Forall replyLine lines ->
  splitCRLF (concat (List.map (fun l => l ++ CRLF) lines)) = lines ++ [[]].
Proof.
  induction 1 as [|l lines [Hl _] _ IH]; [reflexivity|].
  simpl. rewrite <- app_assoc. rewrite (splitCRLF_reply l _ Hl).
  now rewrite IH.
Qed.

Lemma onData_replies lines ss :
  Forall replyLine lines -> response ss = [] ->
  onData fromEmail addr (concat (List.map (fun l => l ++ CRLF) lines)) ss
  = fold_left (onLine fromEmail addr) lines ss.
Proof.
  intros Hlines Hresp. unfold onData. rewrite Hresp, app_nil_l.
  rewrite (splitCRLF_replies lines Hlines).
  rewrite removelast_last, last_last.
  destruct ss as [rs st ir sd tc fx]. simpl in Hresp. subst rs. reflexivity.
Qed.

Lemma onLine_reply ss line :
  replyLine line ->
  onLine fromEmail addr ss line
  = setStep (getNextStep (step ss) line)
      (fold_left (fun acc a => perform a acc)
         (handleSmtpResponse fromEmail line addr (step ss)) ss).
Proof.
  intros [_ Hne]. unfold onLine. destruct (trim line); [congruence|reflexivity].
Qed.

Lemma greeting_accepted ss line :
  step ss = step_connect -> replyLine line -> replyCode line = Some 220 ->
  onLine fromEmail addr ss line
  = setStep step_ehlo (sendCommand ehloCommand ss).
Proof.
  intros Hst Hl Hc. rewrite (onLine_reply ss line Hl), Hst.
  unfold handleSmtpResponse, getNextStep. fold (replyCode line).
  rewrite Hc. reflexivity.
Qed.

Lemma ehlo_accepted ss line :
  step ss = step_ehlo -> replyLine line -> replyCode line = Some 250 ->
  onLine fromEmail addr ss line
  = setStep step_mail_from (sendCommand (mailFromCommand fromEmail) ss).
Proof.
  intros Hst Hl Hc. rewrite (onLine_reply ss line Hl), Hst.
  unfold handleSmtpResponse, getNextStep. fold (replyCode line).
  rewrite Hc. reflexivity.
Qed.

Lemma ehlo_refused ss line :
  step ss = step_ehlo -> replyLine line -> replyCode line <> Some 250 ->
  onLine fromEmail addr ss line
  = setStep step_helo (sendCommand heloCommand ss).
Proof.
  intros Hst Hl Hc. rewrite (onLine_reply ss line Hl), Hst.
  unfold handleSmtpResponse, getNextStep. fold (replyCode line).
  assert (Hf : codeIs (replyCode line) 250 = false).
  { destruct (replyCode line) as [c|]; [|reflexivity]. simpl.
    destruct (Z.eqb_spec c 250); [congruence | reflexivity]. }
  rewrite Hf. reflexivity.
Qed.

Lemma helo_accepted ss line :
  step ss = step_helo -> replyLine line -> replyCode line = Some 250 ->
  onLine fromEmail addr ss line
  = setStep step_mail_from (sendCommand (mailFromCommand fromEmail) ss).
Proof.
  intros Hst Hl Hc. rewrite (onLine_reply ss line Hl), Hst.
  unfold handleSmtpResponse, getNextStep. fold (replyCode line).
  rewrite Hc. reflexivity.
Qed.

Lemma sender_accepted ss line :
  step ss = step_mail_from -> replyLine line -> replyCode line = Some 250 ->
  onLine fromEmail addr ss line
  = setStep step_rcpt_to (sendCommand (rcptToCommand addr) ss).
Proof.
  intros Hst Hl Hc. rewrite (onLine_reply ss line Hl), Hst.
  unfold handleSmtpResponse, getNextStep. fold (replyCode line).
  rewrite Hc. reflexivity.
Qed.

(** In the last step QUIT is sent and the promise resolved, with an
    outcome for the address that carries the line. *)
Lemma recipient_actions line :
  exists o,
    handleSmtpResponse fromEmail line addr step_rcpt_to
    = [Send quitCommand; Resolve o] /\
    email o = addr /\ smtpResponse o = Some line /\
    (status o = st_valid <-> replyCode line = Some 250).
Proof.
  unfold handleSmtpResponse. fold (replyCode line).
  assert (Hc : codeIs (replyCode line) 250 = true <-> replyCode line = Some 250).
  { destruct (replyCode line) as [c|]; simpl; [|split; discriminate].
    destruct (Z.eqb_spec c 250); split; congruence. }
  destruct (codeIs (replyCode line) 250).
  - eexists. split; [reflexivity|]. simpl. intuition.
  - assert (Hn : replyCode line <> Some 250)
      by (intros H; apply Hc in H; discriminate).
    destruct (codeGe (replyCode line) 500 && codeLe (replyCode line) 599);
      [|destruct (codeGe (replyCode line) 400 && codeLe (replyCode line) 499)];
      eexists; (split; [reflexivity|]); simpl;
      (split; [reflexivity|]); (split; [reflexivity|]);
      split; intros H; try discriminate; contradiction.
Qed.

Lemma recipient_answered ss line o :
  step ss = step_rcpt_to -> replyLine line ->
  handleSmtpResponse fromEmail line addr step_rcpt_to
  = [Send quitCommand; Resolve o] ->
  onLine fromEmail addr ss line
  = setStep step_quit (resolveOnce o (sendCommand quitCommand ss)).
Proof.
  intros Hst Hl Ho. rewrite (onLine_reply ss line Hl), Hst, Ho. reflexivity.
Qed.
End Conversation.

(** X2: the conversation that is accepted at once.  When the text of the
    reads, however it is cut into reads, consists of four complete
    non-blank lines, the first with code 220 and the next two with code
    250, a new session writes EHLO, MAIL FROM, RCPT TO and QUIT, in this
    order and nothing else, destroys the socket and resolves its promise
    with the outcome that [handleSmtpResponse] builds from the fourth line
    in the step [rcpt_to].  Every non-blank line advances the step: the
    lines need not answer different commands. *)
Theorem conversation_accepted (fromEmail addr g e m r : jsstring)
  (chunks : list jsstring) :
  replyLine g -> replyLine e -> replyLine m -> replyLine r ->
  replyCode g = Some 220 -> replyCode e = Some 250 ->
  replyCode m = Some 250 ->
  concat chunks = g ++ CRLF ++ e ++ CRLF ++ m ++ CRLF ++ r ++ CRLF ->
  exists o,
    handleSmtpResponse fromEmail r addr step_rcpt_to
    = [Send quitCommand; Resolve o] /\
    let ss := handleEvents fromEmail addr (List.map EvData chunks) newSession in
    effects ss
    = [Written (ehloCommand ++ CRLF);
       Written (mailFromCommand fromEmail ++ CRLF);
       Written (rcptToCommand addr ++ CRLF);
       Written (quitCommand ++ CRLF);
       Destroyed; PromiseResolved o] /\
    promiseState ss = Some (Return o) /\ step ss = step_quit.
Proof.
  intros Hg He Hm Hr Cg Ce Cm Htext.
  destruct (recipient_actions fromEmail addr r) as (o & Ho & _).
  exists o. split; [exact Ho|]. intros ss.
  assert (Hss : ss = fold_left (onLine fromEmail addr) [g; e; m; r] newSession).
  { unfold ss. rewrite reads_concat. destruct chunks as [|c chunks'].
    - destruct g; discriminate.
    - rewrite Htext.
      rewrite <- (onData_replies fromEmail addr [g; e; m; r] newSession);
        [|repeat (constructor; [assumption|]); constructor | reflexivity].
      simpl. now rewrite <- !app_assoc, app_nil_r. }
  rewrite Hss. simpl fold_left.
  rewrite (greeting_accepted fromEmail addr _ g) by first [reflexivity | assumption].
  rewrite (ehlo_accepted fromEmail addr _ e) by first [reflexivity | assumption].
  rewrite (sender_accepted fromEmail addr _ m) by first [reflexivity | assumption].
  rewrite (recipient_answered fromEmail addr _ r o) by first [reflexivity | assumption].
  repeat split.
Qed.

Lemma conversation_accepted_witness :
  exists o,
    handleSmtpResponse (lit "test@example.com") (lit "550 5.1.1 No such user")
      (lit "user@example.org") step_rcpt_to
    = [Send quitCommand; Resolve o] /\
    let ss := handleEvents (lit "test@example.com") (lit "user@example.org")
                (List.map EvData
                   [lit "220 mx ESMTP" ++ CRLF ++ lit "250-mx" ++ CRLF;
                    lit "250 HELP" ++ [13%N];
                    [10%N] ++ lit "550 5.1.1 No such user" ++ CRLF])
                newSession in
    effects ss
    = [Written (ehloCommand ++ CRLF);
       Written (mailFromCommand (lit "test@example.com") ++ CRLF);
       Written (rcptToCommand (lit "user@example.org") ++ CRLF);
       Written (quitCommand ++ CRLF);
       Destroyed; PromiseResolved o] /\
    promiseState ss = Some (Return o) /\ step ss = step_quit.
Proof.
  apply (conversation_accepted (lit "test@example.com")
           (lit "user@example.org") (lit "220 mx ESMTP") (lit "250-mx")
           (lit "250 HELP") (lit "550 5.1.1 No such user"));
    try (split; [reflexivity | discriminate]); reflexivity.
Defined.

(** X3: the fallback to HELO.  When the line that follows the greeting
    does not have code 250, HELO is written instead of MAIL FROM; with code
    250 on the two lines after that, the session writes EHLO, HELO, MAIL
    FROM, RCPT TO and QUIT and resolves with the outcome built from the
    fifth line. *)
Theorem conversation_falls_back_to_helo (fromEmail addr g e h m r : jsstring)
  (chunks : list jsstring) :
  replyLine g -> replyLine e -> replyLine h -> replyLine m -> replyLine r ->
  replyCode g = Some 220 -> replyCode e <> Some 250 ->
  replyCode h = Some 250 -> replyCode m = Some 250 ->
  concat chunks
  = g ++ CRLF ++ e ++ CRLF ++ h ++ CRLF ++ m ++ CRLF ++ r ++ CRLF ->
  exists o,
    handleSmtpResponse fromEmail r addr step_rcpt_to
    = [Send quitCommand; Resolve o] /\
    let ss := handleEvents fromEmail addr (List.map EvData chunks) newSession in
    effects ss
    = [Written (ehloCommand ++ CRLF);
       Written (heloCommand ++ CRLF);
       Written (mailFromCommand fromEmail ++ CRLF);
       Written (rcptToCommand addr ++ CRLF);
       Written (quitCommand ++ CRLF);
       Destroyed; PromiseResolved o] /\
    promiseState ss = Some (Return o) /\ step ss = step_quit.
Proof.
  intros Hg He Hh Hm Hr Cg Ce Ch Cm Htext.
  destruct (recipient_actions fromEmail addr r) as (o & Ho & _).
  exists o. split; [exact Ho|]. intros ss.
  assert (Hss : ss = fold_left (onLine fromEmail addr) [g; e; h; m; r]
                       newSession).
  { unfold ss. rewrite reads_concat. destruct chunks as [|c chunks'].
    - destruct g; discriminate.
    - rewrite Htext.
      rewrite <- (onData_replies fromEmail addr [g; e; h; m; r] newSession);
        [|repeat (constructor; [assumption|]); constructor | reflexivity].
      simpl. now rewrite <- !app_assoc, app_nil_r. }
  rewrite Hss. simpl fold_left.
  rewrite (greeting_accepted fromEmail addr _ g) by first [reflexivity | assumption].
  rewrite (ehlo_refused fromEmail addr _ e) by first [reflexivity | assumption].
  rewrite (helo_accepted fromEmail addr _ h) by first [reflexivity | assumption].
  rewrite (sender_accepted fromEmail addr _ m) by first [reflexivity | assumption].
  rewrite (recipient_answered fromEmail addr _ r o) by first [reflexivity | assumption].
  repeat split.
Qed.

Lemma conversation_falls_back_to_helo_witness :
  exists o,
    handleSmtpResponse (lit "test@example.com") (lit "250 2.1.5 Ok")
      (lit "user@example.org") step_rcpt_to
    = [Send quitCommand; Resolve o] /\
    let ss := handleEvents (lit "test@example.com") (lit "user@example.org")
                (List.map EvData
                   [lit "220 mx SMTP" ++ CRLF;
                    lit "502 unknown command" ++ CRLF;
                    lit "250 mx" ++ CRLF ++ lit "250 Ok" ++ CRLF;
                    lit "250 2.1.5 Ok" ++ CRLF])
                newSession in
    effects ss
    = [Written (ehloCommand ++ CRLF);
       Written (heloCommand ++ CRLF);
       Written (mailFromCommand (lit "test@example.com") ++ CRLF);
       Written (rcptToCommand (lit "user@example.org") ++ CRLF);
       Written (quitCommand ++ CRLF);
       Destroyed; PromiseResolved o] /\
    promiseState ss = Some (Return o) /\ step ss = step_quit.
Proof.
  apply (conversation_falls_back_to_helo (lit "test@example.com")
           (lit "user@example.org") (lit "220 mx SMTP")
           (lit "502 unknown command") (lit "250 mx") (lit "250 Ok")
           (lit "250 2.1.5 Ok"));
    try (split; [reflexivity | discriminate]);
    try reflexivity; discriminate.
Defined.

(** ** What a session resolves with *)

Section SessionOutcomes.
Variable fromEmail : jsstring.
Variable addr : jsstring.
Variable P : Outcome -> Prop.

Lemma resolveOnce_resolvedWith o ss :
  P o -> resolvedWith P ss -> resolvedWith P (resolveOnce o ss).
Proof.
  intros Ho Hss. unfold resolveOnce. destruct (isResolved ss); [exact Hss|].
  intros o' Hin. simpl in Hin. apply in_app_or in Hin as [Hin | [Hin | []]].
  - unfold cleanup in Hin. simpl in Hin.
    destruct (socketDestroyed ss); simpl in Hin; [now apply Hss|].
    apply in_app_or in Hin as [Hin | [Hin | []]];
      [now apply Hss | discriminate].
  - now inversion Hin; subst.
Qed.

Lemma rejectOnce_resolvedWith e ss :
  resolvedWith P ss -> resolvedWith P (rejectOnce e ss).
Proof.
  intros Hss. unfold rejectOnce. destruct (isResolved ss); [exact Hss|].
  intros o' Hin. simpl in Hin. apply in_app_or in Hin as [Hin | [Hin | []]].
  - unfold cleanup in Hin. simpl in Hin.
    destruct (socketDestroyed ss); simpl in Hin; [now apply Hss|].
    apply in_app_or in Hin as [Hin | [Hin | []]];
      [now apply Hss | discriminate].
  - discriminate.
Qed.

Lemma sendCommand_resolvedWith cmd ss :
  resolvedWith P ss -> resolvedWith P (sendCommand cmd ss).
Proof.
  intros Hss o Hin. simpl in Hin.
  apply in_app_or in Hin as [Hin | [Hin | []]];
    [now apply Hss | discriminate].
Qed.

Lemma actions_resolvedWith acts : forall ss,
  (forall o, In (Resolve o) acts -> P o) ->
  resolvedWith P ss ->
  resolvedWith P (fold_left (fun acc a => perform a acc) acts ss).
Proof.
  induction acts as [|a acts IH]; intros ss Hacts Hss; [exact Hss|].
  simpl. apply IH; [intros o Ho; apply Hacts; now right|].
  destruct a as [cmd | o]; simpl.
  - now apply sendCommand_resolvedWith.
  - apply resolveOnce_resolvedWith; [apply Hacts; now left | exact Hss].
Qed.

Hypothesis P_built : forall line st o,
  trim line <> [] ->
  In (Resolve o) (handleSmtpResponse fromEmail line addr st) -> P o.

Lemma onLine_resolvedWith ss line :
  resolvedWith P ss -> resolvedWith P (onLine fromEmail addr ss line).
Proof.
  intros Hss. unfold onLine. destruct (trim line) as [|t ts] eqn:Ht;
    [exact Hss|].
  intros o Hin. simpl in Hin. revert o Hin.
  apply actions_resolvedWith; [|exact Hss].
  intros o. apply P_built. rewrite Ht. discriminate.
Qed.

Lemma handleEvent_resolvedWith ev ss :
  resolvedWith P ss -> resolvedWith P (handleEvent fromEmail addr ev ss).
Proof.
  intros Hss. destruct ev; simpl; try exact Hss;
    try (now apply rejectOnce_resolvedWith).
  - unfold onData.
    generalize (removelast (splitCRLF (response ss ++ chunk))).
    assert (H0 : resolvedWith P
              (setResponse (List.last (splitCRLF (response ss ++ chunk)) []) ss))
      by exact Hss.
    revert H0. generalize (setResponse
      (List.last (splitCRLF (response ss ++ chunk)) []) ss).
    intros ss0 H0 lines. revert ss0 H0.
    induction lines as [|l lines IH]; intros ss0 H0; [exact H0|].
    simpl. apply IH. now apply onLine_resolvedWith.
  - destruct (timerCleared ss); [exact Hss | now apply rejectOnce_resolvedWith].
  - destruct (isResolved ss); [exact Hss | now apply rejectOnce_resolvedWith].
Qed.

Lemma handleEvents_resolvedWith evs : forall ss,
  resolvedWith P ss -> resolvedWith P (handleEvents fromEmail addr evs ss).
Proof.
  induction evs as [|ev evs IH]; intros ss Hss; [exact Hss|].
  simpl. apply IH. now apply handleEvent_resolvedWith.
Qed.
End SessionOutcomes.

Lemma handleSmtpResponse_outcome fromEmail addr line st o :
  trim line <> [] ->
  In (Resolve o) (handleSmtpResponse fromEmail line addr st) ->
  sessionOutcome addr o.
Proof.
  intros Hne. unfold handleSmtpResponse.
  destruct st; simpl;
    repeat match goal with
           | |- context [if ?b then _ else _] => destruct b
           end; simpl; intuition (try discriminate);
    match goal with
    | H : Resolve _ = Resolve _ |- _ => inversion H; subst; clear H
    end;
    (split; [reflexivity|]); (split; [reflexivity|]);
    (split; [simpl; split; (reflexivity || discriminate)|]);
    (split; [exists line; now split | reflexivity]).
Qed.

(** X4: what a probe session can resolve with.  Whatever the events,
    an outcome that the promise of [verifyWithMxRecord] is resolved with is
    for the address of the session, has one of the seven statuses
    connection_rejected, handshake_failed, mail_from_rejected, valid,
    invalid, temporary_failure and unknown_response (never
    connection_failed, so that the loop of [verifyEmail] returns the outcome
    of the first exchange whose session resolves at all), has [isValid]
    true exactly when the status is valid, carries the non-blank line that
    decided it as [smtpResponse], and has no [fromCache]. *)
Theorem session_outcomes (fromEmail addr : jsstring) (evs : list SocketEvent)
  (o : Outcome) :
  promiseState (handleEvents fromEmail addr evs newSession) = Some (Return o) ->
  sessionOutcome addr o /\ status o <> st_connection_failed.
Proof.
  intros Hp. apply promise_resolved_in in Hp.
  assert (Ho : sessionOutcome addr o).
  { revert o Hp.
    apply (handleEvents_resolvedWith fromEmail addr (sessionOutcome addr)).
    - intros line st o. apply handleSmtpResponse_outcome.
    - intros o []. }
  split; [exact Ho|]. destruct Ho as (_ & Hst & _).
  intros Hcf. rewrite Hcf in Hst. discriminate.
Qed.

Lemma session_outcomes_witness :
  let o := {| email := lit "user@example.org"; isValid := false;
              status := st_connection_rejected;
              message := lit "Connection rejected: 554 go away";
              smtpResponse := Some (lit "554 go away");
              fromCache := None |} in
  sessionOutcome (lit "user@example.org") o /\
  status o <> st_connection_failed.
Proof.
  exact (session_outcomes (lit "test@example.com") (lit "user@example.org")
           [EvData (lit "55"); EvData (lit "4 go away" ++ CRLF ++ lit "25");
            EvTimer] _ eq_refl).
Defined.

(** ** The commands before an outcome *)

Section Tracking.
Variable fromEmail : jsstring.
Variable addr : jsstring.

Ltac session_step :=
  cbn [fold_left perform sendCommand resolveOnce rejectOnce emit cleanup
       setResolved setStep setResponse isResolved socketDestroyed effects
       step timerCleared response].

Lemma codeIs_true code n : codeIs code n = true -> code = Some n.
Proof.
  destruct code as [c|]; simpl; [|discriminate].
  destruct (Z.eqb_spec c n); [congruence | discriminate].
Qed.

(** Once the promise is settled, lines only add writes. *)
Lemma actions_after_settlement acts : forall ss,
  isResolved ss = true ->
  let ss' := fold_left (fun acc a => perform a acc) acts ss in
  isResolved ss' = true /\
  exists more, effects ss' = effects ss ++ more /\ Forall isWritten more.
Proof.
  induction acts as [|a acts IH]; intros ss Hr ss'.
  - split; [exact Hr|]. exists []. split; [now rewrite app_nil_r | constructor].
  - destruct a as [cmd | o].
    + destruct (IH (sendCommand cmd ss) Hr) as (Hr' & more & He & Hw).
      split; [exact Hr'|]. exists (Written (cmd ++ CRLF) :: more).
      split; [|constructor; [exact Logic.I | exact Hw]].
      unfold ss'. simpl fold_left. rewrite He. simpl.
      now rewrite <- app_assoc.
    + unfold ss'. simpl fold_left. unfold resolveOnce. rewrite Hr.
      now apply IH.
Qed.

Lemma onLine_after_settlement ss line :
  isResolved ss = true ->
  let ss' := onLine fromEmail addr ss line in
  isResolved ss' = true /\
  exists more, effects ss' = effects ss ++ more /\ Forall isWritten more.
Proof.
  intros Hr ss'. unfold ss', onLine. destruct (trim line).
  - split; [exact Hr|]. exists []. split; [now rewrite app_nil_r | constructor].
  - exact (actions_after_settlement _ ss Hr).
Qed.

Lemma tracked_settled ss ss' :
  tracked fromEmail addr ss -> isResolved ss = true ->
  isResolved ss' = true ->
  (exists more, effects ss' = effects ss ++ more /\ Forall isWritten more) ->
  tracked fromEmail addr ss'.
Proof.
  intros [(Hf & _) | [(_ & c & pre & post & He & Hw & Ha) |
                       (_ & e & pre & post & He & Hw)]]
         Hr Hr' (more & He' & Hm);
    [congruence | |].
  - right. left. split; [exact Hr'|]. exists c, pre, (post ++ more).
    split; [|split; [now apply Forall_app | exact Ha]].
    rewrite He', He. now rewrite <- !app_assoc.
  - right. right. split; [exact Hr'|]. exists e, pre, (post ++ more).
    split; [|now apply Forall_app].
    rewrite He', He. now rewrite <- !app_assoc.
Qed.

Lemma onLine_tracked ss line :
  tracked fromEmail addr ss -> tracked fromEmail addr (onLine fromEmail addr ss line).
Proof.
  intros Ht. destruct (isResolved ss) eqn:Hr.
  { destruct (onLine_after_settlement ss line Hr) as [Hr' Hm].
    exact (tracked_settled ss _ Ht Hr Hr' Hm). }
  destruct Ht as [(_ & Hd & Hq & ws & He & Htr) | [(Hr' & _) | (Hr' & _)]];
    [|congruence|congruence].
  unfold onLine. destruct (trim line) as [|t ts] eqn:Hne.
  { left. repeat split; try assumption. now exists ws. }
  destruct ss as [rs st ir sd tc fx].
  cbn [isResolved socketDestroyed effects step] in *. subst ir sd fx.
  unfold handleSmtpResponse, getNextStep. fold (replyCode line).
  unfold tracked.
  destruct st; cbv beta zeta iota delta [transcript] in Htr; try congruence.
  - (* connect *)
    subst ws. destruct (codeIs (replyCode line) 220); session_step.
    + left. repeat split; try discriminate. now exists [ehloCommand ++ CRLF].
    + right. left. split; [reflexivity|]. eexists (Return _), [], [].
      split; [reflexivity|]. split; [constructor|]. split; [reflexivity|].
      discriminate.
  - (* ehlo *)
    subst ws. destruct (codeIs (replyCode line) 250); session_step.
    + left. repeat split; try discriminate.
      exists [ehloCommand ++ CRLF; mailFromCommand fromEmail ++ CRLF].
      split; [reflexivity | now left].
    + left. repeat split; try discriminate.
      now exists [ehloCommand ++ CRLF; heloCommand ++ CRLF].
  - (* helo *)
    subst ws. destruct (codeIs (replyCode line) 250); session_step.
    + left. repeat split; try discriminate.
      exists [ehloCommand ++ CRLF; heloCommand ++ CRLF;
              mailFromCommand fromEmail ++ CRLF].
      split; [reflexivity | now right].
    + right. left. split; [reflexivity|].
      eexists (Return _), [ehloCommand ++ CRLF; heloCommand ++ CRLF], [].
      split; [reflexivity|]. split; [constructor|]. split; [reflexivity|].
      discriminate.
  - (* mail_from *)
    destruct (codeIs (replyCode line) 250); session_step.
    + left. repeat split; try discriminate.
      exists (ws ++ [rcptToCommand addr ++ CRLF]).
      split; [now rewrite List.map_app|].
      destruct Htr as [-> | ->]; [now left | now right].
    + right. left. split; [reflexivity|]. eexists (Return _), ws, [].
      split; [now rewrite <- app_assoc|]. split; [constructor|].
      split; [exact Htr | discriminate].
  - (* rcpt_to *)
    assert (Hq' : transcript fromEmail addr step_quit
                    (ws ++ [quitCommand ++ CRLF]))
      by (destruct Htr as [-> | ->]; [now left | now right]).
    destruct (codeIs (replyCode line) 250) eqn:Hc;
      [|destruct (codeGe (replyCode line) 500 && codeLe (replyCode line) 599);
        [|destruct (codeGe (replyCode line) 400 && codeLe (replyCode line) 499)]];
      session_step; right; left; (split; [reflexivity|]);
      eexists (Return _), (ws ++ [quitCommand ++ CRLF]), [];
      (split; [rewrite List.map_app; now rewrite <- !app_assoc|]);
      (split; [constructor|]); (split; [exact Hq'|]);
      cbn [status smtpResponse]; try discriminate.
    intros _. exists line. split; [reflexivity | now apply codeIs_true].
Qed.

Lemma lines_tracked lines : forall ss,
  tracked fromEmail addr ss ->
  tracked fromEmail addr (fold_left (onLine fromEmail addr) lines ss).
Proof.
  induction lines as [|l lines IH]; intros ss Hss; [exact Hss|].
  simpl. apply IH. now apply onLine_tracked.
Qed.

Lemma rejectOnce_tracked e ss :
  tracked fromEmail addr ss -> tracked fromEmail addr (rejectOnce e ss).
Proof.
  intros Ht. unfold rejectOnce. destruct (isResolved ss) eqn:Hr; [exact Ht|].
  destruct Ht as [(_ & Hd & Hq & ws & He & Htr) | [(Hr' & _) | (Hr' & _)]];
    [|congruence|congruence].
  destruct ss as [rs st ir sd tc fx].
  cbn [isResolved socketDestroyed effects step] in *. subst ir sd fx.
  right. left. split; [reflexivity|]. exists (Throw e), ws, [].
  split; [|split; [constructor | exact Logic.I]].
  session_step. now rewrite <- app_assoc.
Qed.

(** The handlers of ['error'] and ['close'] find the socket destroyed. *)
Lemma rejectOnce_destroyed_tracked e ss :
  tracked fromEmail addr ss ->
  tracked fromEmail addr (rejectOnce e (destroyedByRuntime ss)).
Proof.
  intros [(Hr & Hd & Hq & ws & He & Htr) | [(Hr & Hs) | (Hr & Hs)]];
    unfold rejectOnce;
    change (isResolved (destroyedByRuntime ss)) with (isResolved ss);
    rewrite Hr.
  - right. right. split; [reflexivity|]. exists e, ws, [].
    split; [|constructor].
    destruct ss as [rs st ir sd tc fx].
    cbn [effects] in He. subst fx. reflexivity.
  - right. left. split; [exact Hr | exact Hs].
  - right. right. split; [exact Hr | exact Hs].
Qed.

Lemma handleEvent_tracked ev ss :
  tracked fromEmail addr ss ->
  tracked fromEmail addr (handleEvent fromEmail addr ev ss).
Proof.
  intros Ht. destruct ev.
  - exact Ht.
  - unfold handleEvent, onData. apply lines_tracked. exact Ht.
  - now apply rejectOnce_destroyed_tracked.
  - now apply rejectOnce_tracked.
  - simpl. destruct (timerCleared ss); [exact Ht | now apply rejectOnce_tracked].
  - pose proof (rejectOnce_destroyed_tracked
                  (mkError (lit "Connection closed unexpectedly")) ss Ht)
      as Hrej.
    cbv beta zeta iota delta [handleEvent].
    change (isResolved (destroyedByRuntime ss)) with (isResolved ss).
    destruct (isResolved ss) eqn:Hr; [|exact Hrej].
    unfold rejectOnce in Hrej.
    change (isResolved (destroyedByRuntime ss)) with (isResolved ss) in Hrej.
    now rewrite Hr in Hrej.
  - exact Ht.
Qed.

Lemma handleEvents_tracked evs : forall ss,
  tracked fromEmail addr ss ->
  tracked fromEmail addr (handleEvents fromEmail addr evs ss).
Proof.
  induction evs as [|ev evs IH]; intros ss Hss; [exact Hss|].
  simpl. apply IH. now apply handleEvent_tracked.
Qed.

Lemma newSession_tracked : tracked fromEmail addr newSession.
Proof.
  left. repeat split; try discriminate. now exists [].
Qed.

Lemma settlementCalls_writes ws : settlementCalls (List.map Written ws) = [].
Proof. induction ws as [|w ws IH]; [reflexivity | exact IH]. Qed.

Lemma tracked_promise ss o :
  tracked fromEmail addr ss -> promiseState ss = Some (Return o) ->
  exists pre post,
    effects ss
    = List.map Written pre ++ [Destroyed; PromiseResolved o] ++ post /\
    Forall isWritten post /\ accounted fromEmail addr (Return o) pre.
Proof.
  unfold promiseState.
  intros [(_ & _ & _ & ws & He & _) |
          [(_ & c' & pre & post & He & Hw & Ha) |
           (_ & e & pre & post & He & Hw)]] Hp.
  - rewrite He, settlementCalls_writes in Hp. discriminate.
  - rewrite He in Hp.
    rewrite !settlementCalls_app, settlementCalls_writes in Hp.
    rewrite settlementCalls_effect in Hp. simpl in Hp.
    injection Hp as ->. now exists pre, post.
  - rewrite He in Hp.
    rewrite !settlementCalls_app, settlementCalls_writes in Hp.
    discriminate.
Qed.
End Tracking.

(** X5: an outcome accounts for the conversation before it.  When the
    promise of a session is resolved with an outcome, the effects of the
    session up to then are the commands of the step that the outcome
    reached, the destruction of the socket and the resolution, and nothing
    but writes follows: nothing was written before connection_rejected;
    EHLO and HELO before handshake_failed; EHLO, HELO if EHLO was refused,
    and MAIL FROM before mail_from_rejected; these, RCPT TO for the address
    and QUIT before valid, invalid, temporary_failure and unknown_response.
    A valid outcome carries a line with code 250. *)
Theorem outcome_accounts_for_commands (fromEmail addr : jsstring)
  (evs : list SocketEvent) (o : Outcome) :
  let ss := handleEvents fromEmail addr evs newSession in
  promiseState ss = Some (Return o) ->
  exists pre post,
    effects ss = List.map Written pre ++ [Destroyed; PromiseResolved o] ++ post /\
    Forall isWritten post /\
    transcript fromEmail addr (reached o) pre /\
    (status o = st_valid ->
     exists line, smtpResponse o = Some line /\ replyCode line = Some 250).
Proof.
  intros ss Hp.
  assert (Ht : tracked fromEmail addr ss)
    by (apply handleEvents_tracked, newSession_tracked).
  destruct (tracked_promise fromEmail addr ss _ Ht Hp)
    as (pre & post & He & Hw & Htr & Hv).
  now exists pre, post.
Qed.

Lemma outcome_accounts_for_commands_witness :
  let fromEmail := lit "test@example.com" in
  let addr := lit "user@example.org" in
  let o := {| email := addr; isValid := false;
              status := st_mail_from_rejected;
              message := lit "MAIL FROM rejected: 550 denied";
              smtpResponse := Some (lit "550 denied"); fromCache := None |} in
  let evs := [EvData (lit "220 mx" ++ CRLF ++ lit "500 what" ++ CRLF);
              EvData (lit "250 mx" ++ CRLF ++ lit "550 denied" ++ CRLF
                      ++ lit "221 bye" ++ CRLF);
              EvClose] in
  let ss := handleEvents fromEmail addr evs newSession in
  exists pre post,
    effects ss = List.map Written pre ++ [Destroyed; PromiseResolved o] ++ post /\
    Forall isWritten post /\
    transcript fromEmail addr (reached o) pre /\
    (status o = st_valid ->
     exists line, smtpResponse o = Some line /\ replyCode line = Some 250).
Proof.
  intros fromEmail addr o evs ss.
  exact (outcome_accounts_for_commands fromEmail addr evs o eq_refl).
Defined.

(** ** The commands that a session writes *)

Section Commands.
Variable fromEmail : jsstring.
Variable addr : jsstring.

Lemma written_app fx1 fx2 : written (fx1 ++ fx2) = written fx1 ++ written fx2.
Proof. unfold written. apply omap_app. Qed.

Lemma sublist_take_le {A} (l p : list A) k k' :
  sublist l (take k p) -> (k <= k')%nat -> sublist l (take k' p).
Proof.
  intros Hl Hk. etransitivity; [exact Hl|].
  replace (take k p) with (take k (take k' p))
    by (rewrite take_take; f_equal; lia).
  apply sublist_take.
Qed.

Lemma sublist_take_snoc {A} (l p : list A) k j c :
  sublist l (take k p) -> p !! j = Some c -> (k <= j)%nat ->
  sublist (l ++ [c]) (take (S j) p).
Proof.
  intros Hl Hj Hk. rewrite (take_S_r p j c Hj).
  apply sublist_app; [|reflexivity]. now apply (sublist_take_le l p k j).
Qed.

Lemma onLine_onProtocol ss line :
  onProtocol fromEmail addr ss ->
  onProtocol fromEmail addr (onLine fromEmail addr ss line).
Proof.
  unfold onProtocol, onLine. intros H. destruct (trim line); [exact H|].
  destruct ss as [rs st ir sd tc fx].
  cbn [effects step] in *.
  unfold handleSmtpResponse, getNextStep. fold (replyCode line).
  destruct st, ir, sd;
    repeat match goal with
           | |- context [if ?b then _ else _] => destruct b
           end;
    cbn [fold_left perform sendCommand resolveOnce emit cleanup setResolved
         setStep isResolved socketDestroyed effects step timerCleared response];
    rewrite ?written_app;
    change (written [Destroyed]) with (@nil jsstring);
    change (written [PromiseResolved ?o]) with (@nil jsstring);
    change (written [Written ?d]) with [d];
    rewrite ?app_nil_r;
    first
      [ exact H
      | eapply sublist_take_snoc; [exact H | reflexivity | cbn [rank]; lia]
      | eapply sublist_take_le; [exact H | cbn [rank]; lia] ].
Qed.

Lemma lines_onProtocol lines : forall ss,
  onProtocol fromEmail addr ss ->
  onProtocol fromEmail addr (fold_left (onLine fromEmail addr) lines ss).
Proof.
  induction lines as [|l lines IH]; intros ss Hss; [exact Hss|].
  simpl. apply IH. now apply onLine_onProtocol.
Qed.

Lemma rejectOnce_onProtocol e ss :
  onProtocol fromEmail addr ss -> onProtocol fromEmail addr (rejectOnce e ss).
Proof.
  unfold onProtocol. intros H. destruct ss as [rs st [|] [|] tc fx];
    cbn [rejectOnce emit cleanup setResolved isResolved socketDestroyed
         effects step timerCleared response] in *;
    rewrite ?written_app;
    change (written [Destroyed]) with (@nil jsstring);
    change (written [PromiseRejected e]) with (@nil jsstring);
    rewrite ?app_nil_r; exact H.
Qed.

Lemma handleEvent_onProtocol ev ss :
  onProtocol fromEmail addr ss ->
  onProtocol fromEmail addr (handleEvent fromEmail addr ev ss).
Proof.
  intros H. destruct ev; simpl; try exact H;
    try (now apply rejectOnce_onProtocol).
  - unfold onData. apply lines_onProtocol. exact H.
  - destruct (timerCleared ss); [exact H | now apply rejectOnce_onProtocol].
  - destruct (isResolved ss); [exact H | now apply rejectOnce_onProtocol].
Qed.

Lemma handleEvents_onProtocol evs : forall ss,
  onProtocol fromEmail addr ss ->
  onProtocol fromEmail addr (handleEvents fromEmail addr evs ss).
Proof.
  induction evs as [|ev evs IH]; intros ss Hss; [exact Hss|].
  simpl. apply IH. now apply handleEvent_onProtocol.
Qed.
End Commands.

(** X6: whatever a server sends, and however long it goes on, a session
    writes at most five commands: what was given to [socket.write] is a
    subsequence of EHLO, HELO, MAIL FROM, RCPT TO, QUIT (each followed by
    a line terminator), so every command is written at most once and in
    this order, and nothing else is ever written. *)
Theorem commands_follow_protocol (fromEmail addr : jsstring)
  (evs : list SocketEvent) :
  let ws := written (effects (handleEvents fromEmail addr evs newSession)) in
  sublist ws (protocol fromEmail addr) /\ (length ws <= 5)%nat.
Proof.
  intros ws.
  assert (H : sublist ws (protocol fromEmail addr)).
  { etransitivity; [|apply (sublist_take _ (rank (step
        (handleEvents fromEmail addr evs newSession))))].
    apply handleEvents_onProtocol. apply sublist_nil_l. }
  split; [exact H|]. apply sublist_length in H. exact H.
Qed.

(** ** Reply codes *)

Lemma digit_cases (a : N) :
  (48 <= a <= 57)%N ->
  (a = 48 \/ a = 49 \/ a = 50 \/ a = 51 \/ a = 52 \/ a = 53 \/ a = 54 \/
   a = 55 \/ a = 56 \/ a = 57)%N.
Proof. lia. Qed.

(** X7: the code that [handleSmtpResponse] and [getNextStep] read off a
    line that starts with three decimal digits is the number that the
    digits spell, whatever follows them (a space, a hyphen, more digits,
    nothing). *)
Theorem reply_code_of_digits (a b c : N) (rest : jsstring) :
  (48 <= a <= 57)%N -> (48 <= b <= 57)%N -> (48 <= c <= 57)%N ->
  replyCode (a :: b :: c :: rest)
  = Some (100 * (Z.of_N a - 48) + 10 * (Z.of_N b - 48) + (Z.of_N c - 48)).
Proof.
  intros Ha Hb Hc.
  apply digit_cases in Ha, Hb, Hc.
  repeat match goal with
         | H : _ \/ _ |- _ => destruct H as [H | H]
         end; subst a b c; reflexivity.
Qed.

Lemma reply_code_of_digits_witness :
  replyCode (lit "4501 more") = Some 450.
Proof.
  apply (reply_code_of_digits 52 53 48 (lit "1 more")); lia.
Defined.

(** ** The cache and the limiter *)

Section StoreFacts.
Context {RT : Runtime} {CF : Config}.

Lemma checkRateLimit_limiterInv domain s :
  limiterInv s -> limiterInv (snd (checkRateLimit domain s)).
Proof.
  intros Hs. unfold checkRateLimit.
  set (valid := List.filter _ _).
  destruct (Z.leb_spec maxRequestsPerDomain (Z.of_nat (length valid)));
    [exact Hs|].
  intros d l Hd. simpl in Hd.
  apply lookup_insert_Some in Hd as [[_ <-] | [_ Hd]]; [|now apply (Hs d)].
  rewrite length_app. simpl. lia.
Qed.

Lemma checkRateLimit_other domain other s :
  other <> domain ->
  rateLimiter (snd (checkRateLimit domain s)) !! other = rateLimiter s !! other.
Proof.
  intros Hne. unfold checkRateLimit.
  destruct (maxRequestsPerDomain <=? _); [reflexivity|].
  simpl. now apply lookup_insert_ne.
Qed.

(** What [checkRateLimit] answers and records for a domain depends on the
    clock and on the window of this domain alone. *)
Lemma checkRateLimit_window domain s s' :
  now (world s) = now (world s') ->
  rateLimiter s !! domain = rateLimiter s' !! domain ->
  fst (checkRateLimit domain s) = fst (checkRateLimit domain s') /\
  rateLimiter (snd (checkRateLimit domain s)) !! domain
  = rateLimiter (snd (checkRateLimit domain s')) !! domain.
Proof.
  intros Hn Hw. unfold checkRateLimit. rewrite Hn, Hw.
  destruct (maxRequestsPerDomain <=? _); simpl; [now split|].
  split; [reflexivity|]. now rewrite !lookup_insert_eq.
Qed.

Lemma rateChecks_limiterInv calls : forall s,
  limiterInv s -> limiterInv (snd (rateChecks calls s)).
Proof.
  induction calls as [|[d w] calls IH]; intros s Hs; [exact Hs|].
  simpl.
  pose proof (checkRateLimit_limiterInv d (setWorld w s) Hs) as H1.
  destruct (checkRateLimit d (setWorld w s)) as [ok s1].
  specialize (IH s1 H1). destruct (rateChecks calls s1) as [oks s2].
  exact IH.
Qed.

Lemma getFromCache_lookup addr s s' :
  now (world s) = now (world s') -> cache s !! addr = cache s' !! addr ->
  fst (getFromCache addr s) = fst (getFromCache addr s').
Proof.
  intros Hn Hc. unfold getFromCache. rewrite Hn, Hc.
  destruct (cache s' !! addr) as [entry|]; [|reflexivity].
  destruct (now (world s') - timestamp entry <? cacheExpiry); reflexivity.
Qed.

Lemma limiterInv_initial (w : World) : limiterInv (initialState w).
Proof. intros d l Hd. simpl in Hd. now rewrite lookup_empty in Hd. Qed.
End StoreFacts.

(** X8: a result that [addToCache] stored is what [getFromCache] returns
    for the same address for as long as less than [cacheExpiry] has passed,
    the state being left as it is; storing under one address changes
    nothing for any other address; and storing again replaces the result and
    the time of the entry. *)
Theorem cache_round_trip {RT : Runtime} {CF : Config}
  (addr : jsstring) (r : Outcome) (s : State) (w' : World) :
  let stored := snd (addToCache addr r s) in
  cache stored !! addr = Some {| result := r; timestamp := now (world s) |} /\
  (now w' - now (world s) < cacheExpiry ->
   getFromCache addr (setWorld w' stored) = (Some r, setWorld w' stored)) /\
  (forall other, other <> addr ->
     cache stored !! other = cache s !! other /\
     fst (getFromCache other (setWorld w' stored))
     = fst (getFromCache other (setWorld w' s))) /\
  (forall r2,
     cache (snd (addToCache addr r2 (setWorld w' stored))) !! addr
     = Some {| result := r2; timestamp := now w' |} /\
     cache (snd (addToCache addr r2 (setWorld w' stored)))
     = cache (snd (addToCache addr r2 (setWorld w' s)))).
Proof.
  intros stored.
  assert (Hst : cache stored !! addr
                = Some {| result := r; timestamp := now (world s) |})
    by (unfold stored; simpl; apply lookup_insert_eq).
  split; [exact Hst|]. split; [|split].
  - intros Hfresh.
    apply (getFromCache_fresh addr (setWorld w' stored) _ Hst). exact Hfresh.
  - intros other Hne.
    assert (Ho : cache stored !! other = cache s !! other)
      by (unfold stored; simpl; now apply lookup_insert_ne).
    split; [exact Ho|]. apply getFromCache_lookup; [reflexivity | exact Ho].
  - intros r2. split; [simpl; apply lookup_insert_eq|].
    unfold stored. simpl. apply insert_insert_eq.
Qed.

(** X9: the windows of the limiter are bounded and independent.  After any
    calls of [checkRateLimit], for any domains at any times, on a new
    verifier, no domain has more than [maxRequestsPerDomain] timestamps
    recorded; and a call for one domain leaves the window of every other
    domain as it is, and changes neither the answer to a later call for
    another domain nor what that call records. *)
Theorem limiter_windows {RT : Runtime} {CF : Config}
  (calls : list (option jsstring * World)) (w0 : World) :
  limiterInv (snd (rateChecks calls (initialState w0))) /\
  (forall domain other s w,
     other <> domain ->
     let s' := snd (checkRateLimit domain s) in
     rateLimiter s' !! other = rateLimiter s !! other /\
     fst (checkRateLimit other (setWorld w s'))
     = fst (checkRateLimit other (setWorld w s)) /\
     rateLimiter (snd (checkRateLimit other (setWorld w s'))) !! other
     = rateLimiter (snd (checkRateLimit other (setWorld w s))) !! other).
Proof.
  split; [apply rateChecks_limiterInv, limiterInv_initial|].
  intros domain other s w Hne s'.
  pose proof (checkRateLimit_other domain other s Hne) as Ho.
  split; [exact Ho|].
  apply checkRateLimit_window; [reflexivity | exact Ho].
Qed.

(** X10: [clearCache] makes the verifier forget: right after it no address
    is answered from the cache, every domain has an empty window (so that,
    with a positive [maxRequestsPerDomain], no call is refused), and
    [verifyEmailAdvanced] verifies anew and stores what it got, whatever
    was cached or counted before. *)
Theorem clearCache_forgets {RT : Runtime} {CF : Config}
  (addr : jsstring) (s : State) :
  let cleared := snd (clearCache s) in
  getFromCache addr cleared = (None, cleared) /\
  (forall domain, validRequests domain cleared = []) /\
  (0 < maxRequestsPerDomain ->
   (forall domain,
      checkRateLimit domain cleared
      = (true, setRateLimiter (<[domain := [now (world s)]]> ∅) cleared)) /\
   run (verifyEmailAdvanced addr) cleared
   = match run (verifyEmail addr)
             (setRateLimiter (<[domainOf addr := [now (world s)]]> ∅) cleared)
     with
     | (s2, Some (Return o)) => (snd (addToCache addr o s2), Some (Return o))
     | (s2, Some (Throw e)) => (s2, Some (Throw e))
     | (s2, None) => (s2, None)
     end).
Proof.
  intros cleared.
  assert (Hg : getFromCache addr cleared = (None, cleared))
    by (apply getFromCache_absent; apply lookup_empty).
  assert (Hv : forall domain, validRequests domain cleared = []).
  { intros domain. unfold validRequests, cleared. simpl.
    now rewrite lookup_empty. }
  split; [exact Hg|]. split; [exact Hv|]. intros Hmax.
  assert (Hc : forall domain,
            checkRateLimit domain cleared
            = (true, setRateLimiter (<[domain := [now (world s)]]> ∅) cleared)).
  { intros domain. rewrite checkRateLimit_room; rewrite Hv; [reflexivity|].
    simpl. lia. }
  split; [exact Hc|].
  apply (run_verifyEmailAdvanced_allowed addr cleared cleared _ Hg (Hc _)).
Qed.

Lemma clearCache_forgets_witness :
  let s := cachedState 2000 in
  let addr := lit "user@greylist.test" in
  let cleared := snd (clearCache s) in
  fst (getFromCache (CF:=demoConfig) addr s) = Some greylisted /\
  getFromCache (CF:=demoConfig) addr cleared = (None, cleared) /\
  checkRateLimit (CF:=demoConfig) (Some (lit "greylist.test")) cleared
  = (true, setRateLimiter (<[Some (lit "greylist.test") := [2000]]> ∅) cleared).
Proof.
  intros s addr cleared.
  destruct (clearCache_forgets (CF:=demoConfig) addr s) as (Hg & _ & Hc).
  split; [reflexivity|]. split; [exact Hg|].
  apply Hc. reflexivity.
Defined.

(** X11: [verifyEmailAdvanced] asks the limiter before it looks at the
    format.  An address that is not well formed and is not answered from the
    cache takes a slot in the window of whatever follows its first [@]
    (of [undefined], shared by all addresses without [@]) and is stored as
    invalid_format; when that window is full the answer is rate_limited,
    not invalid_format, and nothing is stored. *)
Theorem malformed_address_is_rate_limited {RT : Runtime} {CF : Config}
  (addr : jsstring) (s : State) :
  isValidEmailFormat addr = false ->
  fst (getFromCache addr s) = None ->
  let s0 := snd (getFromCache addr s) in
  let checked := checkRateLimit (domainOf addr) s0 in
  run (verifyEmailAdvanced addr) s
  = (if fst checked
     then (snd (addToCache addr (invalidFormat addr) (snd checked)),
           Some (Return (invalidFormat addr)))
     else (s0, Some (Return (rateLimited addr)))) /\
  (fst checked = true ->
   rateLimiter (snd checked) !! domainOf addr
   = Some (validRequests (domainOf addr) s0 ++ [now (world s)])) /\
  (forallb (fun c => negb (c =? 64)%N) addr = true -> domainOf addr = None).
Proof.
  intros Hbad Hmiss s0 checked.
  assert (Hg : getFromCache addr s = (None, s0))
    by (unfold s0; rewrite <- Hmiss; now destruct (getFromCache addr s)).
  split; [|split].
  - destruct (fst checked) eqn:Hok.
    + rewrite (run_verifyEmailAdvanced_allowed addr s s0 (snd checked) Hg)
        by (rewrite <- Hok; unfold checked;
            now destruct (checkRateLimit (domainOf addr) s0)).
      unfold run. rewrite (verifyEmail_malformed addr _ Hbad). reflexivity.
    + unfold run. rewrite (verifyEmailAdvanced_limited addr s s0 Hg Hok).
      reflexivity.
  - intros Hok. unfold checked in *. unfold checkRateLimit in *.
    fold (validRequests (domainOf addr) s0) in *.
    destruct (maxRequestsPerDomain <=? _); [discriminate|]. simpl.
    rewrite lookup_insert_eq.
    destruct (getFromCache_state addr s) as (Hw & _). fold s0 in Hw.
    now rewrite Hw.
  - intros Hno. unfold domainOf. now rewrite splitOn_none.
Qed.

Lemma malformed_address_is_rate_limited_witness :
  let s := initialState (RT:=demoRuntime) (1000, []) in
  let final := run (verifyEmailAdvanced (CF:=demoConfig) (lit "bad")) s in
  snd final = Some (Return (invalidFormat (lit "bad"))) /\
  rateLimiter (fst final) !! None = Some [1000].
Proof.
  intros s final.
  destruct (malformed_address_is_rate_limited (CF:=demoConfig) (lit "bad") s
              eq_refl eq_refl) as (Hrun & Hkey & Hdom).
  unfold final. rewrite Hrun. split; reflexivity.
Defined.

(** ** Outcomes under every schedule *)

Section VerifierOutcomes.
Context {RT : Runtime} {CF : Config}.
Variable live : bool.
Hypothesis sockets_settle : live = true -> settling.
Variable I : State -> Prop.
Hypothesis I_stable : stable I.
Variable addr : jsstring.

Lemma sessionTask_outcome evs : forall ss,
  resolvedWith (sessionOutcome addr) ss -> promiseState ss = None ->
  (live = true ->
   promiseState (handleEvents fromEmail addr evs ss) <> None) ->
  always live I (resolves (sessionOutcome addr)) (sessionTask addr evs ss).
Proof.
  induction evs as [|ev evs IH]; intros ss Hfor Hnone Hlive.
  - simpl. destruct live; [|reflexivity].
    destruct (Hlive eq_refl). exact Hnone.
  - simpl. intros s Hs. split; [now apply stable_setWorld|].
    assert (Hfor' : resolvedWith (sessionOutcome addr)
                      (handleEvent fromEmail addr ev ss)).
    { apply handleEvent_resolvedWith; [|exact Hfor].
      intros line st o. apply handleSmtpResponse_outcome. }
    destruct (promiseState (handleEvent fromEmail addr ev ss)) as [c|] eqn:Hc.
    + simpl. apply promise_resolved_in in Hc.
      destruct c as [o|e]; [now apply Hfor' | exact Logic.I].
    + apply IH; auto.
Qed.

Lemma verifyWithMxRecord_outcome host :
  asyncAlways live I (resolves (sessionOutcome addr))
    (verifyWithMxRecord addr host).
Proof.
  intros s Hs. unfold verifyWithMxRecord.
  pose proof (fun Hl => sockets_settle Hl host (world s) addr) as Hlive.
  destruct (connect host (world s)) as [evs w]. simpl in Hlive |- *.
  split; [now apply (I_stable s)|].
  apply sessionTask_outcome; [intros o [] | reflexivity | exact Hlive].
Qed.

Lemma session_verifier_outcome o :
  sessionOutcome addr o -> verifierOutcome addr o.
Proof.
  intros (He & Hst & Hc & _ & Hf). repeat split; try assumption; try apply Hc.
  unfold verifierStatus. now rewrite Hst.
Qed.

Lemma tryMxRecords_outcome hosts :
  asyncAlways live I (returns (verifierOutcome addr)) (tryMxRecords addr hosts).
Proof.
  induction hosts as [|mx rest IH]; simpl tryMxRecords.
  - apply always_ret. repeat split; discriminate.
  - apply (always_bind live I
             (returns (fun r => match r with
                                | Some o => verifierOutcome addr o
                                | None => True
                                end))).
    + apply (always_tryCatch live I
               (resolves (fun r => match r with
                                   | Some o => verifierOutcome addr o
                                   | None => True
                                   end))).
      * apply (always_bind live I (resolves (sessionOutcome addr))).
        -- apply always_await. apply verifyWithMxRecord_outcome.
        -- intros o Ho.
           destruct (decide (status o <> st_connection_failed));
             apply always_ret; [now apply session_verifier_outcome | exact Logic.I].
        -- auto.
      * auto.
      * intros e _. now apply always_ret.
    + intros [o|] Ho; [now apply always_ret | exact IH].
    + auto.
Qed.

Lemma verifyEmail_outcome :
  asyncAlways live I (returns (verifierOutcome addr)) (verifyEmail addr).
Proof.
  unfold verifyEmail.
  apply (always_tryCatch live I (returns (verifierOutcome addr))); auto.
  - destruct (isValidEmailFormat addr); simpl negb; cbv iota.
    + apply (always_bind live I (fun c => exists r, c = Return r)).
      * apply always_await. apply always_getMxRecords. exact I_stable.
      * intros [[|mx hosts]|] _;
          try (apply always_ret; repeat split; discriminate).
        apply tryMxRecords_outcome.
      * intros e (r & Hr). discriminate.
    + apply always_ret. repeat split; discriminate.
  - intros e [].
Qed.
End VerifierOutcomes.

(** X12: what [verifyEmail] returns, however the event loop interleaves
    it with other code.  The promise is never rejected (on a string, the
    outer [catch] with its status error is dead code); the outcome is for
    the address, has one of the statuses invalid_format, no_mx_record,
    connection_failed or one of the seven of a session, has [isValid] true
    exactly when the status is valid, and no [fromCache]; every piece of the
    call keeps every invariant that speaks of the cache and the limiter
    only, so it reads and writes neither; and the promise is settled if
    every socket settles its session. *)
Theorem verifyEmail_outcomes {RT : Runtime} {CF : Config} (addr : jsstring) :
  (forall live I,
     (live = true -> settling) -> stable I ->
     asyncAlways live I (returns (verifierOutcome addr)) (verifyEmail addr)) /\
  (forall s,
     let final := run (verifyEmail addr) s in
     cache (fst final) = cache s /\ rateLimiter (fst final) = rateLimiter s /\
     (forall c, snd final = Some c -> returns (verifierOutcome addr) c) /\
     (settling -> exists o, snd final = Some (Return o))).
Proof.
  split; [intros live I Hl HI; now apply verifyEmail_outcome|].
  intros s final.
  set (I := fun s' : State =>
              cache s' = cache s /\ rateLimiter s' = rateLimiter s).
  assert (HI : stable I) by (intros s' w l Hs'; exact Hs').
  assert (Hs : I s) by (split; reflexivity).
  destruct (always_run false I (returns (verifierOutcome addr))
              (verifyEmail addr) s) as [[Hc Hr] He];
    [apply verifyEmail_outcome; [discriminate | exact HI] | exact Hs |].
  fold final in Hc, Hr, He.
  split; [exact Hc|]. split; [exact Hr|]. split.
  - intros c Hfin. rewrite Hfin in He. exact He.
  - intros Hsettle.
    destruct (always_run true I (returns (verifierOutcome addr))
                (verifyEmail addr) s) as [_ He'];
      [apply verifyEmail_outcome; [intros _; exact Hsettle | exact HI]
      | exact Hs |].
    fold final in He'. destruct (snd final) as [[o|e]|].
    + now exists o.
    + destruct He'.
    + discriminate.
Qed.

(** ** [verifyMultiple] *)

Section MultipleFacts.
Context {RT : Runtime} {CF : Config}.
Variable live : bool.
Hypothesis sockets_settle : live = true -> settling.
Variable I : State -> Prop.
Hypothesis I_stable : stable I.

Lemma batch_calls batch :
  Forall2 (fun Q m => asyncAlways live I Q m)
    (List.map (fun a => returns (verifierOutcome a)) batch)
    (List.map verifyEmail batch).
Proof.
  induction batch as [|a batch IH]; simpl; constructor; [|exact IH].
  now apply verifyEmail_outcome.
Qed.

(** Nothing is ever pushed for a rejected promise: every promise of the
    batch is fulfilled. *)
Lemma pushedOrUnknown_values cs : forall batch,
  Forall2 (fun Q c => Q c)
    (List.map (fun a => returns (verifierOutcome a)) batch) cs ->
  Forall2 verifierOutcome batch (List.map pushedOrUnknown cs) /\
  List.map pushedOrUnknown cs
  = omap (fun c => match c with Return o => Some o | Throw _ => None end) cs /\
  length cs = length batch.
Proof.
  induction cs as [|c cs IH]; intros batch Hall.
  - destruct batch; [repeat split; constructor | inversion Hall].
  - destruct batch as [|a batch]; [inversion Hall|].
    simpl in Hall. apply Forall2_cons in Hall as [Hc Hcs].
    destruct (IH batch Hcs) as (H1 & H2 & H3).
    destruct c as [o|e]; [|destruct Hc].
    split; [now constructor|]. split; [simpl; now rewrite H2|].
    simpl. now rewrite H3.
Qed.

Lemma verifyMultipleFrom_outcomes emails concurrency delay fuel :
  forall i results,
  (length emails - i <= fuel)%nat ->
  Forall2 verifierOutcome (firstn i emails) results ->
  asyncAlways live I
    (returns (fun rs => Forall2 verifierOutcome emails rs))
    (verifyMultipleFrom fuel emails concurrency delay i results).
Proof.
  induction fuel as [|fuel IH]; intros i results Hfuel Hres;
    simpl verifyMultipleFrom.
  all: destruct (Nat.ltb_spec i (length emails)) as [Hlt|Hge];
    [ | apply always_ret; simpl; now rewrite take_ge in Hres ].
  - exfalso. lia.
  - set (batch := slice emails i (i + Pos.to_nat concurrency)).
    apply (always_bind live I
             (fun c => exists cs,
                c = Return cs /\
                Forall2 (fun Q c => Q c)
                  (List.map (fun a => returns (verifierOutcome a)) batch) cs)).
    + apply always_await. apply always_allSettled;
        [exact I_stable | apply batch_calls].
    + intros cs (cs' & [= <-] & Hcs).
      apply (always_bind live I (fun c => c = Return tt)).
      * destruct (i + Pos.to_nat concurrency <? length emails)%nat.
        -- apply always_await. apply always_sleep;
             [exact I_stable | reflexivity].
        -- now apply always_ret.
      * intros _ _. apply IH; [lia|].
        destruct (pushedOrUnknown_values cs batch Hcs) as (Hp & _).
        replace (firstn (i + Pos.to_nat concurrency) emails)
          with (firstn i emails ++ batch).
        -- now apply Forall2_app.
        -- unfold batch, slice.
           replace (i + Pos.to_nat concurrency - i)%nat
             with (Pos.to_nat concurrency) by lia.
           apply take_take_drop.
      * intros e He. discriminate.
    + intros e (cs & Hcs & _). discriminate.
Qed.

Lemma verifyMultiple_outcomes emails options :
  asyncAlways live I
    (returns (fun rs => Forall2 verifierOutcome emails rs))
    (verifyMultiple emails options).
Proof.
  apply verifyMultipleFrom_outcomes; [lia | constructor].
Qed.
End MultipleFacts.

Lemma outcomes_positions {P : jsstring -> Outcome -> Prop} emails rs :
  (forall a o, P a o -> email o = a) ->
  Forall2 P emails rs ->
  List.map email rs = emails /\ length rs = length emails.
Proof.
  intros HP H. induction H as [|a o emails rs Hao _ [IH1 IH2]];
    [split; reflexivity|].
  simpl. rewrite (HP a o Hao), IH1, IH2. split; reflexivity.
Qed.

(** X13: [verifyMultiple] returns one outcome per address, in the order
    of the addresses, whatever the event loop does with the members of a
    batch: the outcome at a position is an outcome of [verifyEmail] for the
    address at that position.  No promise of a batch is ever rejected, so
    the placeholder for the address [unknown] with status error is never
    pushed; the call never throws, uses neither the cache nor the limiter
    of an [AdvancedEmailVerifier], and returns if every socket settles its
    session.  A [concurrency] or [delay] of 0 stands for the default (5
    and 1000). *)
Theorem verifyMultiple_outcomes_in_order {RT : Runtime} {CF : Config}
  (emails : list jsstring) (options : MultipleOptions) :
  (forall live I,
     (live = true -> settling) -> stable I ->
     asyncAlways live I
       (returns (fun rs => Forall2 verifierOutcome emails rs))
       (verifyMultiple emails options)) /\
  (forall s,
     let final := run (verifyMultiple emails options) s in
     cache (fst final) = cache s /\ rateLimiter (fst final) = rateLimiter s /\
     (forall c, snd final = Some c ->
        exists rs, c = Return rs /\ Forall2 verifierOutcome emails rs /\
                   List.map email rs = emails /\ length rs = length emails) /\
     (settling -> exists rs, snd final = Some (Return rs))) /\
  verifyMultiple emails {| optConcurrency := Some 0%N; optDelay := Some 0 |}
  = verifyMultiple emails {| optConcurrency := None; optDelay := None |}.
Proof.
  split; [intros live I Hl HI; now apply verifyMultiple_outcomes|].
  split; [|reflexivity].
  intros s final.
  set (I := fun s' : State =>
              cache s' = cache s /\ rateLimiter s' = rateLimiter s).
  assert (HI : stable I) by (intros s' w l Hs'; exact Hs').
  assert (Hs : I s) by (split; reflexivity).
  destruct (always_run false I
              (returns (fun rs => Forall2 verifierOutcome emails rs))
              (verifyMultiple emails options) s) as [[Hc Hr] He];
    [apply verifyMultiple_outcomes; [discriminate | exact HI] | exact Hs |].
  fold final in Hc, Hr, He.
  split; [exact Hc|]. split; [exact Hr|]. split.
  - intros c Hfin. rewrite Hfin in He. destruct c as [rs|e]; [|destruct He].
    exists rs. split; [reflexivity|]. split; [exact He|].
    apply (outcomes_positions (P:=verifierOutcome)); [|exact He].
    now intros a o [Ho _].
  - intros Hsettle.
    destruct (always_run true I
                (returns (fun rs => Forall2 verifierOutcome emails rs))
                (verifyMultiple emails options) s) as [_ He'];
      [apply verifyMultiple_outcomes; [intros _; exact Hsettle | exact HI]
      | exact Hs |].
    fold final in He'. destruct (snd final) as [[rs|e]|].
    + now exists rs.
    + destruct He'.
    + discriminate.
Qed.

(** ** The pipeline under every schedule *)

Section PipelineOutcomes.
Context {RT : Runtime} {CF : Config}.
Variable live : bool.
Hypothesis sockets_settle : live = true -> settling.

Lemma storeInv_stable : stable storeInv.
Proof. intros s w l Hs. exact Hs. Qed.

Lemma storeInv_initial (w : World) : storeInv (initialState w).
Proof.
  split; [|apply limiterInv_initial].
  intros key entry Hk. simpl in Hk. now rewrite lookup_empty in Hk.
Qed.

Lemma getFromCache_storeInv addr s :
  storeInv s ->
  storeInv (snd (getFromCache addr s)) /\
  match fst (getFromCache addr s) with
  | Some o => verifierOutcome addr o
  | None => True
  end.
Proof.
  intros [Hc Hl]. unfold getFromCache.
  destruct (cache s !! addr) as [entry|] eqn:He; [|now split].
  destruct (now (world s) - timestamp entry <? cacheExpiry); simpl.
  - split; [now split | now apply (Hc addr)].
  - split; [|exact Logic.I]. split; [|exact Hl].
    intros key entry' Hk. simpl in Hk.
    apply lookup_delete_Some in Hk as [_ Hk]. now apply (Hc key).
Qed.

Lemma addToCache_storeInv addr o s :
  verifierOutcome addr o -> storeInv s -> storeInv (snd (addToCache addr o s)).
Proof.
  intros Ho [Hc Hl]. split; [|exact Hl].
  intros key entry Hk. simpl in Hk.
  apply lookup_insert_Some in Hk as [[<- <-] | [_ Hk]];
    [exact Ho | now apply (Hc key)].
Qed.

Lemma checkRateLimit_storeInv domain s :
  storeInv s -> storeInv (snd (checkRateLimit domain s)).
Proof.
  intros [Hc Hl]. split; [|now apply checkRateLimit_limiterInv].
  destruct (checkRateLimit_state domain s) as (_ & Hcache & _).
  now rewrite Hcache.
Qed.

Lemma cached_advanced addr o :
  verifierOutcome addr o -> advancedOutcome addr (withFromCache o).
Proof.
  intros (He & Hst & Hc & _). split; [exact He|]. split; [|exact Hc].
  left. split; [exact Hst | now right].
Qed.

Lemma verifier_advanced addr o :
  verifierOutcome addr o -> advancedOutcome addr o.
Proof.
  intros (He & Hst & Hc & Hf). split; [exact He|]. split; [|exact Hc].
  left. split; [exact Hst | now left].
Qed.

Lemma rateLimited_advanced addr : advancedOutcome addr (rateLimited addr).
Proof.
  split; [reflexivity|]. split; [now right|]. split; discriminate.
Qed.

Lemma verifyEmailAdvanced_outcome addr :
  asyncAlways live storeInv (returns (advancedOutcome addr))
    (verifyEmailAdvanced addr).
Proof.
  unfold verifyEmailAdvanced.
  apply (always_bind live storeInv
           (returns (fun r => match r with
                              | Some o => verifierOutcome addr o
                              | None => True
                              end))).
  - apply always_sync. intros s Hs.
    destruct (getFromCache_storeInv addr s Hs) as [HI Ho]. split; [exact HI|].
    exact Ho.
  - intros [o|] Ho; [apply always_ret; now apply cached_advanced|].
    apply (always_bind live storeInv (returns (fun _ => True))).
    + apply always_sync. intros s Hs. split; [|exact Logic.I].
      now apply checkRateLimit_storeInv.
    + intros [|] _; simpl negb; cbv iota;
        [|apply always_ret; apply rateLimited_advanced].
      apply (always_bind live storeInv (returns (verifierOutcome addr))).
      * apply always_await.
        apply verifyEmail_outcome; [exact sockets_settle|].
        exact storeInv_stable.
      * intros r Hr.
        apply (always_bind live storeInv (returns (fun _ => True))).
        -- apply always_sync. intros s Hs. split; [|exact Logic.I].
           now apply addToCache_storeInv.
        -- intros _ _. apply always_ret. now apply verifier_advanced.
        -- auto.
      * auto.
    + auto.
  - auto.
Qed.

Lemma verifyWithRetryFrom_outcome addr fuel : forall a,
  (Z.to_nat (retryAttempts + 1 - a) <= fuel)%nat ->
  asyncAlways live storeInv (returns (advancedOutcome addr))
    (verifyWithRetryFrom fuel addr a).
Proof.
  induction fuel as [|fuel IH]; intros a Hfuel; simpl verifyWithRetryFrom.
  all: apply (always_bind live storeInv
                (returns (fun n => match n with
                                   | Done o => advancedOutcome addr o
                                   | Again => a <= retryAttempts
                                   end))); auto.
  1,3: apply (always_tryCatch live storeInv
                (returns (fun n => match n with
                                   | Done o => advancedOutcome addr o
                                   | Again => a <= retryAttempts
                                   end))); auto.
  1,3: apply (always_bind live storeInv (returns (advancedOutcome addr))); auto;
       [ apply always_await; apply verifyEmailAdvanced_outcome
       | intros r Hr;
         destruct (bool_decide (status r = st_temporary_failure)); simpl andb;
         [ destruct (Z.leb_spec a retryAttempts) | ];
         try (now apply always_ret);
         apply (always_bind live storeInv (fun c => c = Return tt)); auto;
         [ apply always_await; apply always_sleep;
           [exact storeInv_stable | reflexivity]
         | intros _ _; now apply always_ret
         | discriminate ] ].
  1,2: intros e [].
  - intros [o|] Hn; [now apply always_ret|]. exfalso. simpl in Hn. lia.
  - intros [o|] Hn; [now apply always_ret|]. apply IH. simpl in Hn. lia.
Qed.

Lemma verifyWithRetry_outcome addr :
  asyncAlways live storeInv (returns (advancedOutcome addr))
    (verifyWithRetry addr).
Proof. apply verifyWithRetryFrom_outcome. unfold Z.sub. lia. Qed.

Lemma group_outcomes group :
  Forall2 (fun Q m => asyncAlways live storeInv Q m)
    (List.map (fun a => returns (advancedOutcome a)) group)
    (List.map verifyWithRetry group).
Proof.
  induction group as [|a group IH]; simpl; constructor; [|exact IH].
  now apply verifyWithRetry_outcome.
Qed.

(** Every promise of a group is fulfilled: what is pushed is its value. *)
Lemma pushed_values cs : forall group0 j group,
  Forall2 (fun Q c => Q c)
    (List.map (fun a => returns (advancedOutcome a)) group) cs ->
  Forall2 advancedOutcome group (imap (fun k => pushed group0 (j + k)) cs).
Proof.
  induction cs as [|c cs IH]; intros group0 j group Hall.
  - destruct group; [constructor | inversion Hall].
  - destruct group as [|a group]; [inversion Hall|].
    simpl in Hall. apply Forall2_cons in Hall as [Hc Hcs].
    destruct c as [o|e]; [|destruct Hc].
    rewrite imap_cons. constructor; [exact Hc|].
    assert (He : imap ((fun k => pushed group0 (j + k)) ∘ S) cs
                 = imap (fun k => pushed group0 (S j + k)) cs).
    { apply imap_ext. intros k c' _. simpl. f_equal. lia. }
    rewrite He. now apply IH.
Qed.

Lemma processBatchFrom_outcomes emails fuel : forall i results,
  (length emails - i <= fuel)%nat ->
  Forall2 advancedOutcome (firstn i emails) results ->
  asyncAlways live storeInv
    (returns (fun rs => Forall2 advancedOutcome emails rs))
    (processBatchFrom fuel emails i results).
Proof.
  induction fuel as [|fuel IH]; intros i results Hfuel Hres;
    simpl processBatchFrom.
  all: destruct (Nat.ltb_spec i (length emails)) as [Hlt|Hge];
    [ | apply always_ret; simpl; now rewrite take_ge in Hres ].
  - exfalso. lia.
  - set (group := slice emails i (i + Pos.to_nat concurrency)).
    apply (always_bind live storeInv
             (fun c => exists cs,
                c = Return cs /\
                Forall2 (fun Q c => Q c)
                  (List.map (fun a => returns (advancedOutcome a)) group) cs)).
    + apply always_await. apply always_allSettled;
        [exact storeInv_stable | apply group_outcomes].
    + intros cs (cs' & [= <-] & Hcs).
      apply (always_bind live storeInv (fun c => c = Return tt)).
      * destruct (i + Pos.to_nat concurrency <? length emails)%nat.
        -- apply always_await. apply always_sleep;
             [exact storeInv_stable | reflexivity].
        -- now apply always_ret.
      * intros _ _. apply IH; [lia|].
        replace (firstn (i + Pos.to_nat concurrency) emails)
          with (firstn i emails ++ group).
        -- apply Forall2_app; [exact Hres|].
           exact (pushed_values cs group 0 group Hcs).
        -- unfold group, slice.
           replace (i + Pos.to_nat concurrency - i)%nat
             with (Pos.to_nat concurrency) by lia.
           apply take_take_drop.
      * intros e He. discriminate.
    + intros e (cs & Hcs & _). discriminate.
Qed.

Lemma processBatch_outcomes batch :
  asyncAlways live storeInv
    (returns (fun rs => Forall2 advancedOutcome batch rs))
    (processBatch batch).
Proof. apply processBatchFrom_outcomes; [lia | constructor]. Qed.

Variable saveIntermediate : bool.

(** With the [processBatch] of the class the [catch] of the loop is never
    entered. *)
Lemma tryBatch_outcomes done batch n results :
  Forall2 advancedOutcome done results ->
  asyncAlways live storeInv
    (returns (fun rs => Forall2 advancedOutcome (done ++ batch) rs))
    (tryBatch processBatch saveIntermediate batch n results).
Proof.
  intros Hres. unfold tryBatch.
  apply (always_bind live storeInv
           (returns (fun first => match first with
                                  | inr rs => Forall2 advancedOutcome batch rs
                                  | inl _ => False
                                  end))).
  - apply (always_tryCatch live storeInv
             (returns (fun first => match first with
                                    | inr rs => Forall2 advancedOutcome batch rs
                                    | inl _ => False
                                    end))).
    + apply (always_bind live storeInv
               (returns (fun rs => Forall2 advancedOutcome batch rs))).
      * apply always_await. apply processBatch_outcomes.
      * intros rs Hrs. now apply always_ret.
      * auto.
    + auto.
    + intros e [].
  - intros [e|rs] Hrs; [destruct Hrs|].
    apply (always_tryCatch live storeInv
             (returns (fun rs0 => Forall2 advancedOutcome (done ++ batch) rs0))).
    + apply (always_bind live storeInv (fun c => c = Return tt)).
      * destruct (saveIntermediate && (n mod 5 =? 0)%nat).
        -- apply always_await. apply always_saveResults. exact storeInv_stable.
        -- now apply always_ret.
      * intros _ _. apply always_ret. now apply Forall2_app.
      * discriminate.
    + auto.
    + intros e [].
  - auto.
Qed.

Lemma processBulkFrom_outcomes emails fuel : forall i results,
  (length emails - i <= fuel)%nat ->
  Forall2 advancedOutcome (firstn i emails) results ->
  asyncAlways live storeInv
    (returns (fun rs => Forall2 advancedOutcome emails rs))
    (processBulkFrom processBatch saveIntermediate fuel emails i results).
Proof.
  induction fuel as [|fuel IH]; intros i results Hfuel Hres;
    simpl processBulkFrom.
  all: destruct (Nat.ltb_spec i (length emails)) as [Hlt|Hge];
    [ | apply always_ret; simpl; now rewrite take_ge in Hres ].
  - exfalso. lia.
  - set (batch := slice emails i (i + Pos.to_nat batchSize)).
    assert (Hb : firstn (i + Pos.to_nat batchSize) emails
                 = firstn i emails ++ batch).
    { unfold batch, slice.
      replace (i + Pos.to_nat batchSize - i)%nat
        with (Pos.to_nat batchSize) by lia.
      symmetry. apply take_take_drop. }
    apply (always_bind live storeInv
             (returns (fun rs => Forall2 advancedOutcome
                                   (firstn i emails ++ batch) rs))).
    + now apply tryBatch_outcomes.
    + intros rs Hrs.
      apply (always_bind live storeInv (fun c => c = Return tt)).
      * destruct (i + Pos.to_nat batchSize <? length emails)%nat.
        -- apply always_await. apply always_sleep;
             [exact storeInv_stable | reflexivity].
        -- now apply always_ret.
      * intros _ _. apply IH; [lia|]. now rewrite Hb.
      * intros e He. discriminate.
    + auto.
Qed.

Lemma processBulkEmails_outcomes emails :
  asyncAlways live storeInv
    (returns (fun rs => Forall2 advancedOutcome emails rs))
    (processBulkEmails emails saveIntermediate).
Proof. apply processBulkFrom_outcomes; [lia | constructor]. Qed.
End PipelineOutcomes.

Lemma advanced_status addr o :
  advancedOutcome addr o ->
  status o <> st_error /\ status o <> st_batch_error /\ consistent o.
Proof.
  intros (_ & [[Hst _] | [Hst _]] & Hc).
  - repeat split; try exact Hc; try apply Hc;
      intros H; rewrite H in Hst; discriminate.
  - repeat split; try exact Hc; try apply Hc; congruence.
Qed.

Lemma advanced_statuses emails rs :
  Forall2 advancedOutcome emails rs ->
  Forall (fun o => status o <> st_error /\
                   status o <> st_batch_error /\ consistent o) rs.
Proof.
  induction 1 as [|a o es rs Hao _ IH]; [constructor|].
  constructor; [now apply (advanced_status a) | exact IH].
Qed.

(** X14: what [verifyEmailAdvanced] returns, however the event loop
    interleaves it with other code.  From a state in which every cache
    entry holds an outcome of [verifyEmail] for its key and no window holds
    more than [maxRequestsPerDomain] timestamps (a new verifier is in such a
    state), every piece of the call keeps the state so; the promise is never
    rejected; the outcome is for the address, it is an outcome of
    [verifyEmail] with [fromCache] absent or true, or it is rate_limited
    without [fromCache]; its [isValid] is true exactly when its status is
    valid; and the promise is settled if every socket settles its
    session. *)
Theorem verifyEmailAdvanced_outcomes {RT : Runtime} {CF : Config}
  (addr : jsstring) :
  (forall live,
     (live = true -> settling) ->
     asyncAlways live storeInv (returns (advancedOutcome addr))
       (verifyEmailAdvanced addr)) /\
  (forall w, storeInv (initialState w)) /\
  (forall s,
     storeInv s ->
     let final := run (verifyEmailAdvanced addr) s in
     storeInv (fst final) /\
     (forall c, snd final = Some c -> returns (advancedOutcome addr) c) /\
     (settling -> exists o, snd final = Some (Return o))).
Proof.
  split; [intros live Hl; now apply verifyEmailAdvanced_outcome|].
  split; [apply storeInv_initial|].
  intros s Hs final.
  destruct (always_run false storeInv (returns (advancedOutcome addr))
              (verifyEmailAdvanced addr) s) as [HI He];
    [apply verifyEmailAdvanced_outcome; discriminate | exact Hs |].
  fold final in HI, He.
  split; [exact HI|]. split.
  - intros c Hfin. rewrite Hfin in He. exact He.
  - intros Hsettle.
    destruct (always_run true storeInv (returns (advancedOutcome addr))
                (verifyEmailAdvanced addr) s) as [_ He'];
      [apply verifyEmailAdvanced_outcome; intros _; exact Hsettle
      | exact Hs |].
    fold final in He'. destruct (snd final) as [[o|e]|].
    + now exists o.
    + destruct He'.
    + discriminate.
Qed.

(** X15: what [processBulkEmails] returns, whatever the event loop does
    with the members of a group.  From a state as in X14 the result holds,
    position by position, an outcome of [verifyEmailAdvanced] for the
    address at that position.  So no outcome has the status error or
    batch_error: [verifyWithRetry] is never rejected, [processBatch] never
    throws and [saveResults] never throws, which makes the error
    placeholder of [processBatch] and the [catch] of the batch loop dead
    code with the methods of the class; and [isValid] is true exactly when
    the status is valid.  The state stays as in X14. *)
Theorem processBulkEmails_outcomes_in_order {RT : Runtime} {CF : Config}
  (emails : list jsstring) (saveIntermediate : bool) :
  (forall live,
     (live = true -> settling) ->
     asyncAlways live storeInv
       (returns (fun rs => Forall2 advancedOutcome emails rs))
       (processBulkEmails emails saveIntermediate)) /\
  (forall s,
     storeInv s ->
     let final := run (processBulkEmails emails saveIntermediate) s in
     storeInv (fst final) /\
     (forall c, snd final = Some c ->
        exists rs,
          c = Return rs /\ Forall2 advancedOutcome emails rs /\
          Forall (fun o => status o <> st_error /\
                           status o <> st_batch_error /\ consistent o) rs) /\
     (settling -> exists rs, snd final = Some (Return rs))).
Proof.
  split; [intros live Hl; now apply processBulkEmails_outcomes|].
  intros s Hs final.
  destruct (always_run false storeInv
              (returns (fun rs => Forall2 advancedOutcome emails rs))
              (processBulkEmails emails saveIntermediate) s) as [HI He];
    [apply processBulkEmails_outcomes; discriminate | exact Hs |].
  fold final in HI, He.
  split; [exact HI|]. split.
  - intros c Hfin. rewrite Hfin in He. destruct c as [rs|e]; [|destruct He].
    exists rs. split; [reflexivity|]. split; [exact He|].
    exact (advanced_statuses emails rs He).
  - intros Hsettle.
    destruct (always_run true storeInv
                (returns (fun rs => Forall2 advancedOutcome emails rs))
                (processBulkEmails emails saveIntermediate) s) as [_ He'];
      [apply processBulkEmails_outcomes; intros _; exact Hsettle
      | exact Hs |].
    fold final in He'. destruct (snd final) as [[rs|e]|].
    + now exists rs.
    + destruct He'.
    + discriminate.
Qed.

(** ** Reports *)

Section ReportFacts.

Lemma countIf_cons p r results :
  countIf p (r :: results)
  = ((if p r then 1 else 0) + countIf p results)%nat.
Proof. unfold countIf. simpl. now destruct (p r). Qed.

(** Every result is counted once as valid, invalid or error, unless it
    is both valid and an error. *)
Lemma counts_cover results :
  (length results
   + countIf (fun r => isValid r && isErrorStatus (status r)) results
   = countIf isValid results
     + countIf (fun r => negb (isValid r) && negb (isErrorStatus (status r)))
         results
     + countIf (fun r => isErrorStatus (status r)) results)%nat.
Proof.
  induction results as [|r results IH]; [reflexivity|].
  rewrite !countIf_cons. simpl length.
  destruct (isValid r), (isErrorStatus (status r)); simpl; lia.
Qed.

Lemma countIf_none p results :
  Forall (fun r => p r = false) results -> countIf p results = 0%nat.
Proof.
  induction 1 as [|r results Hr _ IH]; [reflexivity|].
  now rewrite countIf_cons, Hr, IH.
Qed.

Lemma countIf_le p q results :
  Forall (fun r => p r = true -> q r = true) results ->
  (countIf p results <= countIf q results)%nat.
Proof.
  induction 1 as [|r results Hr _ IH]; [reflexivity|].
  rewrite !countIf_cons. destruct (p r).
  - rewrite (Hr eq_refl). lia.
  - destruct (q r); lia.
Qed.

Lemma countIf_ext p q results :
  Forall (fun r => p r = q r) results -> countIf p results = countIf q results.
Proof.
  induction 1 as [|r results Hr _ IH]; [reflexivity|].
  now rewrite !countIf_cons, Hr, IH.
Qed.

Lemma statusCount_bump st st' counts :
  statusCount st (bump st' counts)
  = (statusCount st counts + if decide (st' = st) then 1 else 0)%nat.
Proof.
  unfold statusCount.
  induction counts as [|[key n] counts IH]; simpl.
  - destruct (decide (st' = st)) as [->|Hne].
    + now rewrite bool_decide_true.
    + now rewrite bool_decide_false.
  - destruct (decide (key = st')) as [->|Hk]; simpl.
    + destruct (decide (st' = st)) as [->|Hne].
      * rewrite !bool_decide_true by reflexivity. simpl. lia.
      * rewrite !bool_decide_false by exact Hne. lia.
    + destruct (decide (key = st)) as [->|Hks].
      * rewrite !bool_decide_true by reflexivity. simpl.
        destruct (decide (st' = st)); [congruence | lia].
      * rewrite !bool_decide_false by exact Hks. exact IH.
Qed.

Lemma statusCount_breakdown st results : forall counts,
  statusCount st (fold_left (fun counts r => bump (status r) counts)
                    results counts)
  = (statusCount st counts + countIf (hasStatus st) results)%nat.
Proof.
  induction results as [|r results IH]; intros counts; simpl.
  - unfold countIf. simpl. lia.
  - rewrite IH, statusCount_bump, countIf_cons. unfold hasStatus.
    destruct (decide (status r = st)) as [He|Hne].
    + rewrite bool_decide_true by exact He. lia.
    + rewrite bool_decide_false by exact Hne. lia.
Qed.

Lemma bump_keys st counts :
  NoDup (List.map fst counts) ->
  NoDup (List.map fst (bump st counts)) /\
  (forall key, In key (List.map fst (bump st counts))
               <-> key = st \/ In key (List.map fst counts)) /\
  list_sum (List.map snd (bump st counts))
  = S (list_sum (List.map snd counts)).
Proof.
  induction counts as [|[key n] counts IH]; intros Hnd.
  - simpl. split; [repeat constructor; apply not_elem_of_nil|].
    split; [intros key; intuition | reflexivity].
  - simpl in Hnd. apply NoDup_cons in Hnd as [Hnot Hnd].
    destruct (IH Hnd) as (IH1 & IH2 & IH3). simpl.
    destruct (decide (key = st)) as [->|Hne]; simpl.
    + split; [now apply NoDup_cons|]. split; [|reflexivity].
      intros key. intuition.
    + split; [|split].
      * apply NoDup_cons. split; [|exact IH1].
        intros Hin. apply list_elem_of_In, IH2 in Hin as [->|Hin];
          [congruence|]. apply Hnot. now apply list_elem_of_In.
      * intros k. rewrite IH2. intuition.
      * rewrite IH3. lia.
Qed.

Lemma breakdown_keys results : forall counts,
  NoDup (List.map fst counts) ->
  let final := fold_left (fun counts r => bump (status r) counts)
                 results counts in
  NoDup (List.map fst final) /\
  list_sum (List.map snd final)
  = (list_sum (List.map snd counts) + length results)%nat.
Proof.
  induction results as [|r results IH]; intros counts Hnd; simpl.
  - split; [exact Hnd | lia].
  - destruct (bump_keys (status r) counts Hnd) as (H1 & _ & H3).
    destruct (IH _ H1) as [IH1 IH2]. split; [exact IH1|].
    rewrite IH2, H3. lia.
Qed.
End ReportFacts.

(** X16: the counts of [generateReport].  Every result is counted once
    as valid, as invalid or as an error, except that a result that is valid
    and has the status error or rate_limited is counted twice.  For results
    whose [isValid] is true exactly when their status is valid (such are
    the results of the pipeline) the three counts add up to the total, the
    temporary failures are among the invalid ones, and the valid count is
    the number of results with status valid.  The status breakdown has one
    entry per status that occurs, with the number of its results, and its
    numbers add up to the total. *)
Theorem report_counts (results : list Outcome) :
  let report := generateReport results in
  let counts := summary report in
  (total counts
   + countIf (fun r => isValid r && isErrorStatus (status r)) results
   = valid counts + invalid counts + errors counts)%nat /\
  (Forall consistent results ->
   (valid counts + invalid counts + errors counts = total counts)%nat /\
   (temporary counts <= invalid counts)%nat /\
   valid counts = countIf (hasStatus st_valid) results) /\
  (forall st, statusCount st (statusBreakdown report)
              = countIf (hasStatus st) results) /\
  NoDup (List.map fst (statusBreakdown report)) /\
  list_sum (List.map snd (statusBreakdown report)) = total counts.
Proof.
  intros report counts. split; [apply counts_cover|]. split; [|split; [|split]].
  - intros Hc.
    assert (H0 : countIf (fun r => isValid r && isErrorStatus (status r))
                   results = 0%nat).
    { apply countIf_none. eapply Forall_impl; [exact Hc|].
      intros r Hr. simpl. destruct (isValid r) eqn:Hv; [|reflexivity].
      rewrite (proj1 Hr Hv). reflexivity. }
    pose proof (counts_cover results) as Hcover. rewrite H0 in Hcover.
    split; [simpl; lia|]. split.
    + apply countIf_le. eapply Forall_impl; [exact Hc|].
      intros r Hr. unfold hasStatus. intros Ht.
      apply bool_decide_eq_true in Ht. rewrite Ht.
      destruct (isValid r) eqn:Hv; [|reflexivity].
      rewrite (proj1 Hr Hv) in Ht. discriminate.
    + apply countIf_ext. eapply Forall_impl; [exact Hc|].
      intros r Hr. unfold hasStatus. simpl.
      destruct (isValid r) eqn:Hv.
      * symmetry. apply bool_decide_eq_true. now apply Hr.
      * symmetry. apply bool_decide_eq_false. intros Hs.
        apply Hr in Hs. congruence.
  - intros st. exact (statusCount_breakdown st results []).
  - apply (breakdown_keys results []). constructor.
  - apply (breakdown_keys results []). constructor.
Qed.

(** X17: the recommendations for the results of the pipeline.  Results
    that hold an outcome of [verifyEmailAdvanced] per address (such are the
    results of [processBulkEmails]) never have the status error, so the
    recommendation about a high error rate is never made for them, even
    when no server can be reached; the [errors] of the report count the
    rate-limited addresses only; and the other recommendations are made
    when more than one result in twenty is a temporary failure, when some
    result is rate_limited, and when some result is invalid_format, in this
    order. *)
Theorem recommendations_for_pipeline (emails : list jsstring)
  (results : list Outcome) :
  Forall2 advancedOutcome emails results ->
  let temporary := countIf (hasStatus st_temporary_failure) results in
  let rateLimitedCount := countIf (hasStatus st_rate_limited) results in
  let invalidFormatCount := countIf (hasStatus st_invalid_format) results in
  recommendations (generateReport results)
  = (if (length results <? 20 * temporary)%nat
     then [lit "High temporary failure rate. Consider retrying these emails later."]
     else []) ++
    (if (0 <? rateLimitedCount)%nat
     then [decimal rateLimitedCount ++
           lit " emails were rate limited. Consider reducing concurrency or increasing delays."]
     else []) ++
    (if (0 <? invalidFormatCount)%nat
     then [decimal invalidFormatCount ++
           lit " emails have invalid format. Consider data cleaning."]
     else []) /\
  errors (summary (generateReport results)) = rateLimitedCount.
Proof.
  intros Hall temporary rateLimitedCount invalidFormatCount.
  pose proof (advanced_statuses emails results Hall) as Hst.
  assert (He : countIf (hasStatus st_error) results = 0%nat).
  { apply countIf_none. eapply Forall_impl; [exact Hst|].
    intros r (Hr & _). simpl. now apply bool_decide_eq_false. }
  split.
  - unfold generateReport, recommendations, generateRecommendations.
    rewrite He. rewrite Nat.mul_0_r.
    destruct (Nat.ltb_spec (length results) 0) as [Hlt|_]; [lia|].
    reflexivity.
  - simpl. apply countIf_ext. eapply Forall_impl; [exact Hst|].
    intros r (Hr & _). simpl. unfold hasStatus.
    destruct (status r); try reflexivity. congruence.
Qed.

Lemma recommendations_for_pipeline_witness :
  let results := [invalidFormat (lit "bad"); rateLimited (lit "a@b.c")] in
  recommendations (generateReport results)
  = [lit "1 emails were rate limited. Consider reducing concurrency or increasing delays.";
     lit "1 emails have invalid format. Consider data cleaning."] /\
  errors (summary (generateReport results)) = 1%nat.
Proof.
  intros results.
  apply (recommendations_for_pipeline [lit "bad"; lit "a@b.c"] results).
  constructor; [|constructor; [apply rateLimited_advanced | constructor]].
  apply verifier_advanced. repeat split; discriminate.
Defined.

(** ** CSV files *)

Section CsvFacts.

Lemma join_cons sep p q rest :
  join sep (p :: q :: rest) = p ++ sep ++ join sep (q :: rest).
Proof. reflexivity. Qed.

Lemma splitOn_join sep pieces :
  pieces <> [] ->
  Forall (fun p => forallb (fun c => negb (c =? sep)%N) p = true) pieces ->
  splitOn sep (join [sep] pieces) = pieces.
Proof.
  induction pieces as [|p rest IH]; [congruence|]. intros _ Hall.
  apply Forall_cons in Hall as [Hp Hrest].
  destruct rest as [|q rest'].
  - simpl. now apply splitOn_none.
  - rewrite join_cons. change (p ++ [sep] ++ join [sep] (q :: rest'))
      with (p ++ sep :: join [sep] (q :: rest')).
    rewrite splitOn_app by exact Hp. f_equal. now apply IH.
Qed.

Lemma dropWhile_In {A} (p : A -> bool) c s :
  In c s -> p c = false -> In c (dropWhile p s).
Proof.
  intros Hin Hc. induction s as [|x s IH]; [destruct Hin|].
  simpl. destruct (p x) eqn:Hx; [|exact Hin].
  destruct Hin as [-> | Hin]; [congruence | now apply IH].
Qed.

Lemma trim_In c s : In c s -> isWhiteSpace c = false -> In c (trim s).
Proof.
  intros Hin Hc. unfold trim, trimStart.
  apply in_rev. rewrite rev_involutive.
  apply dropWhile_In; [|exact Hc]. apply -> in_rev.
  now apply dropWhile_In.
Qed.

Lemma nonBlank_In c s : In c s -> isWhiteSpace c = false -> nonBlank s = true.
Proof.
  intros Hin Hc. unfold nonBlank. pose proof (trim_In c s Hin Hc) as H.
  destruct (trim s); [destruct H | reflexivity].
Qed.

Lemma trim_quoted e : trim (quote :: e ++ [quote]) = quote :: e ++ [quote].
Proof.
  unfold trim, trimStart.
  change (dropWhile isWhiteSpace (quote :: e ++ [quote]))
    with (quote :: e ++ [quote]).
  replace (rev (quote :: e ++ [quote])) with (quote :: rev e ++ [quote])
    by (simpl; now rewrite rev_app_distr).
  change (dropWhile isWhiteSpace (quote :: rev e ++ [quote]))
    with (quote :: rev e ++ [quote]).
  simpl. rewrite rev_app_distr. simpl. now rewrite rev_involutive.
Qed.

Lemma removeQuotes_quoted e :
  forallb (fun c => negb (c =? quote)%N) e = true ->
  removeQuotes (quote :: e ++ [quote]) = e.
Proof.
  intros He. unfold removeQuotes.
  change (List.filter _ (quote :: e ++ [quote]))
    with (List.filter (fun c => negb (c =? quote)%N) (e ++ [quote])).
  rewrite List.filter_app. simpl. rewrite app_nil_r.
  apply filter_all. intros c Hc.
  exact (proj1 (forallb_forall _ e) He c Hc).
Qed.

(** A well-formed address has no white space and is not empty. *)
Lemma valid_no_space e :
  isValidEmailFormat e = true ->
  forallb (fun c => negb (isWhiteSpace c)) e = true /\ e <> [].
Proof.
  intros Hv. apply isValidEmailFormat_spec in Hv.
  destruct Hv as (a & b & c & -> & Ha & _ & _ & Pa & Pb & Pc).
  split; [|destruct a; [congruence | discriminate]].
  assert (Hn : forall s, forallb notSpaceNorAt s = true ->
                         forallb (fun c => negb (isWhiteSpace c)) s = true).
  { intros s Hs. apply forallb_forall. intros x Hx.
    apply (proj1 (forallb_forall _ _) Hs) in Hx.
    unfold notSpaceNorAt in Hx. now apply andb_true_iff in Hx as [Hx _]. }
  rewrite !forallb_app. simpl.
  now rewrite (Hn a Pa), (Hn b Pb), (Hn c Pc).
Qed.

Lemma no_space_no_lineFeed e :
  forallb (fun c => negb (isWhiteSpace c)) e = true ->
  forallb (fun c => negb (c =? lineFeed)%N) e = true.
Proof.
  intros H. apply forallb_forall. intros x Hx.
  apply (proj1 (forallb_forall _ _) H) in Hx.
  destruct (N.eqb_spec x lineFeed) as [->|]; [discriminate | reflexivity].
Qed.

Lemma csvRow_shape r :
  csvRow r
  = (quote :: email r ++ [quote]) ++ comma ::
    join [comma]
      [ (if isValid r then lit "true" else lit "false");
        [quote] ++ statusString (status r) ++ [quote];
        [quote] ++ message r ++ [quote];
        [quote] ++ default [] (smtpResponse r) ++ [quote] ].
Proof. reflexivity. Qed.

Lemma csvRow_line r :
  csvSafe r ->
  forallb (fun c => negb (c =? lineFeed)%N) (csvRow r) = true.
Proof.
  intros (Hv & _ & _ & Hm & Hr).
  destruct (valid_no_space _ Hv) as [Hs _].
  apply no_space_no_lineFeed in Hs.
  unfold csvRow, join. rewrite !forallb_app.
  rewrite Hs, Hm, Hr.
  destruct (isValid r), (status r); reflexivity.
Qed.

Lemma csvRow_nonBlank r : nonBlank (csvRow r) = true.
Proof.
  apply (nonBlank_In quote); [|reflexivity]. rewrite csvRow_shape. now left.
Qed.

Lemma csvRow_first r :
  forallb (fun c => negb (c =? comma)%N) (email r) = true ->
  splitOn comma (csvRow r)
  = (quote :: email r ++ [quote])
    :: splitOn comma
         (join [comma]
            [ (if isValid r then lit "true" else lit "false");
              [quote] ++ statusString (status r) ++ [quote];
              [quote] ++ message r ++ [quote];
              [quote] ++ default [] (smtpResponse r) ++ [quote] ]).
Proof.
  intros Hc. rewrite csvRow_shape. apply splitOn_app.
  simpl. rewrite forallb_app, Hc. reflexivity.
Qed.

Lemma csvContent_lines results :
  Forall csvSafe results ->
  List.filter nonBlank (splitOn lineFeed (csvContent results))
  = lit "Email,IsValid,Status,Message,SMTPResponse"
    :: List.map csvRow results.
Proof.
  intros Hsafe. unfold csvContent.
  rewrite splitOn_join; [|discriminate|].
  - simpl List.filter.
    change (nonBlank (join [comma] _)) with true. cbv iota. f_equal.
    apply filter_all. intros line Hin.
    apply in_map_iff in Hin as (r & <- & _). apply csvRow_nonBlank.
  - constructor; [reflexivity|].
    apply Forall_forall. intros line Hin.
    apply list_elem_of_In, in_map_iff in Hin as (r & <- & Hr).
    apply csvRow_line.
    apply (proj1 (Forall_forall _ _) Hsafe). now apply list_elem_of_In.
Qed.

Lemma omap_rows (f : jsstring -> option jsstring) results :
  Forall (fun r => f (csvRow r) = Some (email r)) results ->
  omap f (List.map csvRow results) = List.map email results.
Proof.
  induction 1 as [|r results Hr _ IH]; [reflexivity|].
  change (omap f (List.map csvRow (r :: results)))
    with (match f (csvRow r) with
          | Some y => y :: omap f (List.map csvRow results)
          | None => omap f (List.map csvRow results)
          end).
  rewrite Hr, IH. reflexivity.
Qed.

Lemma csvRow_address r :
  csvSafe r ->
  match nth_error (splitOn comma (csvRow r)) 0 with
  | Some column =>
      match removeQuotes (trim column) with
      | [] => None
      | address => Some address
      end
  | None => None
  end = Some (email r) /\
  removeQuotes (trim (List.hd [] (splitOn comma (csvRow r)))) = email r.
Proof.
  intros (Hv & Hc & Hq & _).
  rewrite (csvRow_first r Hc). simpl nth_error. simpl List.hd. cbv iota beta.
  rewrite trim_quoted, (removeQuotes_quoted _ Hq).
  split; [|reflexivity].
  destruct (valid_no_space _ Hv) as [_ Hne].
  destruct (email r); [congruence | reflexivity].
Qed.
End CsvFacts.

(** X18: the CSV text that [exportToCsv] writes is read back by the two
    readers of the code.  For results whose addresses are well formed and
    hold neither a comma nor a double quote, and whose messages and
    responses hold no line feed, [verifyFromCsv] with [hasHeader] and the
    first column, and the [csv] case of [loadEmailsFromFile], both get the
    addresses of the results, in order.  Without [hasHeader], which is the
    default, [verifyFromCsv] also takes the column title Email for an
    address. *)
Theorem csv_round_trip (results : list Outcome) :
  Forall csvSafe results ->
  csvEmails (csvContent results) true 0 = List.map email results /\
  loadEmailsFromCsv (csvContent results) = List.map email results /\
  csvEmails (csvContent results) false 0
  = lit "Email" :: List.map email results.
Proof.
  intros Hsafe.
  assert (H1 : omap (fun line =>
                 match nth_error (splitOn comma line) 0 with
                 | Some column =>
                     match removeQuotes (trim column) with
                     | [] => None
                     | address => Some address
                     end
                 | None => None
                 end) (List.map csvRow results) = List.map email results).
  { apply omap_rows. eapply Forall_impl; [exact Hsafe|].
    intros r Hr. now apply csvRow_address. }
  split; [|split].
  - unfold csvEmails. rewrite (csvContent_lines results Hsafe). exact H1.
  - unfold loadEmailsFromCsv. rewrite (csvContent_lines results Hsafe).
    apply omap_rows. eapply Forall_impl; [exact Hsafe|].
    intros r Hr. cbv beta zeta.
    rewrite (proj2 (csvRow_address r Hr)).
    destruct Hr as (Hv & _). now rewrite Hv.
  - unfold csvEmails. rewrite (csvContent_lines results Hsafe).
    change (skipn 0 ?l) with l.
    set (f := fun line : jsstring => _).
    change (omap f (?h :: ?t))
      with (match f h with Some y => y :: omap f t | None => omap f t end).
    change (f (lit "Email,IsValid,Status,Message,SMTPResponse"))
      with (Some (lit "Email")).
    cbv iota. f_equal. exact H1.
Qed.

Lemma csv_round_trip_witness :
  let results :=
    [ {| email := lit "user@example.org"; isValid := true; status := st_valid;
         message := lit "Email address is valid";
         smtpResponse := Some (lit "250 2.1.5 Ok"); fromCache := None |};
      invalidFormat (lit "x@y.z") ] in
  csvEmails (csvContent results) true 0 = List.map email results /\
  loadEmailsFromCsv (csvContent results) = List.map email results /\
  csvEmails (csvContent results) false 0
  = lit "Email" :: List.map email results.
Proof.
  intros results. apply (csv_round_trip results).
  repeat constructor.
Defined.

Section FromCsvFacts.
Context {RT : Runtime} {CF : Config}.
Variable readFile : jsstring -> World -> Completion jsstring * World.

Lemma run_readFileCall filePath s :
  run (readFileCall readFile filePath) s
  = (setWorld (snd (readFile filePath (world s))) s,
     Some (fst (readFile filePath (world s)))).
Proof.
  unfold run, readFileCall. simpl.
  now destruct (readFile filePath (world s)).
Qed.

Lemma run_verifyMultiple emails options s :
  let final := run (verifyMultiple emails options) s in
  cache (fst final) = cache s /\ rateLimiter (fst final) = rateLimiter s /\
  forall e, snd final <> Some (Throw e).
Proof.
  intros final.
  set (I := fun s' : State =>
              cache s' = cache s /\ rateLimiter s' = rateLimiter s).
  assert (HI : stable I) by (intros s' w l Hs'; exact Hs').
  destruct (always_run false I
              (returns (fun rs => Forall2 verifierOutcome emails rs))
              (verifyMultiple emails options) s) as [[Hc Hr] He];
    [apply verifyMultiple_outcomes; [discriminate | exact HI]
    | split; reflexivity |].
  fold final in Hc, Hr, He. split; [exact Hc|]. split; [exact Hr|].
  intros e Hfin. rewrite Hfin in He. exact He.
Qed.
End FromCsvFacts.

(** X19: [verifyFromCsv], run alone, reads the file and hands the
    addresses that it takes from the text to [verifyMultiple], with a
    [concurrency] of 3 and a [delay] of 2000 unless others (not 0) are
    given.  It throws only when the file cannot be read, and then an error
    whose message is that of the failure with a fixed prefix.  Although it
    is a method of [AdvancedEmailVerifier] it neither reads nor fills the
    cache and does not count against the rate limit. *)
Theorem verifyFromCsv_run {RT : Runtime} {CF : Config}
  (readFile : jsstring -> World -> Completion jsstring * World)
  (filePath : jsstring) (options : CsvOptions) (s : State) :
  let read := readFile filePath (world s) in
  let final := run (verifyFromCsv readFile filePath options) s in
  final
  = match fst read with
    | Throw e =>
        (setWorld (snd read) s,
         Some (Throw (mkError (lit "Failed to process CSV file: "
                               ++ errorMessage e))))
    | Return content =>
        run (verifyMultiple
               (csvEmails content (hasHeader options) (emailColumn options))
               {| optConcurrency :=
                    Some (Npos (orDefaultPositive (csvConcurrency options) 3));
                  optDelay := Some (orDefault (csvDelay options) 2000) |})
          (setWorld (snd read) s)
    end /\
  cache (fst final) = cache s /\ rateLimiter (fst final) = rateLimiter s /\
  (forall e, snd final = Some (Throw e) ->
     exists e0, fst read = Throw e0 /\
       e = mkError (lit "Failed to process CSV file: " ++ errorMessage e0)).
Proof.
  intros read final.
  assert (Hrun : final
    = match fst read with
      | Throw e =>
          (setWorld (snd read) s,
           Some (Throw (mkError (lit "Failed to process CSV file: "
                                 ++ errorMessage e))))
      | Return content =>
          run (verifyMultiple
                 (csvEmails content (hasHeader options) (emailColumn options))
                 {| optConcurrency :=
                      Some (Npos (orDefaultPositive (csvConcurrency options) 3));
                    optDelay := Some (orDefault (csvDelay options) 2000) |})
            (setWorld (snd read) s)
      end).
  { unfold final, verifyFromCsv.
    rewrite run_tryCatch, run_bind, run_await, run_readFileCall.
    fold read. destruct (fst read) as [content|e]; [|reflexivity].
    rewrite run_bind, run_await.
    pose proof (run_verifyMultiple
                  (csvEmails content (hasHeader options) (emailColumn options))
                  {| optConcurrency :=
                       Some (Npos (orDefaultPositive (csvConcurrency options) 3));
                     optDelay := Some (orDefault (csvDelay options) 2000) |}
                  (setWorld (snd read) s)) as (_ & _ & Hnt).
    destruct (run (verifyMultiple _ _) (setWorld (snd read) s))
      as [s1 [[rs|e]|]]; try reflexivity.
    destruct (Hnt e). reflexivity. }
  split; [exact Hrun|]. rewrite Hrun.
  destruct (fst read) as [content|e0].
  - pose proof (run_verifyMultiple
                  (csvEmails content (hasHeader options) (emailColumn options))
                  {| optConcurrency :=
                       Some (Npos (orDefaultPositive (csvConcurrency options) 3));
                     optDelay := Some (orDefault (csvDelay options) 2000) |}
                  (setWorld (snd read) s)) as (Hc & Hr & Hnt).
    split; [exact Hc|]. split; [exact Hr|].
    intros e He. destruct (Hnt e He).
  - split; [reflexivity|]. split; [reflexivity|].
    intros e [= <-]. now exists e0.
Qed.

(** ** The order of the exchanges *)

Section StableSort.
Lemma withPriority_insert p x l :
  withPriority p (insertByPriority x l) = withPriority p (x :: l).
Proof.
  unfold withPriority. induction l as [|y l IH]; [reflexivity|].
  simpl insertByPriority. destruct (Z.leb_spec (priority x) (priority y)) as [Hle|Hgt];
    [reflexivity|].
  simpl List.filter in *. rewrite IH.
  destruct (Z.eqb_spec (priority x) p) as [Hx|Hx];
    destruct (Z.eqb_spec (priority y) p) as [Hy|Hy]; try reflexivity.
  exfalso. lia.
Qed.

Lemma withPriority_sort p l :
  withPriority p (sortByPriority l) = withPriority p l.
Proof.
  induction l as [|x l IH]; [reflexivity|].
  simpl sortByPriority. rewrite withPriority_insert.
  unfold withPriority in *. simpl. now rewrite IH.
Qed.
End StableSort.

(** X20: [getMxRecords] orders the exchanges as a stable sort by
    priority does: its answer holds the records of the lookup, each as
    often as the lookup, in ascending priority, and the records of equal
    priority in the order of the lookup; so do the connections of
    [verifyEmail]. *)
Theorem exchanges_in_stable_order {RT : Runtime} {CF : Config}
  (d : jsstring) (s : State) (records : list MxRecord) :
  fst (resolveMx d (world s)) = Return records ->
  exists hosts,
    snd (run (getMxRecords (Some d)) s) = Some (Return (Some hosts)) /\
    Permutation hosts records /\ ascending hosts /\
    forall p, withPriority p hosts = withPriority p records.
Proof.
  intros Hr. exists (sortByPriority records).
  rewrite run_getMxRecords, Hr. split; [reflexivity|].
  split; [apply sortByPriority_perm|]. split; [apply sortByPriority_sorted|].
  intros p. apply withPriority_sort.
Qed.

Lemma exchanges_in_stable_order_witness :
  exists hosts,
    snd (run (RT:=demoRuntime) (getMxRecords (Some (lit "example.org")))
           (initialState (RT:=demoRuntime) (0, [])))
    = Some (Return (Some hosts)) /\
    Permutation hosts
      [ {| exchange := lit "mx2.example.org"; priority := 20 |};
        {| exchange := lit "mx1.example.org"; priority := 10 |} ] /\
    ascending hosts /\
    forall p, withPriority p hosts
              = withPriority p
                  [ {| exchange := lit "mx2.example.org"; priority := 20 |};
                    {| exchange := lit "mx1.example.org"; priority := 10 |} ].
Proof.
  exact (exchanges_in_stable_order (RT:=demoRuntime) (CF:=demoConfig)
           (lit "example.org") (initialState (RT:=demoRuntime) (0, [])) _
           eq_refl).
Defined.

(** ** The constructors *)

(** X21: what a [BulkEmailProcessor] can be configured to.  Its verifier
    always introduces itself with the default sender,
    [test@example.com], whatever [fromEmail] the options hold, because the
    constructor does not pass that option on; a value of 0 stands for the
    default, so that neither the retries nor the rate limit nor the cache
    can be switched off with a 0; and the default of
    [maxRequestsPerDomain] is 5 here, the 10 of [AdvancedEmailVerifier]
    never applies. *)
Theorem processor_configuration (options : Options) :
  let config := newBulkEmailProcessor options in
  @fromEmail config = lit "test@example.com" /\
  @retryAttempts config <> 0 /\ @maxRequestsPerDomain config <> 0 /\
  @cacheExpiry config <> 0 /\ @rateLimitWindow config <> 0 /\
  @delay config <> 0 /\
  (optRetryAttempts options = Some 0 -> @retryAttempts config = 2) /\
  (optMaxRequestsPerDomain options = None \/
   optMaxRequestsPerDomain options = Some 0 ->
   @maxRequestsPerDomain config = 5) /\
  (forall v, optMaxRequestsPerDomain options = Some v -> v <> 0 ->
             @maxRequestsPerDomain config = v).
Proof.
  intros config. unfold config, newBulkEmailProcessor, newAdvancedEmailVerifier.
  cbn [fromEmail retryAttempts maxRequestsPerDomain cacheExpiry rateLimitWindow
       delay verifierFromEmail verifierCacheExpiry
       verifierMaxRequestsPerDomain verifierRateLimitWindow].
  assert (Hnz : forall o d, d <> 0 -> orDefault o d <> 0).
  { intros [[| |]|] d Hd; simpl; auto; discriminate. }
  assert (Hid : forall o d, d <> 0 ->
                  orDefault (Some (orDefault o d)) d = orDefault o d).
  { intros o d Hd. unfold orDefault at 1.
    pose proof (Hnz o d Hd). destruct (orDefault o d); congruence. }
  rewrite !Hid by discriminate.
  split; [reflexivity|].
  repeat (split; [apply Hnz; discriminate|]).
  split; [intros ->; reflexivity|]. split.
  - intros [-> | ->]; reflexivity.
  - intros v -> Hv. destruct v; [congruence | reflexivity | reflexivity].
Qed.

(** ** Saving *)

(** X22: [saveResults] never throws: whether [fs.writeFile] succeeds or
    fails, the call, run alone, returns normally after the one write, and
    under every schedule its promise is fulfilled. *)
Theorem saveResults_swallows_failures {RT : Runtime} {CF : Config}
  (batchNumber : nat) (s : State) :
  run (saveResults batchNumber) s
  = (setWorld (snd (writeFile (world s)))
       (record (SaveIntermediate batchNumber) s),
     Some (Return tt)) /\
  (forall live I, stable I ->
     asyncAlways live I (fun c => c = Return tt) (saveResults batchNumber)).
Proof.
  split; [|intros live I HI; now apply always_saveResults].
  unfold saveResults. rewrite run_tryCatch, run_bind, run_await.
  unfold run at 1, writeFileCall. simpl.
  destruct (writeFile (world s)) as [[[]|e] w]; reflexivity.
Qed.

(** ** The start of a group *)

Section Admission.
Context {RT : Runtime} {CF : Config}.

(** Up to its first suspension a call that awaits is the awaited call, and
    a call that goes on after an unsettled promise does nothing more. *)
Lemma andThen_unsettled {A B} (t : Task A) (k : Completion A -> Async B) s :
  (forall c, t <> Settled c) ->
  fst (andThen t k s) = s /\ forall c, snd (andThen t k s) <> Settled c.
Proof.
  intros Ht. destruct t as [c| |f]; [now destruct (Ht c)| |];
    simpl; split; try reflexivity; discriminate.
Qed.

Lemma await_start {A} (m : Async A) s :
  fst (await m s) = fst (m s) /\ forall c, snd (await m s) <> Settled c.
Proof.
  unfold await. destruct (m s) as [s1 t]. simpl.
  destruct t as [c| |f]; simpl; split; try reflexivity; discriminate.
Qed.

Lemma bind_start {A B} (m : Async A) (k : A -> Async B) s :
  (forall c, snd (m s) <> Settled c) ->
  fst (bind m k s) = fst (m s) /\ forall c, snd (bind m k s) <> Settled c.
Proof.
  intros Hm. unfold bind. destruct (m s) as [s1 t]. simpl in *.
  now apply andThen_unsettled.
Qed.

Lemma tryCatch_start {A} (m : Async A) (h : Error -> Async A) s :
  (forall c, snd (m s) <> Settled c) ->
  fst (tryCatch m h s) = fst (m s) /\
  forall c, snd (tryCatch m h s) <> Settled c.
Proof.
  intros Hm. unfold tryCatch. destruct (m s) as [s1 t]. simpl in *.
  now apply andThen_unsettled.
Qed.

(** Before its first suspension [verifyEmail] looks at the address and
    starts the lookup: it changes nothing but the log. *)
Lemma verifyEmail_start addr s :
  world (fst (verifyEmail addr s)) = world s /\
  cache (fst (verifyEmail addr s)) = cache s /\
  rateLimiter (fst (verifyEmail addr s)) = rateLimiter s.
Proof.
  unfold verifyEmail. destruct (isValidEmailFormat addr); simpl negb; cbv iota;
    [|repeat split].
  set (body := bind _ _).
  assert (Hb : fst (body s) = fst (getMxRecords (domainOf addr) s) /\
               forall c, snd (body s) <> Settled c).
  { unfold body.
    destruct (await_start (getMxRecords (domainOf addr)) s) as [Ha Hn].
    destruct (bind_start (await (getMxRecords (domainOf addr)))
                (fun mxRecords =>
                   match mxRecords with
                   | Some [] | None =>
                       ret {| email := addr; isValid := false;
                              status := st_no_mx_record;
                              message := lit "No MX record found for domain";
                              smtpResponse := None; fromCache := None |}
                   | Some records => tryMxRecords addr records
                   end) s Hn) as [Hb1 Hb2].
    split; [now rewrite Hb1, Ha | exact Hb2]. }
  destruct Hb as [Hb1 Hb2].
  destruct (tryCatch_start body
              (fun error =>
                 ret {| email := addr; isValid := false; status := st_error;
                        message := errorMessage error;
                        smtpResponse := None; fromCache := None |}) s Hb2)
    as [Ht _].
  rewrite Ht, Hb1. destruct (domainOf addr) as [d|]; repeat split.
Qed.

Lemma verifyEmailAdvanced_unfold addr s :
  verifyEmailAdvanced addr s
  = match getFromCache addr s with
    | (Some c, s1) => (s1, Settled (Return (withFromCache c)))
    | (None, s1) =>
        match checkRateLimit (domainOf addr) s1 with
        | (false, s2) => (s2, Settled (Return (rateLimited addr)))
        | (true, s2) =>
            bind (await (verifyEmail addr))
              (fun r => bind (sync (addToCache addr r)) (fun _ => ret r)) s2
        end
    end.
Proof.
  unfold verifyEmailAdvanced, bind at 1, sync.
  destruct (getFromCache addr s) as [[c|] s1]; simpl; [reflexivity|].
  unfold bind at 1, sync.
  destruct (checkRateLimit (domainOf addr) s1) as [[|] s2]; reflexivity.
Qed.

(** Before its first suspension [verifyEmailAdvanced] reads the cache,
    asks the limiter unless the cache answered, and starts
    [verifyEmail] if the limiter agreed. *)
Lemma verifyEmailAdvanced_start addr s :
  let s0 := snd (getFromCache addr s) in
  let s' := fst (verifyEmailAdvanced addr s) in
  world s' = world s /\ cache s' = cache s0 /\
  rateLimiter s'
  = if missed s addr then rateLimiter (snd (checkRateLimit (domainOf addr) s0))
    else rateLimiter s.
Proof.
  intros s0 s'. unfold s', s0, missed. rewrite verifyEmailAdvanced_unfold.
  destruct (getFromCache_state addr s) as (Hw & Hr & _).
  destruct (getFromCache addr s) as [[c|] s1]; simpl in Hw, Hr |- *.
  - repeat split; first [assumption | reflexivity].
  - destruct (checkRateLimit_state (domainOf addr) s1) as (Hw2 & Hc2 & _).
    destruct (checkRateLimit (domainOf addr) s1) as [[|] s2];
      simpl in Hw2, Hc2 |- *.
    + destruct (await_start (verifyEmail addr) s2) as [Ha Hn].
      destruct (bind_start (await (verifyEmail addr))
                  (fun r => bind (sync (addToCache addr r)) (fun _ => ret r))
                  s2 Hn) as [Hb _].
      rewrite Hb, Ha.
      destruct (verifyEmail_start addr s2) as (H1 & H2 & H3).
      rewrite H1, H2, H3. repeat split; congruence.
    + repeat split; congruence.
Qed.

Lemma verifyWithRetryFrom_start fuel addr attempt s :
  fst (verifyWithRetryFrom fuel addr attempt s)
  = fst (verifyEmailAdvanced addr s).
Proof.
  destruct (await_start (verifyEmailAdvanced addr) s) as [Ha Hn].
  destruct fuel; simpl verifyWithRetryFrom;
    (etransitivity; [apply bind_start|]);
    try (etransitivity; [apply tryCatch_start|]);
    try (etransitivity; [apply bind_start|]);
    try exact Ha; try exact Hn;
    try (apply bind_start; exact Hn);
    try (apply tryCatch_start; apply bind_start; exact Hn).
Qed.

Lemma missed_after addr other s :
  missed (fst (verifyEmailAdvanced addr s)) other = missed s other.
Proof.
  destruct (verifyEmailAdvanced_start addr s) as (Hw & Hc & _).
  unfold missed. destruct (decide (other = addr)) as [->|Hne].
  - unfold getFromCache at 1. rewrite Hw, Hc. unfold getFromCache.
    destruct (cache s !! addr) as [entry|] eqn:He; simpl; [|now rewrite He].
    destruct (now (world s) - timestamp entry <? cacheExpiry) eqn:Hf; simpl.
    + now rewrite He, Hf.
    + now rewrite lookup_delete_eq.
  - rewrite (getFromCache_lookup other (fst (verifyEmailAdvanced addr s)) s);
      [reflexivity | now rewrite Hw |]. rewrite Hc.
    unfold getFromCache.
    destruct (cache s !! addr) as [entry|]; [|reflexivity].
    destruct (now (world s) - timestamp entry <? cacheExpiry); [reflexivity|].
    simpl. now apply lookup_delete_ne.
Qed.

Lemma checkRateLimit_same domain s s' :
  now (world s) = now (world s') -> rateLimiter s = rateLimiter s' ->
  rateLimiter (snd (checkRateLimit domain s))
  = rateLimiter (snd (checkRateLimit domain s')).
Proof.
  intros Hn Hr. unfold checkRateLimit. rewrite Hn, Hr.
  destruct (maxRequestsPerDomain <=? _); simpl; congruence.
Qed.

Lemma filter_missed s s' group :
  (forall a, missed s' a = missed s a) ->
  List.filter (missed s') group = List.filter (missed s) group.
Proof.
  intros H. induction group as [|a group IH]; [reflexivity|].
  simpl. now rewrite H, IH.
Qed.

Lemma startAll_admission group : forall s sm,
  world sm = world s -> rateLimiter sm = rateLimiter s ->
  let s' := fst (startAll (List.map verifyWithRetry group) s) in
  world s' = world s /\
  rateLimiter s'
  = rateLimiter
      (snd (rateChecks
              (List.map (fun a => (domainOf a, world s))
                 (List.filter (missed s) group)) sm)) /\
  forall a, missed s' a = missed s a.
Proof.
  induction group as [|a group IH]; intros s sm Hw Hr s'.
  - simpl. repeat split. now symmetry.
  - unfold s'. simpl startAll.
    pose proof (verifyWithRetryFrom_start
                  (Z.to_nat (retryAttempts + 1 - 1)) a 1 s) as Hstart.
    change (verifyWithRetryFrom _ a 1 s) with (verifyWithRetry a s) in Hstart.
    destruct (verifyWithRetry a s) as [s1 t]. simpl in Hstart. subst s1.
    destruct (verifyEmailAdvanced_start a s) as (Hw1 & _ & Hr1).
    pose proof (fun b => missed_after a b s) as Hm1.
    set (s1 := fst (verifyEmailAdvanced a s)) in *.
    destruct (getFromCache_state a s) as (Hw0 & Hr0 & _).
    simpl List.filter. destruct (missed s a) eqn:Hmiss.
    + simpl List.map. simpl rateChecks.
      destruct (checkRateLimit_state (domainOf a) (setWorld (world s) sm))
        as (Hwm & _).
      assert (Hrm : rateLimiter (snd (checkRateLimit (domainOf a)
                                        (setWorld (world s) sm)))
                    = rateLimiter s1).
      { rewrite Hr1. apply checkRateLimit_same; simpl.
        - now rewrite Hw0.
        - now rewrite Hr, Hr0. }
      destruct (checkRateLimit (domainOf a) (setWorld (world s) sm))
        as [ok sm1]. simpl in Hwm, Hrm.
      assert (Hwm1 : world sm1 = world s1) by (now rewrite Hwm, Hw1).
      destruct (IH s1 sm1 Hwm1 Hrm) as (H1 & H2 & H3).
      rewrite Hw1, (filter_missed s s1 group Hm1) in H2.
      destruct (startAll (List.map verifyWithRetry group) s1) as [s2 ts].
      simpl in H1, H2, H3 |- *.
      destruct (rateChecks _ sm1) as [oks sm2].
      simpl. split; [now rewrite H1|]. split; [exact H2|].
      intros b. now rewrite H3, Hm1.
    + assert (Hwm1 : world sm = world s1) by (now rewrite Hw, Hw1).
      assert (Hrm : rateLimiter sm = rateLimiter s1) by (now rewrite Hr1).
      destruct (IH s1 sm Hwm1 Hrm) as (H1 & H2 & H3).
      rewrite Hw1, (filter_missed s s1 group Hm1) in H2.
      destruct (startAll (List.map verifyWithRetry group) s1) as [s2 ts].
      simpl in H1, H2, H3 |- *.
      split; [now rewrite H1|]. split; [exact H2|].
      intros b. now rewrite H3, Hm1.
Qed.
End Admission.

(** X23: a group is admitted at once.  When [processBatch] starts the
    members of a group, each of them reads the cache and, unless the cache
    answers, asks the limiter before any of them goes on: no time passes
    meanwhile, and the limiter ends up as after one [checkRateLimit] per
    member that the cache does not answer, in the order of the group and
    all at the instant of the start; and the cache answers the same
    addresses after the start as before it.  So an address that occurs
    twice in a group and is not cached before is counted twice by the
    limiter. *)
Theorem group_is_admitted_at_once {RT : Runtime} {CF : Config}
  (group : list jsstring) (s : State) :
  let s' := fst (startAll (List.map verifyWithRetry group) s) in
  world s' = world s /\
  rateLimiter s'
  = rateLimiter
      (snd (rateChecks
              (List.map (fun a => (domainOf a, world s))
                 (List.filter (missed s) group)) s)) /\
  forall a, missed s' a = missed s a.
Proof.
  intros s'.
  destruct (startAll_admission group s s eq_refl eq_refl) as (Hw & Hr & Hm).
  split; [exact Hw|]. split; [exact Hr | exact Hm].
Qed.
